(** * RoboSats notifier: offer tracker, coordinator client and check cycle

    A shallow embedding of [src/offerTracker.js], [src/robosatsClient.js] and
    [src/index.js].  JavaScript values are restricted to the shapes the
    program stores: integer-valued numbers are [Z], [NaN] is explicit, the
    [Map] of seen offers is an insertion-ordered association list, the data
    file is the JSON document that [JSON.stringify] writes. *)

From Stdlib Require Import ZArith List String Ascii Bool Lia.
From Stdlib Require Import Decimal DecimalString DecimalZ DecimalPos.
Import ListNotations.
Local Open Scope string_scope.
Local Open Scope Z_scope.

(** ** JavaScript values used by the program *)

Module Js.

(** A number: integer valued, or [NaN]. *)
Inductive JsNum : Type :=
| Num (z : Z)
| NaN.

(** A [Map] key or an offer id: a number or a string.  [Map] compares keys
    with SameValueZero, under which [NaN] equals [NaN]; it is Leibniz
    equality on this type. *)
Inductive Key : Type :=
| KNum (n : JsNum)
| KStr (s : string).

Definition JsNum_eq_dec (a b : JsNum) : {a = b} + {a <> b}.
Proof. decide equality. apply Z.eq_dec. Defined.

Definition Key_eq_dec (a b : Key) : {a = b} + {a <> b}.
Proof. decide equality. apply JsNum_eq_dec. apply string_dec. Defined.

Definition key_eqb (a b : Key) : bool :=
  if Key_eq_dec a b then true else false.

(** A time value as it sits in a record field: a number of milliseconds,
    [NaN] (an invalid [Date]), [null] or [undefined]. *)
Inductive TimeVal : Type :=
| TNum (z : Z)
| TNaN
| TNull
| TUndef.

(** [v <= now] for a numeric [now]: [null] converts to 0, [undefined] to
    [NaN], and every comparison with [NaN] is false. *)
Definition le_now (v : TimeVal) (now : Z) : bool :=
  match v with
  | TNum z => z <=? now
  | TNaN => false
  | TNull => 0 <=? now
  | TUndef => false
  end.

(** [Number.prototype.toString] on an integer (below 10^21 in magnitude, where
    JavaScript prints plain decimal digits) and on [NaN]. *)
Definition Number_toString (n : JsNum) : string :=
  match n with
  | Num z => NilEmpty.string_of_int (Z.to_int z)
  | NaN => "NaN"
  end.

(** The property key under which [obj[k] = v] stores. *)
Definition ToPropertyKey (k : Key) : string :=
  match k with
  | KNum n => Number_toString n
  | KStr s => s
  end.

(** *** parseInt *)

Definition is_whitespace (c : ascii) : bool :=
  let n := nat_of_ascii c in
  (Nat.eqb n 32 || Nat.eqb n 9 || Nat.eqb n 10 || Nat.eqb n 11
   || Nat.eqb n 12 || Nat.eqb n 13)%bool.

Fixpoint skip_whitespace (s : string) : string :=
  match s with
  | String c r => if is_whitespace c then skip_whitespace r else s
  | EmptyString => EmptyString
  end.

(** The value of a character as a digit, from 0 to 35. *)
Definition digit_of (c : ascii) : option Z :=
  let n := Z.of_nat (nat_of_ascii c) in
  if (48 <=? n) && (n <=? 57) then Some (n - 48)
  else if (97 <=? n) && (n <=? 122) then Some (n - 87)
  else if (65 <=? n) && (n <=? 90) then Some (n - 55)
  else None.

(** Reads the longest prefix of radix-[R] digits; [None] when it is empty. *)
Fixpoint read_digits (R : Z) (s : string) (acc : option Z) : option Z :=
  match s with
  | EmptyString => acc
  | String c r =>
      match digit_of c with
      | Some d =>
          if d <? R
          then read_digits R r
                 (Some (match acc with Some a => a * R + d | None => d end))
          else acc
      | None => acc
      end
  end.

Definition strip_sign (s : string) : Z * string :=
  match s with
  | String "-" r => (-1, r)
  | String "+" r => (1, r)
  | _ => (1, s)
  end.

Definition strip_radix (s : string) : Z * string :=
  match s with
  | String "0" (String "x" r) => (16, r)
  | String "0" (String "X" r) => (16, r)
  | _ => (10, s)
  end.

(** [parseInt(s)] with no radix argument. *)
Definition parseInt (s : string) : JsNum :=
  let (sign, s1) := strip_sign (skip_whitespace s) in
  let (R, s2) := strip_radix s1 in
  match read_digits R s2 None with
  | Some m => Num (sign * m)
  | None => NaN
  end.

(** *** Map: insertion-ordered, one entry per key *)

Section MapOps.
Context {K V : Type} (eqb : K -> K -> bool).

Fixpoint Map_get (k : K) (m : list (K * V)) : option V :=
  match m with
  | [] => None
  | (k', v) :: r => if eqb k k' then Some v else Map_get k r
  end.

Definition Map_has (k : K) (m : list (K * V)) : bool :=
  match Map_get k m with Some _ => true | None => false end.

(** [set] keeps the position of a key that is present and appends a new
    one. *)
Fixpoint Map_set (k : K) (v : V) (m : list (K * V)) : list (K * V) :=
  match m with
  | [] => [(k, v)]
  | (k', v') :: r =>
      if eqb k k' then (k, v) :: r else (k', v') :: Map_set k v r
  end.

Definition Map_delete (k : K) (m : list (K * V)) : list (K * V) :=
  filter (fun e => negb (eqb k (fst e))) m.

Definition Map_keys (m : list (K * V)) : list K := map fst m.

Definition Map_size (m : list (K * V)) : nat := List.length m.
End MapOps.

End Js.

Import Js.

(** ** Data model *)

(** The [expires_at] attribute of a listing, as the coordinator's JSON gives
    it. *)
Inductive ExpiresAt : Type :=
| ExpUndefined
| ExpNull
| ExpString (s : string)
| ExpNumber (z : Z).

(** A listing.  The presentation attributes other than the currency are not
    read by the tracker or the cycle and are left out. *)
Record Offer : Type := mkOffer {
  id : Key;
  expires_at : ExpiresAt;
  currency : Z;
  currencyCode : option string;
  coordinator : option string
}.

(** The value [seenOffers] holds for an offer id.  Every [seenOffers.set] of
    this version stores an object, so the [typeof value === 'number'] arms of
    [cleanupExpiredOffers] and [getMessageId] are never taken. *)
Record SeenValue : Type := mkSeen {
  expiresAt : TimeVal;
  messageId : option string;
  sentAt : option Z
}.

Definition Store : Type := list (Key * SeenValue).

(** A field of a JSON object: missing, [null], or a value. *)
Inductive JField (A : Type) : Type :=
| FMissing
| FNull
| FVal (a : A).
Arguments FMissing {A}.
Arguments FNull {A}.
Arguments FVal {A} a.

Record FileRecord : Type := mkFileRecord {
  f_expiresAt : JField Z;
  f_messageId : JField string;
  f_sentAt : JField Z
}.

(** A value of the top-level object of [seen_offers.json]. *)
Inductive FileEntry : Type :=
| EntryNumber (z : Z)
| EntryObject (r : FileRecord)
| EntryOther.

(** The parsed content of [seen_offers.json].  [FileUnreadable] stands for a
    text on which [JSON.parse] or [Object.entries] throws.  The order in
    which a JavaScript object enumerates its properties is not modelled:
    [FileObject] lists them in the order they were first assigned. *)
Inductive FileData : Type :=
| FileArray (ids : list Key)
| FileObject (entries : list (string * FileEntry))
| FileUnreadable.

Inductive LogMsg : Type :=
| LMigratingArray
| LMigratingMessageIds
| LLoaded (n : nat)
| LNoPreviousData
| LCleanedUp (n : nat)
| LClearing
| LCleared
| LSkippingCycle
| LIntervalStopped
| LIntervalStoppedAborting
| LAborted
| LAbortedNotifications
| LConfigError
| LChecking
| LFound (n : nat)
| LSent (n : nat)
| LNoNewOffers
| LCycleError.

(** Calls the check cycle makes on its collaborators.  [DeleteMessage] is the
    notifier's retraction entry point. *)
Inductive Call : Type :=
| CleanupExpiredOffers
| GetOffers
| GetNewOffers
| SendNotification (o : Offer)
| AddOffers (l : list Offer)
| DeleteMessage (m : string).

Inductive Event : Type :=
| Log (m : LogMsg)
| WriteFile (d : FileData)
| Invoke (c : Call).

Inductive Error : Type :=
| ENOENT
| INVALID_RESPONSE
| OtherError.

Inductive Result (A : Type) : Type :=
| Ok (a : A)
| Throw (e : Error).
Arguments Ok {A} a.
Arguments Throw {A} e.

(** The state of the process: the tracker's map, the data file, the two
    module variables of [index.js] that guard the cycle, and the effects
    performed so far, oldest first. *)
Record World : Type := mkWorld {
  seenOffers : Store;
  dataFile : option FileData;
  isCheckInProgress : bool;
  shouldAbortCheck : bool;
  trace : list Event
}.

Definition with_seenOffers (m : Store) (w : World) : World :=
  mkWorld m (dataFile w) (isCheckInProgress w) (shouldAbortCheck w) (trace w).

Definition with_dataFile (d : option FileData) (w : World) : World :=
  mkWorld (seenOffers w) d (isCheckInProgress w) (shouldAbortCheck w) (trace w).

Definition with_isCheckInProgress (b : bool) (w : World) : World :=
  mkWorld (seenOffers w) (dataFile w) b (shouldAbortCheck w) (trace w).

Definition with_shouldAbortCheck (b : bool) (w : World) : World :=
  mkWorld (seenOffers w) (dataFile w) (isCheckInProgress w) b (trace w).

Definition emit (e : Event) (w : World) : World :=
  mkWorld (seenOffers w) (dataFile w) (isCheckInProgress w)
    (shouldAbortCheck w) (trace w ++ [e])%list.

(** A process that has just started: the constructor's empty map. *)
Definition fresh (d : option FileData) : World :=
  mkWorld [] d false false [].

(** ** offerTracker.js *)

(** [this.defaultMaxAge]: 24 hours in milliseconds. *)
Definition defaultMaxAge : Z := 24 * 60 * 60 * 1000.

(** [JSON.stringify] of a stored value: [NaN] is written as [null], an
    [undefined] field is dropped. *)
Definition JSON_of_value (v : SeenValue) : FileEntry :=
  EntryObject
    (mkFileRecord
       (match expiresAt v with
        | TNum z => FVal z
        | TNaN => FNull
        | TNull => FNull
        | TUndef => FMissing
        end)
       (match messageId v with Some s => FVal s | None => FNull end)
       (match sentAt v with Some z => FVal z | None => FNull end)).

(** The plain object that [save] builds: [obj[offerId] = value] for each
    entry of the map, in the map's order. *)
Definition object_of (m : Store) : list (string * SeenValue) :=
  fold_left
    (fun obj e => Map_set String.eqb (ToPropertyKey (fst e)) (snd e) obj)
    m [].

Definition JSON_stringify (obj : list (string * SeenValue)) : FileData :=
  FileObject (map (fun e => (fst e, JSON_of_value (snd e))) obj).

(** [save]: writes the JSON text of that object to the data file.  The write
    is taken to succeed. *)
Definition save (w : World) : World :=
  let data := JSON_stringify (object_of (seenOffers w)) in
  emit (WriteFile data) (with_dataFile (Some data) w).

(** What an [async] method resolves with. *)
Inductive Returned : Type :=
| RetUndefined
| RetNumber (n : nat).

(** The loop of [cleanupExpiredOffers] over [seenOffers.entries()].  It
    deletes only the entry it is visiting, so it visits exactly the entries
    the map had when the loop began. *)
Fixpoint cleanup_loop (now : Z) (entries : Store) (acc : Store * nat)
  : Store * nat :=
  match entries with
  | [] => acc
  | (offerId, value) :: rest =>
      if le_now (expiresAt value) now
      then cleanup_loop now rest
             (Map_delete key_eqb offerId (fst acc), S (snd acc))
      else cleanup_loop now rest acc
  end.

(** [cleanupExpiredOffers], with [now] the reading of [Date.now()].  The
    method has no [return] statement. *)
Definition cleanupExpiredOffers (now : Z) (w : World) : Returned * World :=
  let (m, removedCount) :=
    cleanup_loop now (seenOffers w) (seenOffers w, 0%nat) in
  let w1 := with_seenOffers m w in
  if (0 <? removedCount)%nat
  then (RetUndefined, save (emit (Log (LCleanedUp removedCount)) w1))
  else (RetUndefined, w1).

(** [x || null] on a field read from the file. *)
Definition string_or_null (f : JField string) : option string :=
  match f with
  | FVal s => if String.eqb s "" then None else Some s
  | _ => None
  end.

Definition number_or_null (f : JField Z) : option Z :=
  match f with
  | FVal z => if z =? 0 then None else Some z
  | _ => None
  end.

Definition field_value (f : JField Z) : TimeVal :=
  match f with
  | FVal z => TNum z
  | FNull => TNull
  | FMissing => TUndef
  end.

(** One step of the [Object.entries(parsed).forEach] of [initialize]. *)
Definition load_entry (m : Store) (e : string * FileEntry) : Store :=
  match snd e with
  | EntryNumber value =>
      Map_set key_eqb (KNum (parseInt (fst e))) (mkSeen (TNum value) None None) m
  | EntryObject value =>
      Map_set key_eqb (KNum (parseInt (fst e)))
        (mkSeen (field_value (f_expiresAt value))
                (string_or_null (f_messageId value))
                (number_or_null (f_sentAt value))) m
  | EntryOther => m
  end.

Definition is_number_entry (e : string * FileEntry) : bool :=
  match snd e with EntryNumber _ => true | _ => false end.

(** [initialize].  [nowMigrate] is the clock reading of the array migration,
    [nowCleanup] the one of the cleanup that ends a successful load.  A
    missing file is [dataFile = None]. *)
Definition initialize (nowMigrate nowCleanup : Z) (w : World)
  : Result unit * World :=
  match dataFile w with
  | None => (Ok tt, emit (Log LNoPreviousData) (with_seenOffers [] w))
  | Some FileUnreadable => (Throw OtherError, w)
  | Some (FileArray parsed) =>
      let w1 := emit (Log LMigratingArray) w in
      let expirationTime := nowMigrate + defaultMaxAge in
      let m :=
        fold_left
          (fun m offerId =>
             Map_set key_eqb offerId (mkSeen (TNum expirationTime) None None) m)
          parsed (seenOffers w1) in
      let w2 := save (with_seenOffers m w1) in
      let w3 := emit (Log (LLoaded (Map_size (seenOffers w2)))) w2 in
      (Ok tt, snd (cleanupExpiredOffers nowCleanup w3))
  | Some (FileObject parsed) =>
      let m := fold_left load_entry parsed (seenOffers w) in
      let w1 := with_seenOffers m w in
      let needsMigration := existsb is_number_entry parsed in
      let w2 :=
        if needsMigration then save (emit (Log LMigratingMessageIds) w1)
        else w1 in
      let w3 := emit (Log (LLoaded (Map_size (seenOffers w2)))) w2 in
      (Ok tt, snd (cleanupExpiredOffers nowCleanup w3))
  end.

Definition isNew (offerId : Key) (w : World) : bool :=
  negb (Map_has key_eqb offerId (seenOffers w)).

Definition getNewOffers (offers : list Offer) (w : World) : list Offer :=
  filter (fun offer => isNew (id offer) w) offers.

Definition clearAll (w : World) : World :=
  emit (Log LCleared)
    (save (with_seenOffers [] (emit (Log LClearing) w))).

(** [new Set(this.seenOffers.keys())]: the keys, each once. *)
Definition getTrackedOfferIds (w : World) : list Key :=
  Map_keys (seenOffers w).

Definition getMessageId (offerId : Key) (w : World) : option string :=
  match Map_get key_eqb offerId (seenOffers w) with
  | None => None
  | Some value => messageId value
  end.

Definition removeOffer (offerId : Key) (w : World) : World :=
  save (with_seenOffers (Map_delete key_eqb offerId (seenOffers w)) w).

(** ** robosatsClient.js *)

(** [response.data] of a coordinator's [/book/] endpoint: an array of
    listings, or anything else. *)
Inductive Body : Type :=
| BodyArray (data : list Offer)
| BodyOther.

(** The outcome of one [axios.get]: rejected (network error, timeout, HTTP
    error status) or resolved with a body. *)
Inductive Response : Type :=
| Rejected
| Resolved (data : Body).

Definition Network : Type := string -> Response.

Definition getOrderBookFromCoordinator (net : Network) (coordinator : string)
  : Result (list Offer) :=
  match net coordinator with
  | Rejected => Throw OtherError
  | Resolved (BodyArray data) => Ok data
  | Resolved BodyOther => Throw INVALID_RESPONSE
  end.

(** What one task of the [Promise.allSettled] resolves with. *)
Record TaskResult : Type := mkTask {
  t_coordinator : string;
  t_offers : option (list Offer);
  t_success : bool
}.

Definition fetch_task (net : Network) (coordinator : string) : TaskResult :=
  match getOrderBookFromCoordinator net coordinator with
  | Ok offers => mkTask coordinator (Some offers) true
  | Throw _ => mkTask coordinator None false
  end.

(** [{...offer, coordinator: coordinator}]. *)
Definition tag (coordinator : string) (offer : Offer) : Offer :=
  mkOffer (id offer) (expires_at offer) (currency offer) (currencyCode offer)
    (Some coordinator).

(** [Set.prototype.add] on a set of strings kept in insertion order. *)
Definition Set_add (x : string) (s : list string) : list string :=
  if existsb (String.eqb x) s then s else (s ++ [x])%list.

Record OrderBook : Type := mkOrderBook {
  offers : list Offer;
  reachableCoordinators : list string
}.

Definition collect (acc : OrderBook) (result : TaskResult) : OrderBook :=
  if negb (t_success result) then acc
  else
    match t_offers result with
    | None => acc
    | Some os =>
        mkOrderBook
          (offers acc ++ map (tag (t_coordinator result)) os)%list
          (Set_add (t_coordinator result) (reachableCoordinators acc))
    end.

Definition getOrderBook (net : Network) (coordinators : list string)
  : OrderBook :=
  fold_left collect (map (fetch_task net) coordinators) (mkOrderBook [] []).

(** [config.TARGET_CURRENCIES]: code and id of each target currency. *)
Definition Targets : Type := list (string * Z).

Definition set_currencyCode (targets : Targets) (offer : Offer) : Offer :=
  match find (fun c => snd c =? currency offer) targets with
  | Some c =>
      mkOffer (id offer) (expires_at offer) (currency offer) (Some (fst c))
        (coordinator offer)
  | None => offer
  end.

Definition filter_targets (targets : Targets) (orderBook : list Offer)
  : list Offer :=
  map (set_currencyCode targets)
    (filter (fun offer => existsb (Z.eqb (currency offer)) (map snd targets))
       orderBook).

Definition getOffers (targets : Targets) (net : Network)
    (coordinators : list string) : OrderBook :=
  let book := getOrderBook net coordinators in
  mkOrderBook (filter_targets targets (offers book))
    (reachableCoordinators book).

(** The earlier client: a coordinator that fails or answers with something
    that is not an array counts as an empty listing, and no set of reachable
    coordinators is kept. *)
Definition getOrderBookFromCoordinator_legacy (net : Network)
    (coordinator : string) : list Offer :=
  match net coordinator with
  | Resolved (BodyArray data) => data
  | _ => []
  end.

Definition getOrderBook_legacy (net : Network) (coordinators : list string)
  : list Offer :=
  fold_left
    (fun (allOffers : list Offer) coordinator =>
       (allOffers
        ++ map (tag coordinator)
             (getOrderBookFromCoordinator_legacy net coordinator))%list)
    coordinators [].

Definition getOffers_legacy (targets : Targets) (net : Network)
    (coordinators : list string) : list Offer :=
  filter_targets targets (getOrderBook_legacy net coordinators).

(** ** The tracker's writes and the check cycle of index.js *)

Section Cycle.

(** [Date.parse]: the time value of a date string, [None] where the string
    is not a date (the time value is then [NaN]). *)
Variable Date_parse : string -> option Z.

(** The largest magnitude of a time value. *)
Definition maxTimeValue : Z := 8640000000000000.

(** [new Date(v).getTime()].  The constructor accepts every value: on a
    string that is not a date it builds an invalid [Date], whose time
    value is [NaN]; it does not throw. *)
Definition Date_getTime (v : ExpiresAt) : Result TimeVal :=
  match v with
  | ExpString s =>
      Ok (match Date_parse s with Some t => TNum t | None => TNaN end)
  | ExpNumber z => Ok (if Z.abs z <=? maxTimeValue then TNum z else TNaN)
  | ExpNull => Ok (TNum 0)
  | ExpUndefined => Ok TNaN
  end.

(** [if (offer.expires_at)]. *)
Definition truthy (v : ExpiresAt) : bool :=
  match v with
  | ExpString s => negb (String.eqb s "")
  | ExpNumber z => negb (z =? 0)
  | ExpNull => false
  | ExpUndefined => false
  end.

(** The [expiresAt] that [markAsSeen] computes, with its [try]/[catch]. *)
Definition resolve_expiresAt (now : Z) (offer : Offer) : TimeVal :=
  if truthy (expires_at offer)
  then
    match Date_getTime (expires_at offer) with
    | Ok t => t
    | Throw _ => TNum (now + defaultMaxAge)
    end
  else TNum (now + defaultMaxAge).

(** [markAsSeen(offer, messageId)]; [now] is the reading of [Date.now()]
    during the call. *)
Definition markAsSeen (now : Z) (offer : Offer) (mid : option string)
    (w : World) : World :=
  with_seenOffers
    (Map_set key_eqb (id offer)
       (mkSeen (resolve_expiresAt now offer) mid (Some now))
       (seenOffers w))
    w.

Definition addOffer (now : Z) (offer : Offer) (mid : option string)
    (w : World) : World :=
  save (markAsSeen now offer mid w).

(** [addOffers]: [markAsSeen(offer)] for each offer, the message id left at
    its default [null], then one [save]. *)
Definition addOffers (now : Z) (os : list Offer) (w : World) : World :=
  save (fold_left (fun w offer => markAsSeen now offer None w) os w).

(** *** index.js *)

(** What [await robosatsClient.getOffers()] gives the cycle: a rejection,
    an array of listings, or the object of the client that also reports
    the reachable coordinators. *)
Inductive FetchOutcome : Type :=
| FetchRejected
| FetchedArray (allOffers : list Offer)
| FetchedObject (book : OrderBook).

(** What the surroundings do while one cycle runs.  [sendResolves i] is
    the outcome of the cycle's [i]-th [sendNotification]: [None] when it
    rejects, the id of the sent message when it resolves. *)
Record CycleEnv : Type := mkEnv {
  configValid : bool;
  nowCleanup : Z;
  stopDuringCleanup : bool;
  fetched : FetchOutcome;
  stopDuringFetch : bool;
  sendResolves : nat -> option string;
  stopDuringSend : nat -> bool;
  nowAdd : Z
}.

(** [stopCheckInterval] with the interval armed. *)
Definition stopCheckInterval (w : World) : World :=
  if isCheckInProgress w
  then with_shouldAbortCheck true (emit (Log LIntervalStoppedAborting) w)
  else emit (Log LIntervalStopped) w.

Definition stop_during (stopped : bool) (w : World) : World :=
  if stopped then stopCheckInterval w else w.

Inductive LoopExit : Type :=
| LoopDone
| LoopReturned
| LoopThrew.

(** The [for (const offer of newOffers)] loop; [i] counts the sends.  The
    pause after a send is an await like the send itself, and a stop that
    arrives during either is [stopDuringSend env i]. *)
Fixpoint send_loop (env : CycleEnv) (i : nat) (newOffers : list Offer)
    (w : World) : LoopExit * World :=
  match newOffers with
  | [] => (LoopDone, w)
  | offer :: rest =>
      if shouldAbortCheck w
      then (LoopReturned, emit (Log LAbortedNotifications) w)
      else
        let w1 := emit (Invoke (SendNotification offer)) w in
        let w2 := stop_during (stopDuringSend env i) w1 in
        match sendResolves env i with
        | Some _ => send_loop env (S i) rest w2
        | None => (LoopThrew, w2)
        end
  end.

Definition checkForNewOffersInternal (env : CycleEnv) (w : World) : World :=
  if shouldAbortCheck w then emit (Log LAborted) w
  else if negb (configValid env) then emit (Log LConfigError) w
  else
    let w1 :=
      snd (cleanupExpiredOffers (nowCleanup env)
             (emit (Invoke CleanupExpiredOffers) w)) in
    let w2 := stop_during (stopDuringCleanup env) w1 in
    if shouldAbortCheck w2 then emit (Log LAborted) w2
    else
      let w3 := emit (Invoke GetOffers) (emit (Log LChecking) w2) in
      let w4 := stop_during (stopDuringFetch env) w3 in
      match fetched env with
      | FetchRejected => emit (Log LCycleError) w4
      | FetchedObject _ =>
          if shouldAbortCheck w4 then emit (Log LAborted) w4
          else emit (Log LCycleError) (emit (Invoke GetNewOffers) w4)
      | FetchedArray allOffers =>
          if shouldAbortCheck w4 then emit (Log LAborted) w4
          else
            let newOffers := getNewOffers allOffers w4 in
            let w5 := emit (Invoke GetNewOffers) w4 in
            if (0 <? List.length newOffers)%nat
            then
              let w6 := emit (Log (LFound (List.length newOffers))) w5 in
              match send_loop env 0 newOffers w6 with
              | (LoopDone, w7) =>
                  emit (Log (LSent (List.length newOffers)))
                    (addOffers (nowAdd env) newOffers
                       (emit (Invoke (AddOffers newOffers)) w7))
              | (LoopReturned, w7) => w7
              | (LoopThrew, w7) => emit (Log LCycleError) w7
              end
            else emit (Log LNoNewOffers) w5
      end.

Definition checkForNewOffers_enter (w : World) : World :=
  with_shouldAbortCheck false (with_isCheckInProgress true w).

Definition checkForNewOffers_finally (w : World) : World :=
  with_isCheckInProgress false w.

Definition checkForNewOffers (env : CycleEnv) (w : World) : World :=
  if isCheckInProgress w then emit (Log LSkippingCycle) w
  else
    checkForNewOffers_finally
      (checkForNewOffersInternal env (checkForNewOffers_enter w)).

(** *** The engine as the event loop runs it

    [checkForNewOffers] is an [async] function: between its entry and its
    [finally] block the event loop can run the interval's callback again
    or a configuration handler.  [inFlight] counts the activations of
    [checkForNewOffersInternal] that have not settled.  An activation in
    flight either runs its whole body in one action ([CycleRuns]) or gets
    as far as its next await ([CycleProgresses]): it may then have changed
    the store, the file, the abort flag and the trace, but not the guard,
    which only the entry and the [finally] block assign. *)
Record Engine : Type := mkEngine {
  world : World;
  inFlight : nat
}.

Inductive Action : Type :=
| TimerFires
| CycleRuns (env : CycleEnv)
| CycleProgresses (w' : World)
| CycleSettles
| IntervalStopped.

Inductive step : Engine -> Action -> Engine -> Prop :=
| step_dropped w n :
    isCheckInProgress w = true ->
    step (mkEngine w n) TimerFires
      (mkEngine (emit (Log LSkippingCycle) w) n)
| step_entered w n :
    isCheckInProgress w = false ->
    step (mkEngine w n) TimerFires
      (mkEngine (checkForNewOffers_enter w) (S n))
| step_runs env w n :
    (0 < n)%nat ->
    step (mkEngine w n) (CycleRuns env)
      (mkEngine (checkForNewOffersInternal env w) n)
| step_progresses w w' n :
    (0 < n)%nat ->
    isCheckInProgress w' = isCheckInProgress w ->
    step (mkEngine w n) (CycleProgresses w') (mkEngine w' n)
| step_settles w n :
    (0 < n)%nat ->
    step (mkEngine w n) CycleSettles
      (mkEngine (checkForNewOffers_finally w) (pred n))
| step_stopped w n :
    step (mkEngine w n) IntervalStopped (mkEngine (stopCheckInterval w) n).

Inductive reachable : Engine -> Prop :=
| reachable_start w :
    isCheckInProgress w = false -> reachable (mkEngine w 0)
| reachable_step e a e' : reachable e -> step e a e' -> reachable e'.

End Cycle.

(** ** Observations on a trace *)

Definition calls (tr : list Event) : list Call :=
  flat_map (fun e => match e with Invoke c => [c] | _ => [] end) tr.

Definition sends (tr : list Event) : list Offer :=
  flat_map
    (fun e => match e with Invoke (SendNotification o) => [o] | _ => [] end)
    tr.

Definition deletions (tr : list Event) : list string :=
  flat_map
    (fun e => match e with Invoke (DeleteMessage m) => [m] | _ => [] end)
    tr.

Definition writes (tr : list Event) : list FileData :=
  flat_map (fun e => match e with WriteFile d => [d] | _ => [] end) tr.

(** Position of the first call that satisfies [p]. *)
Fixpoint first_call (p : Call -> bool) (cs : list Call) : option nat :=
  match cs with
  | [] => None
  | c :: r =>
      if p c then Some 0%nat
      else match first_call p r with Some n => Some (S n) | None => None end
  end.

(** Both calls occur and the first [p] comes before the first [q]. *)
Definition runs_before (p q : Call -> bool) (cs : list Call) : bool :=
  match first_call p cs, first_call q cs with
  | Some i, Some j => (i <? j)%nat
  | _, _ => false
  end.

Definition is_GetOffers (c : Call) : bool :=
  match c with GetOffers => true | _ => false end.

Definition is_CleanupExpiredOffers (c : Call) : bool :=
  match c with CleanupExpiredOffers => true | _ => false end.

(** The entries of a store an expiry cleanup at [now] removes, and those it
    keeps. *)
Definition expired (now : Z) (e : Key * SeenValue) : bool :=
  le_now (expiresAt (snd e)) now.

Definition unexpired (now : Z) (e : Key * SeenValue) : bool :=
  negb (expired now e).

(** Keys are pairwise different: what a [Map] guarantees. *)
Definition Map_ok (m : Store) : Prop := NoDup (Map_keys m).

(** A clock on which the run of examples is read: it knows one date. *)
Definition demo_Date_parse (s : string) : option Z :=
  if String.eqb s "1970-01-01T00:00:00.050Z" then Some 50 else None.

(** ** Notions the statements use *)

(** The document that [save] writes for a store. *)
Definition file_of (m : Store) : FileData := JSON_stringify (object_of m).

Definition world_of (m : Store) : World := mkWorld m None false false [].

(** A store that tracks offer 5, expired at time 100, with a sent message. *)
Definition store_expired5 : Store :=
  [(KNum (Num 5), mkSeen (TNum 50) (Some "m5") (Some 10))].

(** A store that tracks offer 5, not expired at time 100, with a sent
    message. *)
Definition store_live5 : Store :=
  [(KNum (Num 5), mkSeen (TNum 500) (Some "m5") (Some 10))].

(** A store that tracks offer 7 with a record that has not expired at time
    100. *)
Definition store_live7 : Store :=
  [(KNum (Num 7), mkSeen (TNum 500) None (Some 10))].

(** Offer 1, with an expiry the demo clock reads as time 50. *)
Definition offer1 : Offer :=
  mkOffer (KNum (Num 1)) (ExpString "1970-01-01T00:00:00.050Z") 1 (Some "USD")
    (Some "alice").

(** Offer 7 as a coordinator lists it. *)
Definition offer7 : Offer :=
  mkOffer (KNum (Num 7)) (ExpString "1970-01-01T00:00:00.050Z") 1 None None.

(** An offer whose [expires_at] is not a date. *)
Definition offer_bad_date : Offer :=
  mkOffer (KNum (Num 9)) (ExpString "not-a-date") 1 (Some "USD") (Some "alice").




(** [e] has the key of an entry of [es] that the loop deletes. *)
Definition doomed (now : Z) (es : Store) (e : Key * SeenValue) : bool :=
  existsb (fun e' => key_eqb (fst e') (fst e) && expired now e') es.

(** [Number.MAX_SAFE_INTEGER]. *)
Definition MAX_SAFE_INTEGER : Z := 9007199254740991.

(** An offer id that is an integer, in the range where a JavaScript number
    holds every integer exactly. *)
Definition int_key (k : Key) : Prop :=
  exists z, k = KNum (Num z) /\ Z.abs z <= MAX_SAFE_INTEGER.

(** A record whose fields read back from JSON as they were written: [NaN]
    is written as [null], and [initialize] turns an empty message id or a
    zero [sentAt] into [null]. *)
Definition json_stable (v : SeenValue) : Prop :=
  expiresAt v <> TNaN /\ messageId v <> Some "" /\ sentAt v <> Some 0.

(** [save] in one process, then [initialize] in a new one. *)
Definition reload (nowMigrate nowCleanup : Z) (m : Store) : Result unit * World :=
  initialize nowMigrate nowCleanup (fresh (dataFile (save (world_of m)))).

Definition answers_with_listing (net : Network) (c : string) : Prop :=
  exists data, net c = Resolved (BodyArray data).

Definition emits (evs : list Event) (w : World) : World :=
  mkWorld (seenOffers w) (dataFile w) (isCheckInProgress w)
    (shouldAbortCheck w) (trace w ++ evs)%list.

(** Nothing stops the interval while the cycle runs, the notification
    settings are valid and every send resolves. *)
Definition undisturbed (env : CycleEnv) : Prop :=
  configValid env = true
  /\ stopDuringCleanup env = false
  /\ stopDuringFetch env = false
  /\ (forall i, stopDuringSend env i = false)
  /\ (forall i, sendResolves env i <> None).

(** A cycle with a quiet surrounding: valid settings, no stop, a clock that
    reads [now], sends that resolve with the message id [m1]. *)
Definition calm (now : Z) (f : FetchOutcome) : CycleEnv :=
  mkEnv true now false f false (fun _ => Some "m1") (fun _ => false) now.

(** The store once the records expired at [now] are gone. *)
Definition cleaned (now : Z) (m : Store) : Store := filter (unexpired now) m.

(** The listings whose id the store does not track. *)
Definition new_offers (allOffers : list Offer) (m : Store) : list Offer :=
  filter (fun offer => negb (Map_has key_eqb (id offer) m)) allOffers.

(** The effects of a cleanup at [now]. *)
Definition cleanup_events (now : Z) (m : Store) : list Event :=
  let removed := List.length (filter (expired now) m) in
  if (0 <? removed)%nat
  then [Log (LCleanedUp removed); WriteFile (file_of (cleaned now m))]
  else [].

Definition cleanup_file (now : Z) (m : Store) (d : option FileData)
  : option FileData :=
  if (0 <? List.length (filter (expired now) m))%nat
  then Some (file_of (cleaned now m)) else d.

(** Effects that are not a retraction leave [deletions] as it was. *)
Definition quiet (f : World -> World) : Prop :=
  forall w, deletions (trace (f w)) = deletions (trace w).

Definition keeps_guard (f : World -> World) : Prop :=
  forall w, isCheckInProgress (f w) = isCheckInProgress w.

(** The guard is set exactly while one activation is in flight. *)
Definition guard_matches (e : Engine) : Prop :=
  (isCheckInProgress (world e) = true /\ inFlight e = 1%nat)
  \/ (isCheckInProgress (world e) = false /\ inFlight e = 0%nat).

(** An engine with one cycle in flight, and the same engine after a timer
    tick. *)
Definition engine_running : Engine :=
  mkEngine (checkForNewOffers_enter (world_of store_live5)) 1.

Definition engine_ticked : Engine :=
  mkEngine (emit (Log LSkippingCycle) (world engine_running)) 1.

Section Recording.

Variable Date_parse : string -> option Z.

(** The record [addOffers] stores for an offer. *)
Definition record_of (now : Z) (offer : Offer) : SeenValue :=
  mkSeen (resolve_expiresAt Date_parse now offer) None (Some now).

Definition marked (now : Z) (os : list Offer) (m : Store) : Store :=
  fold_left (fun m offer => Map_set key_eqb (id offer) (record_of now offer) m)
    os m.

Definition send_events (os : list Offer) : list Event :=
  map (fun o => Invoke (SendNotification o)) os.

(** What a cycle that nothing disturbs leaves behind. *)
Definition cycle_result (env : CycleEnv) (allOffers : list Offer) (w : World)
  : World :=
  let c := cleaned (nowCleanup env) (seenOffers w) in
  let new := new_offers allOffers c in
  let head :=
    ([Invoke CleanupExpiredOffers]
     ++ cleanup_events (nowCleanup env) (seenOffers w)
     ++ [Log LChecking; Invoke GetOffers; Invoke GetNewOffers])%list in
  match new with
  | [] =>
      mkWorld c (cleanup_file (nowCleanup env) (seenOffers w) (dataFile w))
        (isCheckInProgress w) (shouldAbortCheck w)
        (trace w ++ head ++ [Log LNoNewOffers])%list
  | _ :: _ =>
      let final := marked (nowAdd env) new c in
      mkWorld final (Some (file_of final))
        (isCheckInProgress w) (shouldAbortCheck w)
        (trace w ++ head
         ++ [Log (LFound (List.length new))]
         ++ send_events new
         ++ [Invoke (AddOffers new); WriteFile (file_of final);
             Log (LSent (List.length new))])%list
  end.

End Recording.

(** ** Further parts of the program *)

(** *** The earlier offerTracker.js: a map from offer id to expiry *)

(** The value [JSON.stringify] writes for an expiry of the earlier tracker:
    the number, or [null] for [NaN]. *)
Definition JSON_of_expiry (expiresAt : JsNum) : FileEntry :=
  match expiresAt with
  | Num z => EntryNumber z
  | NaN => EntryOther
  end.

(** [save] of the earlier tracker: [obj[offerId] = expiresAt] for each entry,
    then the JSON text of that object. *)
Definition save_v1 (seenOffers_v1 : list (Key * JsNum)) : FileData :=
  FileObject
    (map (fun e => (fst e, JSON_of_expiry (snd e)))
       (fold_left
          (fun obj e => Map_set String.eqb (ToPropertyKey (fst e)) (snd e) obj)
          seenOffers_v1 [])).

(** What [initialize] stores for a value it reads from the file. *)
Definition loaded_value (value : FileEntry) : option SeenValue :=
  match value with
  | EntryNumber t => Some (mkSeen (TNum t) None None)
  | EntryObject r =>
      Some (mkSeen (field_value (f_expiresAt r))
              (string_or_null (f_messageId r))
              (number_or_null (f_sentAt r)))
  | EntryOther => None
  end.

(** A stored value after [save] and [initialize]: what [JSON.stringify]
    writes for it, read back. *)
Definition read_back (v : SeenValue) : SeenValue :=
  match loaded_value (JSON_of_value v) with
  | Some v' => v'
  | None => v
  end.

(** The records [initialize] sets for the entries of an object file, when
    the entries have pairwise different keys. *)
Definition loaded (es : list (Key * FileEntry)) : Store :=
  flat_map
    (fun e =>
       match loaded_value (snd e) with
       | Some v => [(fst e, v)]
       | None => []
       end)
    es.

(** A store that tracks offer 9 with the expiry [NaN]. *)
Definition store_nan9 : Store :=
  [(KNum (Num 9), mkSeen TNaN None (Some 10))].

(** A map of the earlier tracker: offer 3 already expired at time 100,
    offer 4 not yet, offer 6 with the expiry [NaN]. *)
Definition store_v1 : list (Key * JsNum) :=
  [(KNum (Num 3), Num 50); (KNum (Num 4), Num 500); (KNum (Num 6), NaN)].

(** *** robosatsClient.js: getInfo *)

(** [getInfo]: the answer of the first coordinator, in the configured
    order, whose [/info/] request resolves; [info c] is [None] when the
    request to [c] rejects.  It throws when every request rejected. *)
Fixpoint getInfo {Info : Type} (info : string -> option Info)
    (coordinators : list string) : Result Info :=
  match coordinators with
  | [] => Throw OtherError
  | coordinator :: rest =>
      match info coordinator with
      | Some data => Ok data
      | None => getInfo info rest
      end
  end.

(** *** config.js: parseCheckInterval *)

(** [parseInt(process.env.CHECK_INTERVAL_MINUTES)]: an unset variable is
    [undefined], which [parseInt] reads as the text [undefined]. *)
Definition parseInt_env (v : option string) : JsNum :=
  match v with
  | Some s => parseInt s
  | None => parseInt "undefined"
  end.

Definition parseCheckInterval (CHECK_INTERVAL_MINUTES : option string)
  : Result Z :=
  match parseInt_env CHECK_INTERVAL_MINUTES with
  | NaN => Throw OtherError
  | Num intervalMinutes =>
      if intervalMinutes <? 1 then Throw OtherError
      else Ok (intervalMinutes * 60 * 1000)
  end.

(** *** The cycle up to its first notification *)

(** The world in which the send loop of a cycle starts, when the cycle got
    past its checks and found a new offer. *)
Definition before_sends (env : CycleEnv) (allOffers : list Offer) (w : World)
  : World :=
  let c := cleaned (nowCleanup env) (seenOffers w) in
  mkWorld c (cleanup_file (nowCleanup env) (seenOffers w) (dataFile w))
    (isCheckInProgress w) (shouldAbortCheck w)
    (trace w
     ++ [Invoke CleanupExpiredOffers]
     ++ cleanup_events (nowCleanup env) (seenOffers w)
     ++ [Log LChecking; Invoke GetOffers; Invoke GetNewOffers;
         Log (LFound (List.length (new_offers allOffers c)))])%list.

(** The rest of the cycle, from the outcome of the send loop. *)
Definition after_sends (Date_parse : string -> option Z) (env : CycleEnv)
    (newOffers : list Offer) (r : LoopExit * World) : World :=
  match r with
  | (LoopDone, w7) =>
      emit (Log (LSent (List.length newOffers)))
        (addOffers Date_parse (nowAdd env) newOffers
           (emit (Invoke (AddOffers newOffers)) w7))
  | (LoopReturned, w7) => w7
  | (LoopThrew, w7) => emit (Log LCycleError) w7
  end.

(** A surrounding in which the cycle reaches its send loop without being
    stopped. *)
Definition reaches_sends (env : CycleEnv) (allOffers : list Offer) : Prop :=
  configValid env = true
  /\ stopDuringCleanup env = false
  /\ stopDuringFetch env = false
  /\ fetched env = FetchedArray allOffers.

(** Offer 8, and a surrounding in which the listing holds offers 7 and 8,
    the first send resolves and the second rejects. *)
Definition offer8 : Offer :=
  mkOffer (KNum (Num 8)) ExpUndefined 1 None None.

Definition second_send_fails : CycleEnv :=
  mkEnv true 100 false (FetchedArray [offer7; offer8]) false
    (fun i => if Nat.eqb i 1 then None else Some "m1") (fun _ => false) 100.

(** The same listing, with every send resolving and the interval stopped
    during the first send. *)
Definition stopped_in_first_send : CycleEnv :=
  mkEnv true 100 false (FetchedArray [offer7; offer8]) false
    (fun _ => Some "m1") (fun i => Nat.eqb i 0) 100.

(** *** index.js: the interval timer *)

(** The module variables [checkInterval] and [nextCheckTime], and the
    timers of the runtime: [armed] lists the handles of the intervals that
    are set and not cleared, [nextHandle] is the handle the next
    [setInterval] returns.  The log lines of the two functions are left
    out. *)
Record Timers : Type := mkTimers {
  checkInterval : option nat;
  nextCheckTime : option Z;
  armed : list nat;
  nextHandle : nat
}.

Definition setInterval (t : Timers) : nat * Timers :=
  (nextHandle t,
   mkTimers (checkInterval t) (nextCheckTime t)
     (armed t ++ [nextHandle t])%list (S (nextHandle t))).

Definition clearInterval (h : nat) (t : Timers) : Timers :=
  mkTimers (checkInterval t) (nextCheckTime t)
    (remove Nat.eq_dec h (armed t)) (nextHandle t).

(** [startCheckInterval]; [now] is the reading of [Date.now()]. *)
Definition startCheckInterval (now CHECK_INTERVAL_MS : Z) (t : Timers)
  : Timers :=
  let t1 :=
    match checkInterval t with
    | Some h => clearInterval h t
    | None => t
    end in
  let t2 :=
    mkTimers (checkInterval t1) (Some (now + CHECK_INTERVAL_MS)) (armed t1)
      (nextHandle t1) in
  let (h, t3) := setInterval t2 in
  mkTimers (Some h) (nextCheckTime t3) (armed t3) (nextHandle t3).

(** The timer side of [stopCheckInterval]: nothing happens when no
    interval is held. *)
Definition stopCheckInterval_timers (t : Timers) : Timers :=
  match checkInterval t with
  | Some h =>
      let t1 := clearInterval h t in
      mkTimers None None (armed t1) (nextHandle t1)
  | None => t
  end.

(** The first statement of the interval's callback. *)
Definition interval_callback (now CHECK_INTERVAL_MS : Z) (t : Timers)
  : Timers :=
  mkTimers (checkInterval t) (Some (now + CHECK_INTERVAL_MS)) (armed t)
    (nextHandle t).

(** The timer states the program can be in: [startCheckInterval] and
    [stopCheckInterval] run in any order and any number of times (from
    [start] and from the [configChanged] handlers, whose awaits let them
    interleave), and an armed interval fires. *)
Inductive timers_reachable : Timers -> Prop :=
| timers_initial : timers_reachable (mkTimers None None [] 0)
| timers_started now ms t :
    timers_reachable t -> timers_reachable (startCheckInterval now ms t)
| timers_stopped t :
    timers_reachable t -> timers_reachable (stopCheckInterval_timers t)
| timers_fired now ms h t :
    timers_reachable t -> In h (armed t) ->
    timers_reachable (interval_callback now ms t).

(** *** robosatsClientMock.js *)

(** The three offers [getOrderBook] of the mock client pushes for the
    target currency at position [idx], each with its [status] (1, public).
    [expiration n] is the text the [n]-th call of [getRandomExpiration]
    returns. *)
Definition mock_offers (expiration : nat -> string) (idx : nat)
    (currency : string * Z) : list (Z * Offer) :=
  [(1, mkOffer (KNum (Num (1001 + Z.of_nat idx * 3)))
         (ExpString (expiration (3 * idx)%nat)) (snd currency) None None);
   (1, mkOffer (KNum (Num (1002 + Z.of_nat idx * 3)))
         (ExpString (expiration (3 * idx + 1)%nat)) (snd currency) None None);
   (1, mkOffer (KNum (Num (1003 + Z.of_nat idx * 3)))
         (ExpString (expiration (3 * idx + 2)%nat)) (snd currency) None None)].

(** [config.TARGET_CURRENCIES.forEach((currency, idx) => ...)]. *)
Fixpoint mock_getOrderBook_from (expiration : nat -> string) (idx : nat)
    (targets : Targets) : list (Z * Offer) :=
  match targets with
  | [] => []
  | currency :: rest =>
      (mock_offers expiration idx currency
       ++ mock_getOrderBook_from expiration (S idx) rest)%list
  end.

Definition mock_getOrderBook (expiration : nat -> string) (targets : Targets)
  : list (Z * Offer) :=
  mock_getOrderBook_from expiration 0 targets.

(** [getOffers] of the mock client: public offers in a target currency,
    with the currency code and the coordinator [mock]. *)
Definition mock_getOffers (expiration : nat -> string) (targets : Targets)
  : list Offer :=
  map
    (fun so =>
       let offer := set_currencyCode targets (snd so) in
       mkOffer (id offer) (expires_at offer) (currency offer)
         (currencyCode offer) (Some "mock"))
    (filter
       (fun so =>
          (fst so =? 1)
          && existsb (Z.eqb (currency (snd so))) (map snd targets))
       (mock_getOrderBook expiration targets)).

(** *** Notification settings: config.js and whatsappClient.js *)

(** The settings that choose where a notification goes.  [config.X] is
    assigned from [process.env.X] on load and on every reload, so one
    record stands for both. *)
Record NotificationEnv : Type := mkNotificationEnv {
  NOTIFICATION_TYPE : option string;
  CONTACT_COUNTRY_CODE : option string;
  CONTACT_PHONE_NUMBER : option string;
  WHATSAPP_GROUP_NAME : option string
}.

(** Truthiness of a setting: set and not the empty string. *)
Definition is_set (v : option string) : bool :=
  match v with
  | Some s => negb (String.eqb s "")
  | None => false
  end.

(** [v || d]. *)
Definition or_default (v : option string) (d : string) : string :=
  match v with
  | Some s => if String.eqb s "" then d else s
  | None => d
  end.

Definition validateNotificationConfig (env : NotificationEnv) : Result unit :=
  let notificationType := or_default (NOTIFICATION_TYPE env) "group" in
  if String.eqb notificationType "contact"
  then
    if negb (is_set (CONTACT_COUNTRY_CODE env))
       || negb (is_set (CONTACT_PHONE_NUMBER env))
    then Throw OtherError
    else Ok tt
  else
    if negb (is_set (WHATSAPP_GROUP_NAME env)) then Throw OtherError
    else Ok tt.

(** Where [sendNotification] hands the message. *)
Inductive Route : Type :=
| ToContact (countryCode phoneNumber : option string)
| ToGroup (groupName : option string).

Definition sendNotification_route (env : NotificationEnv) : Result Route :=
  let notificationType := or_default (NOTIFICATION_TYPE env) "group" in
  if String.eqb notificationType "contact"
  then
    let countryCode := CONTACT_COUNTRY_CODE env in
    let phoneNumber := CONTACT_PHONE_NUMBER env in
    if negb (is_set countryCode) || negb (is_set phoneNumber)
    then Throw OtherError
    else Ok (ToContact countryCode phoneNumber)
  else Ok (ToGroup (WHATSAPP_GROUP_NAME env)).

(** [s.replace(c, '')] with a one-character pattern: the first occurrence
    is removed. *)
Fixpoint replace_first (c : ascii) (s : string) : string :=
  match s with
  | EmptyString => EmptyString
  | String a r => if Ascii.eqb a c then r else String a (replace_first c r)
  end.

Definition is_digit (c : ascii) : bool :=
  let n := nat_of_ascii c in
  ((48 <=? n) && (n <=? 57))%nat.

(** [s.replace(/\D/g, '')]. *)
Fixpoint remove_non_digits (s : string) : string :=
  match s with
  | EmptyString => EmptyString
  | String a r =>
      if is_digit a then String a (remove_non_digits r)
      else remove_non_digits r
  end.

(** The chat id [sendToContact] sends to. *)
Definition chatId (countryCode phoneNumber : string) : string :=
  (replace_first "+" countryCode ++ remove_non_digits phoneNumber
   ++ "@c.us")%string.

(** The phone number check of the [/api/test-message] route. *)
Definition test_message_phone_ok (phoneNumber : string) : bool :=
  let cleanPhone := remove_non_digits phoneNumber in
  negb ((String.length cleanPhone <? 6)%nat
        || (15 <? String.length cleanPhone)%nat).

Fixpoint all_digits (s : string) : bool :=
  match s with
  | EmptyString => true
  | String a r => is_digit a && all_digits r
  end.

(** *** messageFormatter.js: the time left *)




(** *** config.js: parseTargetCurrencies *)

(** [s.split(sep)] with a one-character separator: the pieces between the
    separators, the empty ones included. *)
Fixpoint split_on (sep : ascii) (s : string) : list string :=
  match s with
  | EmptyString => [EmptyString]
  | String c r =>
      if Ascii.eqb c sep then EmptyString :: split_on sep r
      else
        match split_on sep r with
        | piece :: pieces => String c piece :: pieces
        | [] => [String c EmptyString]
        end
  end.

(** The three errors [parseTargetCurrencies] can throw. *)
Inductive CurrencyError : Type :=
| TARGET_CURRENCIES_required
| Unknown_currency_code (currencyCode : string)
| At_least_one_currency.

Section TargetCurrencies.

(** [String.prototype.trim] and [toUpperCase], and the table
    [CURRENCY_MAP] as a lookup. *)
Variables trim toUpperCase : string -> string.
Variable CURRENCY_MAP : string -> option Z.

(** The callback of the [map]: the target for one piece of the list, or
    the error for a code the table does not hold (or holds with the id
    0). *)
Definition target_of (code : string) : CurrencyError + (string * Z) :=
  let currencyCode := toUpperCase (trim code) in
  match CURRENCY_MAP currencyCode with
  | Some currencyId =>
      if currencyId =? 0 then inl (Unknown_currency_code currencyCode)
      else inr (currencyCode, currencyId)
  | None => inl (Unknown_currency_code currencyCode)
  end.

(** [pieces.map(callback)], which ends at the first piece on which the
    callback throws. *)
Fixpoint map_targets (pieces : list string) : CurrencyError + Targets :=
  match pieces with
  | [] => inr []
  | code :: rest =>
      match target_of code with
      | inl e => inl e
      | inr currency =>
          match map_targets rest with
          | inl e => inl e
          | inr currencies => inr (currency :: currencies)
          end
      end
  end.

Definition parseTargetCurrencies (TARGET_CURRENCIES ROBOSATS_USE_MOCK
                                    : option string)
  : CurrencyError + Targets :=
  match TARGET_CURRENCIES with
  | Some currenciesStr =>
      if String.eqb currenciesStr ""
      then
        match ROBOSATS_USE_MOCK with
        | Some m =>
            if String.eqb m "true" then inr [("USD"%string, 1)]
            else inl TARGET_CURRENCIES_required
        | None => inl TARGET_CURRENCIES_required
        end
      else
        match map_targets (split_on "," currenciesStr) with
        | inl e => inl e
        | inr currencies =>
            if (List.length currencies =? 0)%nat
            then inl At_least_one_currency
            else inr currencies
        end
  | None =>
      match ROBOSATS_USE_MOCK with
      | Some m =>
          if String.eqb m "true" then inr [("USD"%string, 1)]
          else inl TARGET_CURRENCIES_required
      | None => inl TARGET_CURRENCIES_required
      end
  end.

End TargetCurrencies.

(** ** Lemmas on keys and maps *)

Lemma key_eqb_refl (k : Key) : key_eqb k k = true.
Proof. unfold key_eqb. destruct (Key_eq_dec k k); congruence. Qed.

Lemma key_eqb_eq (a b : Key) : key_eqb a b = true <-> a = b.
Proof.
  unfold key_eqb. destruct (Key_eq_dec a b); split; congruence.
Qed.

Lemma key_eqb_neq (a b : Key) : key_eqb a b = false <-> a <> b.
Proof.
  unfold key_eqb. destruct (Key_eq_dec a b); split; congruence.
Qed.

Lemma Map_get_In (k : Key) (v : SeenValue) (m : Store) :
  Map_get key_eqb k m = Some v -> In (k, v) m.
Proof.
  induction m as [|[k' v'] r IH]; simpl; [discriminate|].
  destruct (key_eqb k k') eqn:E.
  - apply key_eqb_eq in E. intros [= ->]. subst. now left.
  - intros H. right. now apply IH.
Qed.

Lemma In_Map_get (k : Key) (v : SeenValue) (m : Store) :
  Map_ok m -> In (k, v) m -> Map_get key_eqb k m = Some v.
Proof.
  unfold Map_ok, Map_keys.
  induction m as [|[k' v'] r IH]; simpl; [tauto|].
  intros Hnd [H|H].
  - inversion H; subst. now rewrite key_eqb_refl.
  - inversion Hnd as [|? ? Hnotin Hnd']; subst.
    destruct (key_eqb k k') eqn:E.
    + apply key_eqb_eq in E; subst. exfalso. apply Hnotin.
      change k' with (fst (k', v)). now apply in_map.
    + now apply IH.
Qed.

Lemma Map_get_None (k : Key) (m : Store) :
  Map_get key_eqb k m = None <-> ~ In k (Map_keys m).
Proof.
  unfold Map_keys.
  induction m as [|[k' v'] r IH]; simpl; [tauto|].
  destruct (key_eqb k k') eqn:E.
  - apply key_eqb_eq in E; subst. split; [discriminate|]. intros H. tauto.
  - apply key_eqb_neq in E. rewrite IH. split.
    + intros H [H1|H1]; [congruence|tauto].
    + tauto.
Qed.

Lemma Map_get_set (k k' : Key) (v : SeenValue) (m : Store) :
  Map_get key_eqb k' (Map_set key_eqb k v m)
  = if key_eqb k' k then Some v else Map_get key_eqb k' m.
Proof.
  induction m as [|[k0 v0] r IH]; simpl.
  - reflexivity.
  - destruct (key_eqb k k0) eqn:E; simpl.
    + apply key_eqb_eq in E; subst. destruct (key_eqb k' k0); reflexivity.
    + rewrite IH. destruct (key_eqb k' k0) eqn:E1; [|reflexivity].
      apply key_eqb_eq in E1; subst.
      destruct (key_eqb k0 k) eqn:E2; [|reflexivity].
      apply key_eqb_eq in E2; subst. now rewrite key_eqb_refl in E.
Qed.

Lemma Map_has_set (k k' : Key) (v : SeenValue) (m : Store) :
  Map_has key_eqb k' (Map_set key_eqb k v m)
  = (key_eqb k' k || Map_has key_eqb k' m)%bool.
Proof.
  unfold Map_has. rewrite Map_get_set. now destruct (key_eqb k' k).
Qed.

Lemma Map_keys_set (k : Key) (v : SeenValue) (m : Store) :
  Map_keys (Map_set key_eqb k v m)
  = if Map_has key_eqb k m then Map_keys m else (Map_keys m ++ [k])%list.
Proof.
  unfold Map_has, Map_keys.
  induction m as [|[k0 v0] r IH]; simpl; [reflexivity|].
  destruct (key_eqb k k0) eqn:E; simpl.
  - apply key_eqb_eq in E; now subst.
  - rewrite IH. now destruct (Map_get key_eqb k r).
Qed.

Lemma Map_ok_set (k : Key) (v : SeenValue) (m : Store) :
  Map_ok m -> Map_ok (Map_set key_eqb k v m).
Proof.
  unfold Map_ok. intros H. rewrite Map_keys_set.
  destruct (Map_has key_eqb k m) eqn:E; [assumption|].
  unfold Map_has in E. destruct (Map_get key_eqb k m) eqn:G; [discriminate|].
  apply Map_get_None in G.
  apply NoDup_rev in H. rewrite <- (rev_involutive (_ ++ _)).
  apply NoDup_rev. rewrite rev_app_distr. simpl. constructor; [|assumption].
  now rewrite <- in_rev.
Qed.

Lemma Map_ok_filter (p : Key * SeenValue -> bool) (m : Store) :
  Map_ok m -> Map_ok (filter p m).
Proof.
  unfold Map_ok, Map_keys.
  induction m as [|[k v] r IH]; simpl; [trivial|].
  intros H. inversion H as [|? ? Hnotin Hnd]; subst.
  destruct (p (k, v)); simpl; [|now apply IH].
  constructor; [|now apply IH].
  intros Hin. apply Hnotin. apply in_map_iff in Hin.
  destruct Hin as [e [He Hin]]. apply filter_In in Hin.
  apply in_map_iff. exists e. tauto.
Qed.

Lemma Map_get_filter (p : Key * SeenValue -> bool) (k : Key) (m : Store) :
  Map_ok m ->
  Map_get key_eqb k (filter p m)
  = match Map_get key_eqb k m with
    | Some v => if p (k, v) then Some v else None
    | None => None
    end.
Proof.
  unfold Map_ok, Map_keys.
  induction m as [|[k0 v0] r IH]; simpl; [reflexivity|].
  intros H. inversion H as [|? ? Hnotin Hnd]; subst.
  destruct (key_eqb k k0) eqn:E.
  - apply key_eqb_eq in E; subst.
    destruct (p (k0, v0)); simpl.
    + now rewrite key_eqb_refl.
    + rewrite (IH Hnd).
      destruct (Map_get key_eqb k0 r) eqn:G; [|reflexivity].
      exfalso. apply Hnotin. apply Map_get_In in G.
      change k0 with (fst (k0, s)). now apply in_map.
  - destruct (p (k0, v0)); simpl; [rewrite E|]; now apply IH.
Qed.

(** ** The cleanup loop *)

Lemma cleanup_loop_fst (now : Z) (es m : Store) (c : nat) :
  fst (cleanup_loop now es (m, c))
  = filter (fun e => negb (doomed now es e)) m.
Proof.
  revert m c. induction es as [|[k v] rest IH]; intros m c; simpl.
  - induction m as [|e r IHm]; simpl; [reflexivity|]. now rewrite <- IHm.
  - change (le_now (expiresAt v) now) with (expired now (k, v)).
    destruct (expired now (k, v)) eqn:E.
    + rewrite IH. unfold Map_delete. simpl.
      induction m as [|e r IHm]; simpl; [reflexivity|].
      destruct (key_eqb k (fst e)); simpl; rewrite IHm; reflexivity.
    + rewrite IH. apply filter_ext. intros e. simpl.
      now rewrite andb_false_r.
Qed.

Lemma cleanup_loop_snd (now : Z) (es m : Store) (c : nat) :
  snd (cleanup_loop now es (m, c))
  = (c + List.length (filter (expired now) es))%nat.
Proof.
  revert m c. induction es as [|[k v] rest IH]; intros m c; simpl.
  - lia.
  - change (le_now (expiresAt v) now) with (expired now (k, v)).
    destruct (expired now (k, v)); simpl.
    + rewrite IH. simpl. lia.
    + apply IH.
Qed.

Lemma doomed_self (now : Z) (m : Store) (e : Key * SeenValue) :
  Map_ok m -> In e m -> doomed now m e = expired now e.
Proof.
  intros Hok Hin. unfold doomed.
  destruct (expired now e) eqn:E.
  - apply existsb_exists. exists e. now rewrite key_eqb_refl, E.
  - apply not_true_is_false. intros H. apply existsb_exists in H.
    destruct H as [e' [Hin' H]]. apply andb_prop in H. destruct H as [Hk He].
    apply key_eqb_eq in Hk. destruct e as [k v], e' as [k' v']. simpl in Hk.
    subst k'. pose proof (In_Map_get _ _ _ Hok Hin) as G1.
    pose proof (In_Map_get _ _ _ Hok Hin') as G2.
    rewrite G1 in G2. inversion G2; subst. congruence.
Qed.

Lemma cleanup_loop_filter (now : Z) (m : Store) :
  Map_ok m ->
  cleanup_loop now m (m, 0%nat)
  = (filter (unexpired now) m, List.length (filter (expired now) m)).
Proof.
  intros Hok.
  rewrite (surjective_pairing (cleanup_loop now m (m, 0%nat))).
  rewrite cleanup_loop_fst, cleanup_loop_snd. f_equal.
  apply filter_ext_in. intros e Hin. unfold unexpired.
  now rewrite doomed_self.
Qed.

Lemma filter_length_partition {A} (p : A -> bool) (l : list A) :
  (List.length (filter p l) + List.length (filter (fun x => negb (p x)) l)
   = List.length l)%nat.
Proof.
  induction l as [|a r IH]; simpl; [reflexivity|].
  destruct (p a); simpl; lia.
Qed.

(** ** cleanupExpiredOffers *)

(** C9, as stated, fails: the method resolves with no value; the count of
    removed records is only logged.  Here one record is removed and the call
    does not return 1. *)
Lemma cleanupExpiredOffers_returns_no_count :
  seenOffers (snd (cleanupExpiredOffers 100 (world_of store_expired5))) = []
  /\ fst (cleanupExpiredOffers 100 (world_of store_expired5)) <> RetNumber 1.
Proof. split; [reflexivity|discriminate]. Qed.

(** C9, amended: [cleanupExpiredOffers], run when the clock reads [now],
    removes from the store exactly the records whose [expiresAt <= now] and
    keeps the others as they are; it counts the removed records, logs that
    count when it is positive and returns nothing; it saves the store if and
    only if at least one record was removed. *)
Theorem cleanupExpiredOffers_removes_expired (now : Z) (w : World) :
  Map_ok (seenOffers w) ->
  let w' := snd (cleanupExpiredOffers now w) in
  let removed := List.length (filter (expired now) (seenOffers w)) in
  fst (cleanupExpiredOffers now w) = RetUndefined
  /\ seenOffers w' = filter (unexpired now) (seenOffers w)
  /\ (List.length (seenOffers w') + removed
      = List.length (seenOffers w))%nat
  /\ (forall k,
        Map_get key_eqb k (seenOffers w')
        = match Map_get key_eqb k (seenOffers w) with
          | Some v => if le_now (expiresAt v) now then None else Some v
          | None => None
          end)
  /\ trace w'
     = (trace w
        ++ (if (0 <? removed)%nat
            then [Log (LCleanedUp removed); WriteFile (file_of (seenOffers w'))]
            else []))%list
  /\ dataFile w'
     = (if (0 <? removed)%nat then Some (file_of (seenOffers w'))
        else dataFile w).
Proof.
  intros Hok w' removed. subst w'.
  unfold cleanupExpiredOffers. rewrite (cleanup_loop_filter now _ Hok).
  fold removed.
  assert (Hlen : (List.length (filter (unexpired now) (seenOffers w)) + removed
                  = List.length (seenOffers w))%nat).
  { subst removed. rewrite Nat.add_comm. apply filter_length_partition. }
  assert (Hget : forall k,
             Map_get key_eqb k (filter (unexpired now) (seenOffers w))
             = match Map_get key_eqb k (seenOffers w) with
               | Some v => if le_now (expiresAt v) now then None else Some v
               | None => None
               end).
  { intros k. rewrite (Map_get_filter _ _ _ Hok).
    destruct (Map_get key_eqb k (seenOffers w)) as [v|]; [|reflexivity].
    unfold unexpired, expired. simpl. now destruct (le_now (expiresAt v) now). }
  destruct (0 <? removed)%nat; simpl;
    repeat split; try assumption; try reflexivity.
  - now rewrite <- app_assoc.
  - now rewrite app_nil_r.
Qed.

Lemma cleanupExpiredOffers_removes_expired_witness :
  Map_ok store_expired5
  /\ seenOffers (snd (cleanupExpiredOffers 100 (world_of store_expired5))) = [].
Proof.
  assert (H : Map_ok store_expired5) by (repeat constructor; simpl; tauto).
  split; [exact H|].
  apply (cleanupExpiredOffers_removes_expired 100 (world_of store_expired5) H).
Defined.

(** ** parseInt reads back what Number.prototype.toString prints *)

Lemma read_digits_step (c : ascii) (k : Z) (r : string) (acc : option Z) :
  digit_of c = Some k -> (k <? 10) = true ->
  read_digits 10 (String c r) acc
  = read_digits 10 r (Some (match acc with Some a => a * 10 + k | None => k end)).
Proof. intros H1 H2. simpl. now rewrite H1, H2. Qed.

Ltac digit_step :=
  cbn [NilEmpty.string_of_uint];
  erewrite read_digits_step by (vm_compute; reflexivity).

Lemma read_digits_acc (d : uint) (p : positive) :
  read_digits 10 (NilEmpty.string_of_uint d) (Some (Z.pos p))
  = Some (Z.pos (Pos.of_uint_acc d p)).
Proof.
  revert p. induction d; intros p; [reflexivity|..];
    digit_step; cbn [Pos.of_uint_acc];
    match goal with
    | |- read_digits _ _ (Some ?a) = Some (Z.pos (Pos.of_uint_acc _ ?q)) =>
        replace a with (Z.pos q) by lia
    end; apply IHd.
Qed.

Lemma read_digits_zero (d : uint) :
  read_digits 10 (NilEmpty.string_of_uint d) (Some 0)
  = Some (Z.of_N (Pos.of_uint d)).
Proof.
  induction d; [reflexivity|..]; digit_step;
    try (exact IHd);
    cbn [Pos.of_uint Z.of_N]; simpl (0 * 10 + _); apply read_digits_acc.
Qed.

Lemma read_digits_uint (d : uint) :
  d <> Nil ->
  read_digits 10 (NilEmpty.string_of_uint d) None
  = Some (Z.of_N (Pos.of_uint d)).
Proof.
  destruct d; [congruence|..]; intros _; digit_step;
    cbn [Pos.of_uint Z.of_N];
    first [apply read_digits_zero | apply read_digits_acc].
Qed.

(** Decimal digits start with no blank, no sign and no [0x]. *)
Lemma skip_whitespace_uint (d : uint) :
  skip_whitespace (NilEmpty.string_of_uint d) = NilEmpty.string_of_uint d.
Proof. destruct d; reflexivity. Qed.

Lemma strip_sign_uint (d : uint) :
  strip_sign (NilEmpty.string_of_uint d) = (1, NilEmpty.string_of_uint d).
Proof. destruct d; reflexivity. Qed.

Lemma strip_radix_uint (d : uint) :
  strip_radix (NilEmpty.string_of_uint d) = (10, NilEmpty.string_of_uint d).
Proof. destruct d; try reflexivity. destruct d; reflexivity. Qed.

Lemma parseInt_uint (d : uint) :
  d <> Nil ->
  parseInt (NilEmpty.string_of_uint d) = Num (Z.of_N (Pos.of_uint d)).
Proof.
  intros Hd. unfold parseInt.
  rewrite skip_whitespace_uint, strip_sign_uint, strip_radix_uint.
  rewrite (read_digits_uint d Hd). f_equal; lia.
Qed.

Lemma parseInt_neg_uint (d : uint) :
  d <> Nil ->
  parseInt (String "-" (NilEmpty.string_of_uint d))
  = Num (- Z.of_N (Pos.of_uint d)).
Proof.
  intros Hd. unfold parseInt.
  change (skip_whitespace (String "-" (NilEmpty.string_of_uint d)))
    with (String "-" (NilEmpty.string_of_uint d)).
  cbn [strip_sign]. rewrite strip_radix_uint.
  rewrite (read_digits_uint d Hd). f_equal; lia.
Qed.

(** [parseInt(String(z)) = z] for every integer [z]. *)
Lemma parseInt_Number_toString (z : Z) :
  parseInt (Number_toString (Num z)) = Num z.
Proof.
  destruct z as [|p|p]; cbn [Number_toString Z.to_int NilEmpty.string_of_int].
  - reflexivity.
  - rewrite parseInt_uint by apply Unsigned.to_uint_nonnil.
    now rewrite Unsigned.of_to.
  - rewrite parseInt_neg_uint by apply Unsigned.to_uint_nonnil.
    now rewrite Unsigned.of_to.
Qed.

Lemma Number_toString_inj (a b : Z) :
  Number_toString (Num a) = Number_toString (Num b) -> a = b.
Proof.
  intros H. apply (f_equal parseInt) in H.
  rewrite !parseInt_Number_toString in H. congruence.
Qed.

(** ** save followed by a fresh initialize *)

Section MapFresh.
Context {K V : Type} (eqb : K -> K -> bool).
Hypothesis eqb_eq : forall a b, eqb a b = true <-> a = b.

(** [set] on a key the map does not hold appends the entry. *)
Lemma Map_set_fresh (k : K) (v : V) (m : list (K * V)) :
  ~ In k (map fst m) -> Map_set eqb k v m = (m ++ [(k, v)])%list.
Proof.
  induction m as [|[k' v'] r IH]; simpl; [reflexivity|].
  intros H. destruct (eqb k k') eqn:E.
  - apply eqb_eq in E. subst. tauto.
  - rewrite IH; tauto.
Qed.

(** Setting entries with pairwise different fresh keys, one after the
    other, appends them in order. *)
Lemma fold_set_fresh {A : Type} (key : A -> K) (val : A -> V) (l : list A)
    (acc : list (K * V)) :
  NoDup (map fst acc ++ map key l) ->
  fold_left (fun m a => Map_set eqb (key a) (val a) m) l acc
  = (acc ++ map (fun a => (key a, val a)) l)%list.
Proof.
  revert acc. induction l as [|a r IH]; intros acc H; simpl.
  - now rewrite app_nil_r.
  - simpl in H. pose proof (NoDup_remove_2 _ _ _ H) as Hnotin.
    rewrite Map_set_fresh by (intros Hin; apply Hnotin, in_or_app; tauto).
    rewrite IH.
    + now rewrite <- app_assoc.
    + rewrite map_app. simpl. rewrite <- app_assoc. simpl.
      apply NoDup_remove_1 in H as H1.
      clear IH. revert H Hnotin H1.
      generalize (map fst acc) (map key r) (key a). clear.
      intros l1 l2 x H Hnotin H1.
      induction l1 as [|y l1 IHl]; simpl in *.
      * assumption.
      * inversion H as [|? ? Hy Hr]; subst.
        inversion H1 as [|? ? Hy1 Hr1]; subst.
        constructor.
        -- intros Hin. apply Hy. apply in_app_or in Hin.
           apply in_or_app. simpl in *. tauto.
        -- apply IHl; try assumption.
           intros Hin. apply Hnotin. now right.
Qed.
End MapFresh.

Lemma ToPropertyKey_int_inj (m : Store) :
  Forall (fun e => int_key (fst e)) m -> Map_ok m ->
  NoDup (map (fun e : Key * SeenValue => ToPropertyKey (fst e)) m).
Proof.
  unfold Map_ok, Map_keys.
  induction m as [|[k v] r IH]; simpl; intros Hint Hok; [constructor|].
  inversion Hint as [|? ? [z [Hz _]] Hint']; subst.
  inversion Hok as [|? ? Hnotin Hok']; subst. simpl in *. subst k.
  constructor; [|now apply IH].
  intros Hin. apply in_map_iff in Hin. destruct Hin as [[k' v'] [Hk Hin]].
  simpl in Hk. rewrite Forall_forall in Hint'.
  destruct (Hint' _ Hin) as [z' [Hz' _]]. simpl in Hz'. subst k'.
  apply Number_toString_inj in Hk. subst z'.
  apply Hnotin. change (KNum (Num z)) with (fst (KNum (Num z), v')).
  now apply in_map.
Qed.

Lemma object_of_int_keys (m : Store) :
  Forall (fun e => int_key (fst e)) m -> Map_ok m ->
  object_of m = map (fun e => (ToPropertyKey (fst e), snd e)) m.
Proof.
  intros Hint Hok. unfold object_of.
  rewrite (fold_set_fresh String.eqb String.eqb_eq
             (fun e : Key * SeenValue => ToPropertyKey (fst e))
             (fun e => snd e)).
  - reflexivity.
  - simpl. now apply ToPropertyKey_int_inj.
Qed.

Lemma load_entry_written (k : Key) (v : SeenValue) (acc : Store) :
  int_key k -> json_stable v ->
  load_entry acc (ToPropertyKey k, JSON_of_value v) = Map_set key_eqb k v acc.
Proof.
  intros [z [-> _]] (He & Hm & Hs). unfold load_entry. simpl fst. simpl snd.
  cbn [JSON_of_value ToPropertyKey].
  change (NilEmpty.string_of_int (Z.to_int z)) with (Number_toString (Num z)).
  rewrite parseInt_Number_toString.
  f_equal. destruct v as [e mid s]. simpl in *. f_equal.
  - destruct e; simpl; congruence.
  - destruct mid as [x|]; simpl; [|reflexivity].
    destruct (String.eqb x "") eqn:E; [|reflexivity].
    apply String.eqb_eq in E. congruence.
  - destruct s as [x|]; simpl; [|reflexivity].
    destruct (x =? 0) eqn:E; [|reflexivity].
    apply Z.eqb_eq in E. congruence.
Qed.

Lemma fold_load_written (m acc : Store) :
  Forall (fun e => int_key (fst e)) m ->
  Forall (fun e => json_stable (snd e)) m ->
  NoDup (Map_keys acc ++ Map_keys m) ->
  fold_left load_entry
    (map (fun e => (ToPropertyKey (fst e), JSON_of_value (snd e))) m) acc
  = (acc ++ m)%list.
Proof.
  unfold Map_keys. intros Hint Hst Hnd.
  transitivity
    (fold_left (fun a e => Map_set key_eqb (fst e) (snd e) a) m acc).
  - clear Hnd. revert acc.
    induction m as [|[k v] r IH]; intros acc; simpl; [reflexivity|].
    inversion Hint; inversion Hst; subst.
    rewrite load_entry_written by assumption. now apply IH.
  - rewrite (fold_set_fresh key_eqb key_eqb_eq fst snd) by assumption.
    f_equal. rewrite <- (map_id m) at 2. apply map_ext. now intros [k v].
Qed.

Lemma cleanupExpiredOffers_seenOffers (now : Z) (w : World) :
  seenOffers (snd (cleanupExpiredOffers now w))
  = fst (cleanup_loop now (seenOffers w) (seenOffers w, 0%nat)).
Proof.
  unfold cleanupExpiredOffers.
  destruct (cleanup_loop now (seenOffers w) (seenOffers w, 0%nat)) as [m c].
  now destruct (0 <? c)%nat.
Qed.

Lemma cleanupExpiredOffers_keys (now : Z) (w : World) (k : Key) :
  In k (Map_keys (seenOffers (snd (cleanupExpiredOffers now w)))) ->
  In k (Map_keys (seenOffers w)).
Proof.
  rewrite cleanupExpiredOffers_seenOffers, cleanup_loop_fst.
  unfold Map_keys. intros H. apply in_map_iff in H.
  destruct H as [e [He H]]. apply filter_In in H.
  apply in_map_iff. exists e. tauto.
Qed.

Lemma filter_all {A} (p : A -> bool) (l : list A) :
  Forall (fun x => p x = true) l -> filter p l = l.
Proof.
  induction 1 as [|x r Hx _ IH]; simpl; [reflexivity|].
  now rewrite Hx, IH.
Qed.

Lemma load_entry_keys (parsed : list (string * FileEntry)) (acc : Store) :
  (forall k, In k (Map_keys acc) -> exists n, k = KNum n) ->
  forall k, In k (Map_keys (fold_left load_entry parsed acc)) ->
            exists n, k = KNum n.
Proof.
  revert acc. induction parsed as [|e r IH]; intros acc Hacc; simpl.
  - assumption.
  - apply IH. intros k Hk. unfold load_entry in Hk.
    destruct (snd e); try (now apply Hacc);
      rewrite Map_keys_set in Hk;
      match type of Hk with
      | In _ (if ?b then _ else _) => destruct b
      end;
      try (now apply Hacc);
      apply in_app_or in Hk; destruct Hk as [Hk|[Hk|[]]];
      try (now apply Hacc); subst k; eauto.
Qed.

Lemma save_dataFile (w : World) :
  dataFile (save w) = Some (file_of (seenOffers w)).
Proof. reflexivity. Qed.

(** C10, as stated, fails: [initialize] ends with [cleanupExpiredOffers], so
    a record that has expired when the file is read back is not restored.
    Offer 5 is tracked, its id an integer, and is gone after the reload. *)
Lemma reload_drops_expired :
  Forall (fun e => int_key (fst e)) store_expired5
  /\ getTrackedOfferIds (world_of store_expired5) = [KNum (Num 5)]
  /\ getTrackedOfferIds (snd (reload 100 100 store_expired5))
     <> getTrackedOfferIds (world_of store_expired5).
Proof.
  split; [|split].
  - repeat constructor. exists 5. split; [reflexivity|discriminate].
  - reflexivity.
  - discriminate.
Qed.

(** C10, amended: for every store whose tracked ids are safe integers, whose
    records have not expired at the time of the reload and hold fields that
    JSON keeps (an [expiresAt] that is not [NaN], a message id that is not
    the empty string, a [sentAt] that is not 0), [save] followed by a fresh
    [initialize] succeeds and restores the same tracked ids with the same
    [expiresAt], [messageId] and [sentAt]; and whatever the store was, no
    string id is tracked after the reload, since every reloaded key is the
    number [parseInt] returns. *)
Theorem save_initialize_roundtrip (nowMigrate now : Z) (m : Store) :
  Map_ok m ->
  Forall (fun e => int_key (fst e)) m ->
  Forall (fun e => json_stable (snd e)) m ->
  Forall (fun e => unexpired now e = true) m ->
  fst (reload nowMigrate now m) = Ok tt
  /\ (forall k,
        Map_get key_eqb k (seenOffers (snd (reload nowMigrate now m)))
        = Map_get key_eqb k m)
  /\ (forall k,
        In k (getTrackedOfferIds (snd (reload nowMigrate now m)))
        <-> In k (Map_keys m))
  /\ (forall m' s,
        ~ In (KStr s)
            (getTrackedOfferIds (snd (reload nowMigrate now m')))).
Proof.
  intros Hok Hint Hst Hlive.
  assert (Hstore : seenOffers (snd (reload nowMigrate now m)) = m).
  { unfold reload. rewrite save_dataFile.
    change (seenOffers (world_of m)) with m.
    unfold file_of, JSON_stringify.
    rewrite (object_of_int_keys m Hint Hok), map_map. cbn [fst snd].
    unfold initialize. cbn [dataFile fresh seenOffers].
    rewrite (fold_load_written m []) by (assumption || exact Hok).
    rewrite app_nil_l.
    replace (existsb is_number_entry _) with false.
    2:{ symmetry. apply not_true_is_false. intros H.
        apply existsb_exists in H. destruct H as [e [Hin He]].
        apply in_map_iff in Hin. destruct Hin as [e' [<- _]]. discriminate. }
    cbn [snd].
    rewrite cleanupExpiredOffers_seenOffers.
    cbn [seenOffers emit with_seenOffers].
    rewrite (cleanup_loop_filter now m Hok). cbn [fst].
    now apply filter_all. }
  split; [|split; [|split]].
  - unfold reload. rewrite save_dataFile. reflexivity.
  - intros k. now rewrite Hstore.
  - intros k. unfold getTrackedOfferIds. now rewrite Hstore.
  - intros m' s Hin. unfold getTrackedOfferIds, reload in Hin.
    rewrite save_dataFile in Hin. unfold initialize in Hin.
    cbn [dataFile fresh file_of JSON_stringify] in Hin.
    apply cleanupExpiredOffers_keys in Hin.
    match type of Hin with
    | In _ (Map_keys (seenOffers (emit _ ?w))) =>
        change (seenOffers (emit (Log (LLoaded (Map_size (seenOffers w)))) w))
          with (seenOffers w) in Hin
    end.
    match type of Hin with
    | In _ (Map_keys (seenOffers (if ?b then _ else _))) => destruct b
    end;
      cbn [seenOffers save emit with_seenOffers with_dataFile fresh] in Hin;
      apply load_entry_keys in Hin; try (intros ? []);
      destruct Hin as [n Hn]; discriminate.
Qed.

Lemma save_initialize_roundtrip_witness :
  (Map_ok store_live7
   /\ Forall (fun e => int_key (fst e)) store_live7
   /\ Forall (fun e => json_stable (snd e)) store_live7
   /\ Forall (fun e => unexpired 100 e = true) store_live7)
  /\ fst (reload 0 100 store_live7) = Ok tt.
Proof.
  assert (H1 : Map_ok store_live7) by (repeat constructor; simpl; tauto).
  assert (H2 : Forall (fun e => int_key (fst e)) store_live7)
    by (repeat constructor; exists 7; split; [reflexivity|discriminate]).
  assert (H3 : Forall (fun e => json_stable (snd e)) store_live7)
    by (repeat constructor; simpl; discriminate).
  assert (H4 : Forall (fun e => unexpired 100 e = true) store_live7)
    by (repeat constructor).
  split; [tauto|].
  apply (save_initialize_roundtrip 0 100 store_live7 H1 H2 H3 H4).
Defined.

(** ** Reachable coordinators *)

Lemma Set_add_In (x c : string) (s : list string) :
  In c (Set_add x s) <-> c = x \/ In c s.
Proof.
  unfold Set_add. destruct (existsb (String.eqb x) s) eqn:E.
  - apply existsb_exists in E. destruct E as [y [Hy E]].
    apply String.eqb_eq in E. subst y. split; [tauto|].
    intros [->|H]; assumption.
  - rewrite in_app_iff. simpl. split; intros H; intuition congruence.
Qed.

Lemma collect_reachable (net : Network) (cs : list string) (acc : OrderBook)
    (c : string) :
  In c (reachableCoordinators
          (fold_left collect (map (fetch_task net) cs) acc))
  <-> In c (reachableCoordinators acc)
      \/ (In c cs /\ answers_with_listing net c).
Proof.
  revert acc. induction cs as [|x r IH]; intros acc; simpl.
  - unfold answers_with_listing. tauto.
  - rewrite IH. unfold collect, fetch_task, getOrderBookFromCoordinator.
    unfold answers_with_listing.
    destruct (net x) as [|[data|]] eqn:E; simpl.
    + split; [tauto|]. intros [H|[[->|H] [d Hd]]]; [tauto|congruence|].
      right. split; [assumption|now exists d].
    + rewrite Set_add_In. split.
      * intros [[->|H]|[H [d Hd]]]; [right|tauto|right].
        -- split; [now left|now exists data].
        -- split; [now right|now exists d].
      * intros [H|[[->|H] [d Hd]]]; [tauto|tauto|].
        right. split; [assumption|now exists d].
    + split; [tauto|]. intros [H|[[->|H] [d Hd]]]; [tauto|congruence|].
      right. split; [assumption|now exists d].
Qed.

(** C6: a coordinator is in the reachable set of a cycle exactly when it is
    polled and its answer is a listing array.  So a coordinator whose
    payload is not an array is not reachable, like one whose request fails,
    and a polled coordinator that answers with the empty array is
    reachable. *)
Theorem invalid_payload_is_unreachable (net : Network) (cs : list string)
    (c : string) :
  (In c (reachableCoordinators (getOrderBook net cs))
   <-> In c cs /\ answers_with_listing net c)
  /\ (net c = Resolved BodyOther ->
      ~ In c (reachableCoordinators (getOrderBook net cs)))
  /\ (In c cs -> net c = Resolved (BodyArray []) ->
      In c (reachableCoordinators (getOrderBook net cs))).
Proof.
  assert (H : In c (reachableCoordinators (getOrderBook net cs))
              <-> In c cs /\ answers_with_listing net c).
  { unfold getOrderBook. rewrite collect_reachable. simpl. tauto. }
  split; [exact H|split].
  - intros E Hin. apply H in Hin. destruct Hin as [_ [d Hd]]. congruence.
  - intros Hin E. apply H. split; [assumption|now exists []].
Qed.

(** The reachable set that [getOffers] hands to the cycle is that of
    [getOrderBook]. *)
Lemma getOffers_reachable (targets : Targets) (net : Network)
    (cs : list string) :
  reachableCoordinators (getOffers targets net cs)
  = reachableCoordinators (getOrderBook net cs).
Proof. reflexivity. Qed.

(** The earlier client cannot tell the two answers apart. *)
Lemma legacy_invalid_payload_is_empty_listing (net1 net2 : Network)
    (c : string) :
  net1 c = Resolved BodyOther -> net2 c = Resolved (BodyArray []) ->
  getOrderBook_legacy net1 [c] = getOrderBook_legacy net2 [c].
Proof.
  intros H1 H2. unfold getOrderBook_legacy, getOrderBookFromCoordinator_legacy.
  simpl. now rewrite H1, H2.
Qed.

(** ** The check cycle *)

Section CycleProofs.

Variable Date_parse : string -> option Z.

Lemma world_ext (a b : World) :
  seenOffers a = seenOffers b ->
  dataFile a = dataFile b ->
  isCheckInProgress a = isCheckInProgress b ->
  shouldAbortCheck a = shouldAbortCheck b ->
  trace a = trace b ->
  a = b.
Proof. destruct a, b. simpl. intros. now subst. Qed.

Lemma emits_emit (e : Event) (evs : list Event) (w : World) :
  emits evs (emit e w) = emits (e :: evs) w.
Proof. unfold emits, emit. simpl. now rewrite <- app_assoc. Qed.

Lemma send_loop_complete (env : CycleEnv) (os : list Offer) (i : nat)
    (w : World) :
  shouldAbortCheck w = false ->
  (forall j, stopDuringSend env j = false) ->
  (forall j, sendResolves env j <> None) ->
  send_loop env i os w = (LoopDone, emits (send_events os) w).
Proof.
  intros Hab Hstop Hsend. revert i w Hab.
  induction os as [|o r IH]; intros i w Hab; simpl.
  - unfold emits. simpl. rewrite app_nil_r. now destruct w.
  - rewrite Hab, Hstop. unfold stop_during.
    destruct (sendResolves env i) eqn:E; [|now apply Hsend in E].
    rewrite IH by assumption. now rewrite emits_emit.
Qed.

Lemma fold_markAsSeen (now : Z) (os : list Offer) (w : World) :
  fold_left (fun w offer => markAsSeen Date_parse now offer None w) os w
  = with_seenOffers (marked Date_parse now os (seenOffers w)) w.
Proof.
  revert w. induction os as [|o r IH]; intros w; simpl.
  - now destruct w.
  - rewrite IH. reflexivity.
Qed.

Lemma cleanupExpiredOffers_world (now : Z) (w : World) :
  Map_ok (seenOffers w) ->
  snd (cleanupExpiredOffers now w)
  = mkWorld (cleaned now (seenOffers w))
      (cleanup_file now (seenOffers w) (dataFile w))
      (isCheckInProgress w) (shouldAbortCheck w)
      (trace w ++ cleanup_events now (seenOffers w))%list.
Proof.
  intros Hok. unfold cleanupExpiredOffers, cleanup_file, cleanup_events.
  rewrite (cleanup_loop_filter now _ Hok).
  destruct (0 <? List.length (filter (expired now) (seenOffers w)))%nat;
    simpl.
  - unfold save, emit, with_dataFile, with_seenOffers, file_of, cleaned.
    simpl. now rewrite <- app_assoc.
  - unfold with_seenOffers, cleaned. now rewrite app_nil_r.
Qed.

Lemma cycle_complete (env : CycleEnv) (allOffers : list Offer) (w : World) :
  shouldAbortCheck w = false ->
  Map_ok (seenOffers w) ->
  undisturbed env ->
  fetched env = FetchedArray allOffers ->
  checkForNewOffersInternal Date_parse env w
  = cycle_result Date_parse env allOffers w.
Proof.
  intros Hab Hok (Hcfg & Hs1 & Hs2 & Hs3 & Hsend) Hfetch.
  destruct w as [m d ip ab tr]. cbn [shouldAbortCheck seenOffers] in Hab, Hok.
  subst ab. unfold checkForNewOffersInternal, cycle_result.
  cbn [shouldAbortCheck emit seenOffers dataFile isCheckInProgress trace].
  rewrite Hcfg, Hs1, Hs2, Hfetch. cbn [negb stop_during].
  rewrite cleanupExpiredOffers_world by exact Hok.
  unfold getNewOffers, isNew.
  cbn [shouldAbortCheck emit seenOffers dataFile isCheckInProgress trace].
  fold (new_offers allOffers (cleaned (nowCleanup env) m)).
  destruct (new_offers allOffers (cleaned (nowCleanup env) m))
    as [|o new] eqn:Enew.
  - cbn [List.length Nat.ltb Nat.leb]. unfold emit.
    cbn [shouldAbortCheck seenOffers dataFile isCheckInProgress trace].
    f_equal. repeat rewrite <- app_assoc. reflexivity.
  - cbn [List.length Nat.ltb Nat.leb].
    rewrite send_loop_complete by (assumption || reflexivity).
    unfold addOffers. rewrite fold_markAsSeen.
    apply world_ext;
      cbn [save emit emits with_dataFile with_seenOffers file_of
           shouldAbortCheck seenOffers dataFile isCheckInProgress trace];
      try reflexivity.
    repeat rewrite <- app_assoc. reflexivity.
Qed.

End CycleProofs.

(** ** What a cycle does and does not do *)

Lemma calls_app (a b : list Event) : calls (a ++ b) = (calls a ++ calls b)%list.
Proof. apply flat_map_app. Qed.

Lemma sends_app (a b : list Event) : sends (a ++ b) = (sends a ++ sends b)%list.
Proof. apply flat_map_app. Qed.

Lemma deletions_app (a b : list Event) :
  deletions (a ++ b) = (deletions a ++ deletions b)%list.
Proof. apply flat_map_app. Qed.

Lemma writes_app (a b : list Event) :
  writes (a ++ b) = (writes a ++ writes b)%list.
Proof. apply flat_map_app. Qed.

Lemma calls_send_events (os : list Offer) :
  calls (send_events os) = map SendNotification os.
Proof. induction os; simpl; congruence. Qed.

Lemma sends_send_events (os : list Offer) : sends (send_events os) = os.
Proof. induction os; simpl; congruence. Qed.

Lemma deletions_send_events (os : list Offer) : deletions (send_events os) = [].
Proof. induction os; simpl; congruence. Qed.

Lemma writes_send_events (os : list Offer) : writes (send_events os) = [].
Proof. induction os; simpl; congruence. Qed.

Lemma calls_cleanup_events (now : Z) (m : Store) :
  calls (cleanup_events now m) = [].
Proof. unfold cleanup_events. now destruct (0 <? _)%nat. Qed.

Lemma sends_cleanup_events (now : Z) (m : Store) :
  sends (cleanup_events now m) = [].
Proof. unfold cleanup_events. now destruct (0 <? _)%nat. Qed.

Lemma deletions_cleanup_events (now : Z) (m : Store) :
  deletions (cleanup_events now m) = [].
Proof. unfold cleanup_events. now destruct (0 <? _)%nat. Qed.

Lemma quiet_emit (e : Event) :
  deletions [e] = [] -> quiet (emit e).
Proof.
  intros H w. unfold emit. simpl. rewrite deletions_app, H.
  apply app_nil_r.
Qed.

Lemma quiet_save : quiet save.
Proof.
  intros w. unfold save, emit. simpl. rewrite deletions_app. simpl.
  apply app_nil_r.
Qed.

Lemma quiet_cleanup (now : Z) :
  quiet (fun w => snd (cleanupExpiredOffers now w)).
Proof.
  intros w. unfold cleanupExpiredOffers.
  destruct (cleanup_loop now (seenOffers w) (seenOffers w, 0%nat)) as [m c].
  destruct (0 <? c)%nat; simpl; [|reflexivity].
  rewrite !deletions_app. simpl. now rewrite !app_nil_r.
Qed.

Lemma quiet_stop_during (b : bool) : quiet (stop_during b).
Proof.
  intros w. unfold stop_during, stopCheckInterval.
  destruct b; [|reflexivity].
  destruct (isCheckInProgress w); simpl; rewrite deletions_app; simpl;
    apply app_nil_r.
Qed.

Lemma quiet_send_loop (env : CycleEnv) (os : list Offer) (i : nat) :
  quiet (fun w => snd (send_loop env i os w)).
Proof.
  revert i. induction os as [|o r IH]; intros i w; simpl; [reflexivity|].
  destruct (shouldAbortCheck w); simpl.
  - rewrite deletions_app. simpl. apply app_nil_r.
  - destruct (sendResolves env i); simpl.
    + rewrite IH, quiet_stop_during. now apply quiet_emit.
    + rewrite quiet_stop_during. now apply quiet_emit.
Qed.

Lemma send_loop_seenOffers (env : CycleEnv) (os : list Offer) (i : nat)
    (w : World) :
  seenOffers (snd (send_loop env i os w)) = seenOffers w.
Proof.
  revert i w. induction os as [|o r IH]; intros i w; simpl; [reflexivity|].
  destruct (shouldAbortCheck w); simpl; [reflexivity|].
  assert (H : seenOffers
                (stop_during (stopDuringSend env i)
                   (emit (Invoke (SendNotification o)) w)) = seenOffers w).
  { unfold stop_during, stopCheckInterval.
    destruct (stopDuringSend env i); [|reflexivity].
    now destruct (isCheckInProgress _). }
  destruct (sendResolves env i); simpl; [rewrite IH|]; exact H.
Qed.

Lemma stop_during_seenOffers (b : bool) (w : World) :
  seenOffers (stop_during b w) = seenOffers w.
Proof.
  unfold stop_during, stopCheckInterval. destruct b; [|reflexivity].
  now destruct (isCheckInProgress w).
Qed.

Section CycleFacts.

Variable Date_parse : string -> option Z.

Lemma quiet_addOffers (now : Z) (os : list Offer) :
  quiet (addOffers Date_parse now os).
Proof.
  intros w. unfold addOffers. rewrite quiet_save, fold_markAsSeen.
  reflexivity.
Qed.

(** No run of the cycle, disturbed or not, asks the notifier to retract a
    message. *)
Lemma cycle_never_deletes (env : CycleEnv) :
  quiet (checkForNewOffersInternal Date_parse env).
Proof.
  intros w. unfold checkForNewOffersInternal.
  destruct (shouldAbortCheck w); [now apply quiet_emit|].
  destruct (negb (configValid env)); [now apply quiet_emit|].
  set (w1 := snd (cleanupExpiredOffers _ _)).
  assert (H1 : deletions (trace w1) = deletions (trace w)).
  { subst w1. rewrite quiet_cleanup. now apply quiet_emit. }
  set (w2 := stop_during _ w1).
  assert (H2 : deletions (trace w2) = deletions (trace w)).
  { subst w2. now rewrite quiet_stop_during. }
  destruct (shouldAbortCheck w2); [now rewrite quiet_emit|].
  set (w4 := stop_during _ _).
  assert (H4 : deletions (trace w4) = deletions (trace w)).
  { subst w4. rewrite quiet_stop_during.
    now rewrite !quiet_emit. }
  destruct (fetched env) as [|allOffers|book].
  - now rewrite quiet_emit.
  - destruct (shouldAbortCheck w4); [now rewrite quiet_emit|].
    destruct (0 <? _)%nat; [|now rewrite !quiet_emit].
    set (new := getNewOffers allOffers w4).
    pose proof (quiet_send_loop env new 0
                  (emit (Log (LFound (List.length new)))
                     (emit (Invoke GetNewOffers) w4))) as Hl.
    cbv beta in Hl.
    destruct (send_loop env 0 new _) as [[| |] w7]; cbn [snd] in Hl.
    + rewrite quiet_emit by reflexivity. rewrite quiet_addOffers.
      rewrite quiet_emit by reflexivity. rewrite Hl.
      now rewrite !quiet_emit.
    + rewrite Hl. now rewrite !quiet_emit.
    + rewrite quiet_emit by reflexivity. rewrite Hl.
      now rewrite !quiet_emit.
  - destruct (shouldAbortCheck w4); now rewrite !quiet_emit.
Qed.

Lemma addOffers_seenOffers (now : Z) (os : list Offer) (w : World) :
  seenOffers (addOffers Date_parse now os w)
  = marked Date_parse now os (seenOffers w).
Proof. unfold addOffers. now rewrite fold_markAsSeen. Qed.

(** When the cycle gets past its first two checks, its store is the cleaned
    store, with the new offers recorded if the cycle reached [addOffers]. *)
Lemma cycle_store (env : CycleEnv) (w : World) :
  shouldAbortCheck w = false ->
  configValid env = true ->
  Map_ok (seenOffers w) ->
  let c := cleaned (nowCleanup env) (seenOffers w) in
  let w' := checkForNewOffersInternal Date_parse env w in
  seenOffers w' = c
  \/ exists allOffers,
       fetched env = FetchedArray allOffers
       /\ seenOffers w'
          = marked Date_parse (nowAdd env) (new_offers allOffers c) c.
Proof.
  intros Hab Hcfg Hok c w'. subst w'. unfold checkForNewOffersInternal.
  rewrite Hab, Hcfg. cbn [negb].
  set (w1 := snd (cleanupExpiredOffers _ _)).
  assert (H1 : seenOffers w1 = c).
  { subst w1. now rewrite cleanupExpiredOffers_world by exact Hok. }
  set (w2 := stop_during _ w1).
  assert (H2 : seenOffers w2 = c).
  { subst w2. now rewrite stop_during_seenOffers. }
  destruct (shouldAbortCheck w2); [now left|].
  set (w4 := stop_during _ _).
  assert (H4 : seenOffers w4 = c).
  { subst w4. now rewrite stop_during_seenOffers. }
  destruct (fetched env) as [|allOffers|book].
  - now left.
  - destruct (shouldAbortCheck w4); [now left|].
    assert (Hnew : getNewOffers allOffers w4 = new_offers allOffers c).
    { unfold getNewOffers, new_offers, isNew. now rewrite H4. }
    rewrite Hnew.
    destruct (0 <? _)%nat; [|now left].
    pose proof (send_loop_seenOffers env (new_offers allOffers c) 0
                  (emit (Log (LFound (List.length (new_offers allOffers c))))
                     (emit (Invoke GetNewOffers) w4))) as Hl.
    destruct (send_loop env 0 _ _) as [[| |] w7]; simpl in Hl.
    + right. exists allOffers. split; [reflexivity|].
      cbn [seenOffers emit]. rewrite addOffers_seenOffers.
      cbn [seenOffers emit]. now rewrite Hl, H4.
    + left. now rewrite Hl.
    + left. cbn [seenOffers emit]. now rewrite Hl.
  - destruct (shouldAbortCheck w4); now left.
Qed.

Lemma marked_snoc (now : Z) (os : list Offer) (o : Offer) (m : Store) :
  marked Date_parse now (os ++ [o]) m
  = Map_set key_eqb (id o) (record_of Date_parse now o)
      (marked Date_parse now os m).
Proof. unfold marked. now rewrite fold_left_app. Qed.

Lemma Map_get_marked_other (now : Z) (os : list Offer) (m : Store) (k : Key) :
  (forall o, In o os -> id o <> k) ->
  Map_get key_eqb k (marked Date_parse now os m) = Map_get key_eqb k m.
Proof.
  induction os as [|o r IH] using rev_ind; intros H; [reflexivity|].
  rewrite marked_snoc, Map_get_set.
  destruct (key_eqb k (id o)) eqn:E.
  - apply key_eqb_eq in E. exfalso. apply (H o); [|congruence].
    apply in_or_app. right. now left.
  - apply IH. intros o' Hin. apply H. apply in_or_app. now left.
Qed.

Lemma Map_get_marked_in (now : Z) (os : list Offer) (m : Store) (o : Offer) :
  In o os ->
  exists o',
    In o' os /\ id o' = id o
    /\ Map_get key_eqb (id o) (marked Date_parse now os m)
       = Some (record_of Date_parse now o').
Proof.
  induction os as [|a r IH] using rev_ind; intros Hin; [destruct Hin|].
  rewrite marked_snoc, Map_get_set.
  destruct (key_eqb (id o) (id a)) eqn:E.
  - apply key_eqb_eq in E. exists a. split; [|split]; try congruence.
    apply in_or_app. right. now left.
  - apply in_app_or in Hin. destruct Hin as [Hin|[->|[]]].
    + destruct (IH Hin) as (o' & Hin' & Hid & Hget).
      exists o'. split; [|split]; try assumption.
      apply in_or_app. now left.
    + now rewrite key_eqb_refl in E.
Qed.

Lemma Map_has_marked (now : Z) (os : list Offer) (m : Store) (k : Key) :
  Map_has key_eqb k (marked Date_parse now os m)
  = (existsb (fun o => key_eqb k (id o)) os || Map_has key_eqb k m)%bool.
Proof.
  induction os as [|a r IH] using rev_ind; [reflexivity|].
  rewrite marked_snoc, Map_has_set, IH, existsb_app. simpl.
  destruct (key_eqb k (id a)), (existsb _ r), (Map_has key_eqb k m);
    reflexivity.
Qed.

Lemma Map_ok_marked (now : Z) (os : list Offer) (m : Store) :
  Map_ok m -> Map_ok (marked Date_parse now os m).
Proof.
  intros H. induction os as [|a r IH] using rev_ind; [assumption|].
  rewrite marked_snoc. now apply Map_ok_set.
Qed.

Lemma Map_get_cleaned (now : Z) (m : Store) (k : Key) :
  Map_ok m ->
  Map_get key_eqb k (cleaned now m)
  = match Map_get key_eqb k m with
    | Some v => if le_now (expiresAt v) now then None else Some v
    | None => None
    end.
Proof.
  intros Hok. unfold cleaned. rewrite (Map_get_filter _ _ _ Hok).
  destruct (Map_get key_eqb k m) as [v|]; [|reflexivity].
  unfold unexpired, expired. simpl. now destruct (le_now (expiresAt v) now).
Qed.

Lemma calm_undisturbed (now : Z) (f : FetchOutcome) : undisturbed (calm now f).
Proof. unfold undisturbed. simpl. repeat split; discriminate. Qed.

End CycleFacts.

Lemma cycle_result_seenOffers (Date_parse : string -> option Z)
    (env : CycleEnv) (allOffers : list Offer) (w : World) :
  seenOffers (cycle_result Date_parse env allOffers w)
  = marked Date_parse (nowAdd env)
      (new_offers allOffers (cleaned (nowCleanup env) (seenOffers w)))
      (cleaned (nowCleanup env) (seenOffers w)).
Proof.
  unfold cycle_result.
  now destruct (new_offers allOffers (cleaned (nowCleanup env) (seenOffers w))).
Qed.

(** C2: the code diverges from the rule.  The cycle has no step for the
    tracked offers that the listings no longer hold: it reads neither
    [getTrackedOfferIds] nor [getMessageId] and calls neither [removeOffer]
    nor the notifier's [deleteMessage].  So in every cycle that gets past
    its abort and settings checks, a tracked offer that is absent from the
    fetched listings keeps its record, and the message id in it, for as
    long as its own expiry has not passed; the record goes only when the
    cycle's cleanup finds [expiresAt <= now]. *)
Theorem absent_offer_kept_until_expiry (Date_parse : string -> option Z)
    (env : CycleEnv) (w : World) (k : Key) (v : SeenValue) :
  shouldAbortCheck w = false ->
  configValid env = true ->
  Map_ok (seenOffers w) ->
  Map_get key_eqb k (seenOffers w) = Some v ->
  (forall allOffers o,
      fetched env = FetchedArray allOffers -> In o allOffers -> id o <> k) ->
  let w' := checkForNewOffersInternal Date_parse env w in
  Map_get key_eqb k (seenOffers w')
  = (if le_now (expiresAt v) (nowCleanup env) then None else Some v)
  /\ (le_now (expiresAt v) (nowCleanup env) = false ->
      isNew k w' = false
      /\ In k (getTrackedOfferIds w')
      /\ getMessageId k w' = messageId v).
Proof.
  intros Hab Hcfg Hok Hget Habsent w'.
  assert (H : Map_get key_eqb k (seenOffers w')
              = if le_now (expiresAt v) (nowCleanup env) then None
                else Some v).
  { pose proof (Map_get_cleaned (nowCleanup env) _ k Hok) as Hc.
    rewrite Hget in Hc.
    destruct (cycle_store Date_parse env w Hab Hcfg Hok)
      as [H|(allOffers & Hf & H)]; subst w'; rewrite H.
    + exact Hc.
    + rewrite Map_get_marked_other; [exact Hc|].
      intros o Hin. apply (Habsent allOffers o Hf).
      unfold new_offers in Hin. now apply filter_In in Hin. }
  split; [exact H|].
  intros Hlive. rewrite Hlive in H.
  split; [|split].
  - unfold isNew, Map_has. now rewrite H.
  - unfold getTrackedOfferIds.
    destruct (in_dec Key_eq_dec k (Map_keys (seenOffers w'))) as [Hin|Hout];
      [assumption|].
    apply Map_get_None in Hout. congruence.
  - unfold getMessageId. now rewrite H.
Qed.

Lemma absent_offer_kept_until_expiry_witness :
  getMessageId (KNum (Num 5)) (world_of store_live5) = Some "m5"
  /\ isNew (KNum (Num 5))
       (checkForNewOffersInternal demo_Date_parse
          (calm 100 (FetchedArray [])) (world_of store_live5))
     = false
  /\ getMessageId (KNum (Num 5))
       (checkForNewOffersInternal demo_Date_parse
          (calm 100 (FetchedArray [])) (world_of store_live5))
     = Some "m5".
Proof.
  assert (H : Map_ok store_live5) by (repeat constructor; simpl; tauto).
  assert (Habsent : forall allOffers o,
             fetched (calm 100 (FetchedArray [])) = FetchedArray allOffers ->
             In o allOffers -> id o <> KNum (Num 5)).
  { intros allOffers o Hf Hin. simpl in Hf. injection Hf as <-.
    destruct Hin. }
  pose proof (absent_offer_kept_until_expiry demo_Date_parse
                (calm 100 (FetchedArray [])) (world_of store_live5)
                (KNum (Num 5)) (mkSeen (TNum 500) (Some "m5") (Some 10))
                eq_refl eq_refl H eq_refl Habsent) as T.
  cbv zeta in T. destruct T as [_ T].
  destruct (T eq_refl) as (T1 & _ & T3).
  split; [reflexivity|split; [exact T1|exact T3]].
Defined.

(** C1: the code diverges from the rule.  A cycle that nothing disturbs
    makes its calls in one fixed order, and the expiry cleanup is the
    first of them: [cleanupExpiredOffers], then [getOffers], then
    [getNewOffers], then one [sendNotification] per new offer, then, when
    there is a new offer, [addOffers], whose [save] is the last effect
    before the closing log line.  There is no step for inactive offers
    between them.  So a record that has expired is evicted before the
    listings are fetched: the message id it held is lost, and no call of
    the cycle retracts that message. *)
Theorem cycle_call_order (Date_parse : string -> option Z) (env : CycleEnv)
    (allOffers : list Offer) (w : World) :
  shouldAbortCheck w = false ->
  Map_ok (seenOffers w) ->
  undisturbed env ->
  fetched env = FetchedArray allOffers ->
  let w' := checkForNewOffersInternal Date_parse env w in
  let new := new_offers allOffers (cleaned (nowCleanup env) (seenOffers w)) in
  let made :=
    ([CleanupExpiredOffers; GetOffers; GetNewOffers]
     ++ map SendNotification new
     ++ match new with [] => [] | _ :: _ => [AddOffers new] end)%list in
  calls (trace w') = (calls (trace w) ++ made)%list
  /\ runs_before is_CleanupExpiredOffers is_GetOffers made = true
  /\ runs_before is_GetOffers is_CleanupExpiredOffers made = false
  /\ (forall k v m,
        Map_get key_eqb k (seenOffers w) = Some v ->
        messageId v = Some m ->
        le_now (expiresAt v) (nowCleanup env) = true ->
        getMessageId k w = Some m
        /\ Map_has key_eqb k (cleaned (nowCleanup env) (seenOffers w)) = false
        /\ getMessageId k w' = None
        /\ ~ In (DeleteMessage m) made)
  /\ (new <> [] ->
      dataFile w' = Some (file_of (seenOffers w'))
      /\ exists before,
           trace w'
           = (before
              ++ [WriteFile (file_of (seenOffers w'));
                  Log (LSent (List.length new))])%list).
Proof.
  intros Hab Hok Hund Hf w' new made.
  split; [|split; [reflexivity|split; [reflexivity|split]]].
  - subst w'. rewrite (cycle_complete Date_parse env allOffers w Hab Hok Hund Hf).
    unfold cycle_result. subst made. fold new.
    destruct new as [|o r]; cbn [trace].
    + repeat rewrite calls_app. rewrite calls_cleanup_events. simpl.
      reflexivity.
    + repeat rewrite calls_app. rewrite calls_cleanup_events.
      rewrite calls_send_events. simpl. reflexivity.
  - intros k v m Hget Hm Hexp.
    assert (Hc : Map_get key_eqb k (cleaned (nowCleanup env) (seenOffers w))
                 = None).
    { rewrite (Map_get_cleaned (nowCleanup env) _ k Hok), Hget.
      now rewrite Hexp. }
    split; [|split; [|split]].
    + unfold getMessageId. now rewrite Hget.
    + unfold Map_has. now rewrite Hc.
    + subst w'.
      rewrite (cycle_complete Date_parse env allOffers w Hab Hok Hund Hf).
      unfold getMessageId. rewrite cycle_result_seenOffers. fold new.
      destruct (existsb (fun o => key_eqb (id o) k) new) eqn:E.
      * apply existsb_exists in E. destruct E as [o [Hin Ho]].
        apply key_eqb_eq in Ho. subst k.
        destruct (Map_get_marked_in Date_parse (nowAdd env) new
                    (cleaned (nowCleanup env) (seenOffers w)) o Hin)
          as (o' & _ & _ & ->).
        reflexivity.
      * rewrite Map_get_marked_other; [now rewrite Hc|].
        intros o Hin Ho.
        assert (existsb (fun o => key_eqb (id o) k) new = true);
          [|congruence].
        apply existsb_exists. exists o. split; [assumption|].
        now apply key_eqb_eq.
    + subst made. intros [H|[H|[H|H]]]; try discriminate.
      rewrite app_nil_l in H.
      apply in_app_or in H. destruct H as [H|H].
      * apply in_map_iff in H. destruct H as [o [H _]]. discriminate.
      * destruct new; [destruct H|]. destruct H as [H|[]]. discriminate.
  - intros Hnew. subst w'.
    rewrite (cycle_complete Date_parse env allOffers w Hab Hok Hund Hf).
    unfold cycle_result. fold new. destruct new as [|o r]; [congruence|].
    cbn [trace dataFile seenOffers]. split; [reflexivity|].
    exists (trace w
            ++ ([Invoke CleanupExpiredOffers]
                ++ cleanup_events (nowCleanup env) (seenOffers w)
                ++ [Log LChecking; Invoke GetOffers; Invoke GetNewOffers])
            ++ [Log (LFound (List.length (o :: r)))]
            ++ send_events (o :: r)
            ++ [Invoke (AddOffers (o :: r))])%list.
    repeat rewrite <- app_assoc. reflexivity.
Qed.

Lemma cycle_call_order_witness :
  calls
    (trace
       (checkForNewOffersInternal demo_Date_parse
          (calm 100 (FetchedArray [])) (world_of store_expired5)))
  = [CleanupExpiredOffers; GetOffers; GetNewOffers]
  /\ getMessageId (KNum (Num 5)) (world_of store_expired5) = Some "m5"
  /\ getMessageId (KNum (Num 5))
       (checkForNewOffersInternal demo_Date_parse
          (calm 100 (FetchedArray [])) (world_of store_expired5))
     = None.
Proof.
  assert (H : Map_ok store_expired5) by (repeat constructor; simpl; tauto).
  pose proof (cycle_call_order demo_Date_parse (calm 100 (FetchedArray [])) []
                (world_of store_expired5) eq_refl H
                (calm_undisturbed 100 (FetchedArray [])) eq_refl) as T.
  cbv zeta in T. destruct T as (T1 & _ & _ & T4 & _).
  destruct (T4 (KNum (Num 5)) (mkSeen (TNum 50) (Some "m5") (Some 10)) "m5"
              eq_refl eq_refl eq_refl) as (T5 & _ & T6 & _).
  split; [exact T1|split; [exact T5|exact T6]].
Defined.

(** ** New offers: notifications and records *)

(** C7: the code diverges from the rule.  A cycle that nothing disturbs
    sends the new offers, one notification each, in the order of the
    listing, and then records them; but it drops the message each send
    resolves with and calls [addOffers], which leaves the message id of
    [markAsSeen] at its default.  So the record stored for a new offer
    holds the [expiresAt] resolved from a new offer with that id and, as
    [sentAt], the time at which [addOffers] ran, but a [null] message id,
    whatever the notifier returned; and the record has no field for the
    coordinator. *)
Theorem new_offer_sent_and_recorded (Date_parse : string -> option Z)
    (env : CycleEnv) (allOffers : list Offer) (w : World) (o : Offer) :
  shouldAbortCheck w = false ->
  Map_ok (seenOffers w) ->
  undisturbed env ->
  fetched env = FetchedArray allOffers ->
  let w' := checkForNewOffersInternal Date_parse env w in
  let new := new_offers allOffers (cleaned (nowCleanup env) (seenOffers w)) in
  In o new ->
  sends (trace w') = (sends (trace w) ++ new)%list
  /\ (exists o',
        In o' new /\ id o' = id o
        /\ Map_get key_eqb (id o) (seenOffers w')
           = Some (mkSeen (resolve_expiresAt Date_parse (nowAdd env) o') None
                     (Some (nowAdd env))))
  /\ getMessageId (id o) w' = None
  /\ (forall i, exists m,
        sendResolves env i = Some m /\ getMessageId (id o) w' <> Some m).
Proof.
  intros Hab Hok Hund Hf w' new Hin.
  assert (Hrec : exists o',
             In o' new /\ id o' = id o
             /\ Map_get key_eqb (id o) (seenOffers w')
                = Some (mkSeen (resolve_expiresAt Date_parse (nowAdd env) o')
                          None (Some (nowAdd env)))).
  { subst w'.
    rewrite (cycle_complete Date_parse env allOffers w Hab Hok Hund Hf).
    rewrite cycle_result_seenOffers. fold new.
    apply (Map_get_marked_in Date_parse (nowAdd env) new _ o Hin). }
  assert (Hid : getMessageId (id o) w' = None).
  { destruct Hrec as (o' & _ & _ & Hget). unfold getMessageId.
    now rewrite Hget. }
  split; [|split; [exact Hrec|split; [exact Hid|]]].
  - subst w'.
    rewrite (cycle_complete Date_parse env allOffers w Hab Hok Hund Hf).
    unfold cycle_result. fold new.
    destruct new as [|a r] eqn:E; [destruct Hin|].
    cbn [trace]. repeat rewrite sends_app. rewrite sends_cleanup_events.
    rewrite sends_send_events. simpl. now rewrite app_nil_r.
  - intros i. destruct Hund as (_ & _ & _ & _ & Hsend).
    destruct (sendResolves env i) as [m|] eqn:E; [|now apply Hsend in E].
    exists m. split; [reflexivity|]. rewrite Hid. discriminate.
Qed.

Lemma new_offer_sent_and_recorded_witness :
  sends
    (trace
       (checkForNewOffersInternal demo_Date_parse
          (calm 10 (FetchedArray [offer1])) (world_of [])))
  = [offer1]
  /\ sendResolves (calm 10 (FetchedArray [offer1])) 0 = Some "m1"
  /\ getMessageId (id offer1)
       (checkForNewOffersInternal demo_Date_parse
          (calm 10 (FetchedArray [offer1])) (world_of []))
     = None.
Proof.
  assert (H : Map_ok []) by constructor.
  assert (Hin : In offer1 (new_offers [offer1] (cleaned 10 [])))
    by (now left).
  pose proof (new_offer_sent_and_recorded demo_Date_parse
                (calm 10 (FetchedArray [offer1])) [offer1] (world_of [])
                offer1 eq_refl H (calm_undisturbed 10 (FetchedArray [offer1]))
                eq_refl Hin) as T.
  cbv zeta in T. destruct T as (T1 & _ & T3 & _).
  split; [exact T1|split; [reflexivity|exact T3]].
Defined.






(** ** Two cycles in a row *)

Lemma filter_none {A} (p : A -> bool) (l : list A) :
  (forall x, In x l -> p x = false) -> filter p l = [].
Proof.
  induction l as [|a r IH]; intros H; simpl; [reflexivity|].
  rewrite (H a) by now left. apply IH. intros x Hx. apply H. now right.
Qed.

Lemma cycle_result_shouldAbortCheck (Date_parse : string -> option Z)
    (env : CycleEnv) (allOffers : list Offer) (w : World) :
  shouldAbortCheck (cycle_result Date_parse env allOffers w)
  = shouldAbortCheck w.
Proof.
  unfold cycle_result.
  now destruct (new_offers allOffers (cleaned (nowCleanup env) (seenOffers w))).
Qed.

(** After a cycle that nothing disturbs, every listing it fetched is
    tracked. *)
Lemma listings_tracked_after_cycle (Date_parse : string -> option Z)
    (now : Z) (allOffers : list Offer) (c : Store) (o : Offer) :
  In o allOffers ->
  Map_has key_eqb (id o) (marked Date_parse now (new_offers allOffers c) c)
  = true.
Proof.
  intros Hin. rewrite Map_has_marked.
  destruct (Map_has key_eqb (id o) c) eqn:E; [apply orb_true_r|].
  apply orb_true_intro. left. apply existsb_exists. exists o.
  split; [|apply key_eqb_refl].
  unfold new_offers. apply filter_In. now rewrite E.
Qed.

(** C3, as stated, fails: a record whose [expiresAt] has passed is evicted
    by the cleanup that opens the next cycle, and an offer that is still
    listed is then new again.  Offer 1 expires at time 50 and both cycles
    run at time 100 on the same listing: the second cycle sends the
    notification again. *)
Lemma second_cycle_sends_again :
  let env := calm 100 (FetchedArray [offer1]) in
  let w1 := checkForNewOffersInternal demo_Date_parse env (world_of []) in
  let w2 := checkForNewOffersInternal demo_Date_parse env w1 in
  sends (trace w1) = [offer1]
  /\ sends (trace w2) = [offer1; offer1]
  /\ sends (trace w2) <> sends (trace w1).
Proof. repeat split. discriminate. Qed.

(** C3, amended: when a cycle that nothing disturbs is followed by a second
    one on the same listings, and no record of the store has expired at the
    time of the second cycle's cleanup, the second cycle is a no-op: it
    sends no notification, asks for no deletion, writes no file, and leaves
    the store and the data file as they were. *)
Theorem second_cycle_is_noop (Date_parse : string -> option Z)
    (env1 env2 : CycleEnv) (allOffers : list Offer) (w : World) :
  shouldAbortCheck w = false ->
  Map_ok (seenOffers w) ->
  undisturbed env1 ->
  undisturbed env2 ->
  fetched env1 = FetchedArray allOffers ->
  fetched env2 = FetchedArray allOffers ->
  let w1 := checkForNewOffersInternal Date_parse env1 w in
  let w2 := checkForNewOffersInternal Date_parse env2 w1 in
  Forall (fun e => unexpired (nowCleanup env2) e = true) (seenOffers w1) ->
  seenOffers w2 = seenOffers w1
  /\ dataFile w2 = dataFile w1
  /\ sends (trace w2) = sends (trace w1)
  /\ deletions (trace w2) = deletions (trace w1)
  /\ writes (trace w2) = writes (trace w1).
Proof.
  intros Hab Hok Hu1 Hu2 Hf1 Hf2 w1 w2 Hlive.
  assert (E1 : w1 = cycle_result Date_parse env1 allOffers w)
    by now apply cycle_complete.
  assert (Hab1 : shouldAbortCheck w1 = false)
    by now rewrite E1, cycle_result_shouldAbortCheck.
  assert (Hok1 : Map_ok (seenOffers w1)).
  { rewrite E1, cycle_result_seenOffers.
    apply Map_ok_marked. now apply Map_ok_filter. }
  assert (Hclean : cleaned (nowCleanup env2) (seenOffers w1) = seenOffers w1)
    by now apply filter_all.
  assert (Hexp : filter (expired (nowCleanup env2)) (seenOffers w1) = []).
  { apply filter_none. intros e He. rewrite Forall_forall in Hlive.
    specialize (Hlive e He). unfold unexpired in Hlive.
    now destruct (expired (nowCleanup env2) e). }
  assert (Hnew : new_offers allOffers (seenOffers w1) = []).
  { apply filter_none. intros o Ho.
    rewrite E1, cycle_result_seenOffers.
    now rewrite (listings_tracked_after_cycle Date_parse _ _ _ o Ho). }
  assert (E2 : w2 = cycle_result Date_parse env2 allOffers w1)
    by now apply cycle_complete.
  unfold cycle_result in E2. rewrite Hclean, Hnew in E2.
  unfold cleanup_file, cleanup_events in E2. rewrite Hexp in E2.
  cbn [List.length Nat.ltb Nat.leb app] in E2.
  rewrite E2. cbn [seenOffers dataFile trace].
  repeat split.
  - now rewrite sends_app, app_nil_r.
  - now rewrite deletions_app, app_nil_r.
  - now rewrite writes_app, app_nil_r.
Qed.

Lemma second_cycle_is_noop_witness :
  (shouldAbortCheck (world_of []) = false
   /\ Map_ok []
   /\ undisturbed (calm 10 (FetchedArray [offer1]))
   /\ Forall (fun e => unexpired 10 e = true)
        (seenOffers
           (checkForNewOffersInternal demo_Date_parse
              (calm 10 (FetchedArray [offer1])) (world_of []))))
  /\ sends
       (trace
          (checkForNewOffersInternal demo_Date_parse
             (calm 10 (FetchedArray [offer1]))
             (checkForNewOffersInternal demo_Date_parse
                (calm 10 (FetchedArray [offer1])) (world_of []))))
     = sends
         (trace
            (checkForNewOffersInternal demo_Date_parse
               (calm 10 (FetchedArray [offer1])) (world_of []))).
Proof.
  assert (H : Map_ok []) by constructor.
  assert (Hlive : Forall (fun e => unexpired 10 e = true)
                    (seenOffers
                       (checkForNewOffersInternal demo_Date_parse
                          (calm 10 (FetchedArray [offer1])) (world_of []))))
    by (repeat constructor).
  split; [repeat split; try exact H; try exact Hlive; discriminate|].
  apply (second_cycle_is_noop demo_Date_parse
           (calm 10 (FetchedArray [offer1])) (calm 10 (FetchedArray [offer1]))
           [offer1] (world_of []) eq_refl H
           (calm_undisturbed 10 (FetchedArray [offer1]))
           (calm_undisturbed 10 (FetchedArray [offer1]))
           eq_refl eq_refl Hlive).
Defined.

(** ** The expiry that markAsSeen stores *)

Lemma resolve_expiresAt_parseable (Date_parse : string -> option Z) (now : Z)
    (offer : Offer) (s : string) (t : Z) :
  expires_at offer = ExpString s -> s <> "" -> Date_parse s = Some t ->
  resolve_expiresAt Date_parse now offer = TNum t.
Proof.
  intros He Hs Hp. unfold resolve_expiresAt. rewrite He. simpl.
  destruct (String.eqb s "") eqn:E; [now apply String.eqb_eq in E|].
  simpl. now rewrite Hp.
Qed.

Lemma resolve_expiresAt_absent (Date_parse : string -> option Z) (now : Z)
    (offer : Offer) :
  truthy (expires_at offer) = false ->
  resolve_expiresAt Date_parse now offer = TNum (now + defaultMaxAge).
Proof. intros H. unfold resolve_expiresAt. now rewrite H. Qed.

(** C5: the rule holds where the field is absent or parses, and the code
    misses the case its own comment names ("If date parsing fails, use
    default"): [new Date(s)] does not throw on a string that is not a date,
    so the [catch] arm is never taken and the record's [expiresAt] is [NaN],
    not [now + 24h].  Such a record is never evicted by the cleanup. *)
Theorem unparseable_expiry_stores_NaN (Date_parse : string -> option Z)
    (now : Z) (offer : Offer) (mid : option string) (w : World) (s : string) :
  expires_at offer = ExpString s ->
  s <> "" ->
  Date_parse s = None ->
  Map_get key_eqb (id offer)
    (seenOffers (markAsSeen Date_parse now offer mid w))
  = Some (mkSeen TNaN mid (Some now))
  /\ TNaN <> TNum (now + defaultMaxAge)
  /\ forall later, le_now TNaN later = false.
Proof.
  intros He Hs Hp. split; [|split; [discriminate|reflexivity]].
  unfold markAsSeen. cbn [seenOffers with_seenOffers].
  rewrite Map_get_set, key_eqb_refl. do 2 f_equal.
  unfold resolve_expiresAt. rewrite He. simpl.
  destruct (String.eqb s "") eqn:E; [now apply String.eqb_eq in E|].
  simpl. now rewrite Hp.
Qed.

Lemma unparseable_expiry_stores_NaN_witness :
  (expires_at offer_bad_date = ExpString "not-a-date"
   /\ "not-a-date" <> ""
   /\ demo_Date_parse "not-a-date" = None)
  /\ Map_get key_eqb (KNum (Num 9))
       (seenOffers (markAsSeen demo_Date_parse 1000 offer_bad_date None
                      (world_of [])))
     = Some (mkSeen TNaN None (Some 1000)).
Proof.
  assert (Hs : "not-a-date" <> "") by discriminate.
  split; [repeat split; exact Hs|].
  apply (unparseable_expiry_stores_NaN demo_Date_parse 1000 offer_bad_date
           None (world_of []) "not-a-date" eq_refl Hs eq_refl).
Defined.

(** ** No two cycles at once *)

Lemma keeps_guard_stop_during (b : bool) : keeps_guard (stop_during b).
Proof.
  intros w. unfold stop_during, stopCheckInterval. destruct b; [|reflexivity].
  now destruct (isCheckInProgress w) eqn:E.
Qed.

Lemma keeps_guard_cleanup (now : Z) :
  keeps_guard (fun w => snd (cleanupExpiredOffers now w)).
Proof.
  intros w. unfold cleanupExpiredOffers.
  destruct (cleanup_loop now (seenOffers w) (seenOffers w, 0%nat)) as [m c].
  now destruct (0 <? c)%nat.
Qed.

Lemma keeps_guard_send_loop (env : CycleEnv) (os : list Offer) (i : nat) :
  keeps_guard (fun w => snd (send_loop env i os w)).
Proof.
  revert i. induction os as [|o r IH]; intros i w; simpl; [reflexivity|].
  destruct (shouldAbortCheck w); simpl; [reflexivity|].
  destruct (sendResolves env i); simpl;
    [rewrite IH|]; now rewrite keeps_guard_stop_during.
Qed.

Lemma keeps_guard_cycle (Date_parse : string -> option Z) (env : CycleEnv) :
  keeps_guard (checkForNewOffersInternal Date_parse env).
Proof.
  intros w. unfold checkForNewOffersInternal.
  destruct (shouldAbortCheck w); [reflexivity|].
  destruct (negb (configValid env)); [reflexivity|].
  set (w1 := snd (cleanupExpiredOffers _ _)).
  assert (H1 : isCheckInProgress w1 = isCheckInProgress w).
  { subst w1. now rewrite keeps_guard_cleanup. }
  set (w2 := stop_during _ w1).
  assert (H2 : isCheckInProgress w2 = isCheckInProgress w).
  { subst w2. now rewrite keeps_guard_stop_during. }
  destruct (shouldAbortCheck w2); [exact H2|].
  set (w4 := stop_during _ _).
  assert (H4 : isCheckInProgress w4 = isCheckInProgress w).
  { subst w4. now rewrite keeps_guard_stop_during. }
  destruct (fetched env) as [|allOffers|book].
  - exact H4.
  - destruct (shouldAbortCheck w4); [exact H4|].
    destruct (0 <? _)%nat; [|exact H4].
    set (new := getNewOffers allOffers w4).
    pose proof (keeps_guard_send_loop env new 0
                  (emit (Log (LFound (List.length new)))
                     (emit (Invoke GetNewOffers) w4))) as Hl.
    cbv beta in Hl.
    destruct (send_loop env 0 new _) as [[| |] w7]; simpl in Hl.
    + unfold addOffers. rewrite fold_markAsSeen. simpl. now rewrite Hl.
    + now rewrite Hl.
    + simpl. now rewrite Hl.
  - destruct (shouldAbortCheck w4); exact H4.
Qed.

Lemma step_guard_matches (Date_parse : string -> option Z) (e e' : Engine)
    (a : Action) :
  guard_matches e -> step Date_parse e a e' -> guard_matches e'.
Proof.
  unfold guard_matches. intros Hinv Hstep.
  destruct Hstep as [w n Hg|w n Hg|env w n Hn|w w' n Hn Hkeep|w n Hn|w n];
    simpl in *.
  - left. destruct Hinv as [[_ Hn]|[Hf _]]; [|congruence]. tauto.
  - left. destruct Hinv as [[Ht _]|[_ Hn]]; [congruence|]. subst n. tauto.
  - rewrite keeps_guard_cycle. exact Hinv.
  - rewrite Hkeep. exact Hinv.
  - right. destruct Hinv as [[_ H1]|[_ H0]]; [subst n; tauto|lia].
  - unfold stopCheckInterval.
    destruct (isCheckInProgress w) eqn:E; simpl; rewrite E; exact Hinv.
Qed.

Lemma reachable_guard_matches (Date_parse : string -> option Z) (e : Engine) :
  reachable Date_parse e -> guard_matches e.
Proof.
  induction 1 as [w Hw|e a e' _ IH Hstep].
  - right. now split.
  - exact (step_guard_matches Date_parse e e' a IH Hstep).
Qed.

(** [checkForNewOffers], run to its end with no other event in between, is
    the entry, the run and the settling of one activation. *)
Lemma checkForNewOffers_steps (Date_parse : string -> option Z)
    (env : CycleEnv) (w : World) :
  isCheckInProgress w = false ->
  exists e1 e2,
    step Date_parse (mkEngine w 0) TimerFires e1
    /\ step Date_parse e1 (CycleRuns env) e2
    /\ step Date_parse e2 CycleSettles
         (mkEngine (checkForNewOffers Date_parse env w) 0).
Proof.
  intros Hw.
  exists (mkEngine (checkForNewOffers_enter w) 1).
  exists (mkEngine
            (checkForNewOffersInternal Date_parse env
               (checkForNewOffers_enter w)) 1).
  split; [|split].
  - now apply step_entered.
  - apply step_runs. lia.
  - unfold checkForNewOffers. rewrite Hw.
    apply (step_settles Date_parse _ 1). lia.
Qed.

(** C8: in every state the engine can reach, at most one cycle is in flight,
    and the guard [isCheckInProgress] is set exactly then; while it is set,
    [checkForNewOffers] does nothing but log that it skips the tick.  So a
    timer tick that arrives while a cycle is in flight is dropped: the
    number of cycles in flight stays one, nothing is queued, the store and
    the data file are untouched, no notification is sent and nothing is
    written. *)
Theorem overlapping_tick_is_dropped (Date_parse : string -> option Z)
    (e : Engine) :
  reachable Date_parse e ->
  (inFlight e <= 1)%nat
  /\ (isCheckInProgress (world e) = true <-> inFlight e = 1%nat)
  /\ (inFlight e = 1%nat ->
      forall env,
        checkForNewOffers Date_parse env (world e)
        = emit (Log LSkippingCycle) (world e))
  /\ (inFlight e = 1%nat ->
      forall e',
        step Date_parse e TimerFires e' ->
        inFlight e' = 1%nat
        /\ seenOffers (world e') = seenOffers (world e)
        /\ dataFile (world e') = dataFile (world e)
        /\ trace (world e') = (trace (world e) ++ [Log LSkippingCycle])%list
        /\ sends (trace (world e')) = sends (trace (world e))
        /\ writes (trace (world e')) = writes (trace (world e))).
Proof.
  intros Hreach. pose proof (reachable_guard_matches Date_parse e Hreach) as Hinv.
  unfold guard_matches in Hinv. split; [|split; [|split]].
  - destruct Hinv as [[_ H]|[_ H]]; lia.
  - destruct Hinv as [[Hg H]|[Hg H]]; split; intros; congruence || lia.
  - intros Hone env. destruct Hinv as [[Hg _]|[_ H0]]; [|lia].
    unfold checkForNewOffers. now rewrite Hg.
  - intros Hone e' Hstep.
    destruct Hinv as [[Hg _]|[_ H0]]; [|lia].
    inversion Hstep as [w n Hg'|w n Hg'| | | |]; subst; simpl in *.
    + repeat split; try assumption.
      * now rewrite sends_app, app_nil_r.
      * now rewrite writes_app, app_nil_r.
    + congruence.
Qed.

Lemma overlapping_tick_is_dropped_witness :
  reachable demo_Date_parse engine_running
  /\ (inFlight engine_running <= 1)%nat
  /\ seenOffers (world engine_ticked) = seenOffers (world engine_running).
Proof.
  assert (H : reachable demo_Date_parse engine_running).
  { apply (reachable_step demo_Date_parse (mkEngine (world_of store_live5) 0)
             TimerFires).
    - apply reachable_start. reflexivity.
    - apply step_entered. reflexivity. }
  destruct (overlapping_tick_is_dropped demo_Date_parse engine_running H)
    as (Hle & _ & _ & Hdrop).
  split; [exact H|split; [exact Hle|]].
  apply (Hdrop eq_refl engine_ticked).
  apply step_dropped. reflexivity.
Defined.

(** ** Further properties of the tracker *)

Lemma Map_get_delete (k k' : Key) (m : Store) :
  Map_get key_eqb k' (Map_delete key_eqb k m)
  = if key_eqb k' k then None else Map_get key_eqb k' m.
Proof.
  unfold Map_delete. induction m as [|[k0 v0] r IH]; simpl.
  - now destruct (key_eqb k' k).
  - destruct (key_eqb k k0) eqn:E; simpl.
    + apply key_eqb_eq in E. subst k0. rewrite IH.
      now destruct (key_eqb k' k).
    + rewrite IH. destruct (key_eqb k' k0) eqn:E1; [|reflexivity].
      apply key_eqb_eq in E1. subst k0.
      destruct (key_eqb k' k) eqn:E2; [|reflexivity].
      apply key_eqb_eq in E2. subst k'. now rewrite key_eqb_refl in E.
Qed.

Lemma Map_size_set (k : Key) (v : SeenValue) (m : Store) :
  Map_size (Map_set key_eqb k v m)
  = if Map_has key_eqb k m then Map_size m else S (Map_size m).
Proof.
  unfold Map_size, Map_has.
  induction m as [|[k0 v0] r IH]; simpl; [reflexivity|].
  destruct (key_eqb k k0); simpl; [reflexivity|].
  rewrite IH. now destruct (Map_get key_eqb k r).
Qed.

(** X1: [addOffer] records the offer under its id with the message id it is
    given, replacing any earlier record of that id, leaves every other
    record as it was, grows the map by one exactly when the id was new, and
    writes the whole store to the data file. *)
Theorem addOffer_records_and_persists (Date_parse : string -> option Z)
    (now : Z) (offer : Offer) (mid : option string) (w : World) :
  let w' := addOffer Date_parse now offer mid w in
  Map_get key_eqb (id offer) (seenOffers w')
  = Some (mkSeen (resolve_expiresAt Date_parse now offer) mid (Some now))
  /\ getMessageId (id offer) w' = mid
  /\ isNew (id offer) w' = false
  /\ (forall k, k <> id offer ->
        Map_get key_eqb k (seenOffers w') = Map_get key_eqb k (seenOffers w))
  /\ Map_size (seenOffers w')
     = (if isNew (id offer) w then S (Map_size (seenOffers w))
        else Map_size (seenOffers w))
  /\ dataFile w' = Some (file_of (seenOffers w'))
  /\ writes (trace w') = (writes (trace w) ++ [file_of (seenOffers w')])%list.
Proof.
  intros w'. subst w'. unfold addOffer, markAsSeen, getMessageId, isNew.
  unfold Map_has.
  cbn [save emit with_dataFile with_seenOffers seenOffers dataFile trace].
  rewrite Map_get_set, key_eqb_refl. cbn [messageId negb].
  repeat split.
  - intros k Hk. rewrite Map_get_set.
    destruct (key_eqb k (id offer)) eqn:E; [|reflexivity].
    now apply key_eqb_eq in E.
  - rewrite Map_size_set. unfold Map_has.
    now destruct (Map_get key_eqb (id offer) (seenOffers w)).
  - now rewrite writes_app.
Qed.

(** X2: [addOffers] leaves every offer of the batch tracked, with a [null]
    message id, touches no record of another id, and saves exactly once,
    also when the batch is empty. *)
Theorem addOffers_tracks_batch (Date_parse : string -> option Z) (now : Z)
    (os : list Offer) (w : World) :
  let w' := addOffers Date_parse now os w in
  (forall o, In o os ->
     isNew (id o) w' = false /\ getMessageId (id o) w' = None)
  /\ (forall k, (forall o, In o os -> id o <> k) ->
        Map_get key_eqb k (seenOffers w') = Map_get key_eqb k (seenOffers w))
  /\ dataFile w' = Some (file_of (seenOffers w'))
  /\ writes (trace w') = (writes (trace w) ++ [file_of (seenOffers w')])%list.
Proof.
  intros w'. subst w'. unfold addOffers. rewrite fold_markAsSeen.
  cbn [save emit with_dataFile with_seenOffers seenOffers dataFile trace].
  split; [|split; [|split]].
  - intros o Hin. unfold isNew, getMessageId.
    cbn [save emit with_dataFile with_seenOffers seenOffers].
    destruct (Map_get_marked_in Date_parse now os (seenOffers w) o Hin)
      as (o' & _ & _ & Hget).
    unfold Map_has. rewrite Hget. split; reflexivity.
  - intros k Hk. now apply Map_get_marked_other.
  - reflexivity.
  - now rewrite writes_app.
Qed.

(** X3: [removeOffer] forgets the id (it is new again and has no message
    id), keeps every other record, and rewrites the data file whether or not
    the id was tracked. *)
Theorem removeOffer_forgets_and_persists (k : Key) (w : World) :
  let w' := removeOffer k w in
  isNew k w' = true
  /\ getMessageId k w' = None
  /\ (forall k', k' <> k ->
        Map_get key_eqb k' (seenOffers w') = Map_get key_eqb k' (seenOffers w))
  /\ dataFile w' = Some (file_of (seenOffers w'))
  /\ writes (trace w') = (writes (trace w) ++ [file_of (seenOffers w')])%list.
Proof.
  intros w'. subst w'. unfold removeOffer, isNew, getMessageId, Map_has.
  cbn [save emit with_dataFile with_seenOffers seenOffers dataFile trace].
  rewrite Map_get_delete, key_eqb_refl.
  repeat split.
  - intros k' Hk. rewrite Map_get_delete.
    destruct (key_eqb k' k) eqn:E; [|reflexivity].
    now apply key_eqb_eq in E.
  - now rewrite writes_app.
Qed.

(** X4: once [addOffers] has recorded the offers [getNewOffers] selected,
    none of the listed offers is new any more; and [getNewOffers] selects
    the same offers when it is applied to its own result. *)
Theorem getNewOffers_empty_after_addOffers (Date_parse : string -> option Z)
    (now : Z) (os : list Offer) (w : World) :
  getNewOffers os (addOffers Date_parse now (getNewOffers os w) w) = []
  /\ getNewOffers (getNewOffers os w) w = getNewOffers os w.
Proof.
  split.
  - unfold getNewOffers at 1. apply filter_none. intros o Hin.
    unfold isNew. rewrite addOffers_seenOffers.
    change (getNewOffers os w) with (new_offers os (seenOffers w)).
    now rewrite (listings_tracked_after_cycle Date_parse now os _ o Hin).
  - unfold getNewOffers. apply filter_all. apply Forall_forall.
    intros o Hin. now apply filter_In in Hin.
Qed.

(** ** Cleanup after cleanup *)

Lemma le_now_mono (v : TimeVal) (a b : Z) :
  a <= b -> le_now v a = true -> le_now v b = true.
Proof.
  intros Hab. destruct v; simpl; intros H; try discriminate.
  - apply Z.leb_le in H. apply Z.leb_le. lia.
  - apply Z.leb_le in H. apply Z.leb_le. lia.
Qed.

Lemma cleaned_cleaned (now1 now2 : Z) (m : Store) :
  now1 <= now2 -> cleaned now2 (cleaned now1 m) = cleaned now2 m.
Proof.
  intros Hle. unfold cleaned.
  induction m as [|e r IH]; simpl; [reflexivity|].
  destruct (unexpired now1 e) eqn:E1; simpl.
  - now rewrite IH.
  - rewrite IH. destruct (unexpired now2 e) eqn:E2; [|reflexivity].
    exfalso. unfold unexpired, expired in *.
    destruct (le_now (expiresAt (snd e)) now1) eqn:L1; [|discriminate].
    apply (le_now_mono _ _ _ Hle) in L1. rewrite L1 in E2. discriminate.
Qed.

Lemma cleaned_no_expired (now : Z) (m : Store) :
  filter (expired now) (cleaned now m) = [].
Proof.
  apply filter_none. intros e Hin. apply filter_In in Hin.
  destruct Hin as [_ H]. unfold unexpired in H.
  now destruct (expired now e).
Qed.

Lemma cleaned_id (now : Z) (m : Store) :
  filter (expired now) m = [] -> cleaned now m = m.
Proof.
  unfold cleaned, unexpired.
  induction m as [|e r IH]; simpl; [reflexivity|].
  destruct (expired now e); simpl; [discriminate|].
  intros H. now rewrite IH.
Qed.

(** X5: a cleanup at a later clock reading subsumes an earlier one: the
    store after both is the store after the later one alone; and a second
    cleanup at the same reading changes nothing, it removes no record, logs
    nothing and does not write the file. *)
Theorem cleanupExpiredOffers_twice (now1 now2 : Z) (w : World) :
  Map_ok (seenOffers w) ->
  now1 <= now2 ->
  seenOffers
    (snd (cleanupExpiredOffers now2 (snd (cleanupExpiredOffers now1 w))))
  = seenOffers (snd (cleanupExpiredOffers now2 w))
  /\ snd (cleanupExpiredOffers now1 (snd (cleanupExpiredOffers now1 w)))
     = snd (cleanupExpiredOffers now1 w).
Proof.
  intros Hok Hle.
  pose proof (cleanupExpiredOffers_world now1 w Hok) as E1.
  set (w1 := snd (cleanupExpiredOffers now1 w)) in *.
  assert (Hs : seenOffers w1 = cleaned now1 (seenOffers w))
    by now rewrite E1.
  assert (Hok1 : Map_ok (seenOffers w1))
    by (rewrite Hs; now apply Map_ok_filter).
  split.
  - rewrite (cleanupExpiredOffers_world now2 w1 Hok1).
    rewrite (cleanupExpiredOffers_world now2 w Hok).
    cbn [seenOffers]. rewrite Hs. now apply cleaned_cleaned.
  - rewrite (cleanupExpiredOffers_world now1 w1 Hok1).
    apply world_ext;
      cbn [seenOffers dataFile isCheckInProgress shouldAbortCheck trace];
      try reflexivity.
    + rewrite Hs. apply cleaned_cleaned. lia.
    + unfold cleanup_file. rewrite Hs, cleaned_no_expired. reflexivity.
    + unfold cleanup_events. rewrite Hs, cleaned_no_expired. simpl.
      apply app_nil_r.
Qed.

Lemma cleanupExpiredOffers_twice_witness :
  seenOffers
    (snd (cleanupExpiredOffers 600
            (snd (cleanupExpiredOffers 100 (world_of store_live5)))))
  = seenOffers (snd (cleanupExpiredOffers 600 (world_of store_live5))).
Proof.
  apply (cleanupExpiredOffers_twice 100 600 (world_of store_live5)).
  - repeat constructor. simpl. tauto.
  - lia.
Defined.

(** ** Reading the data file *)

Section MapGeneric.
Context {V : Type}.

Lemma Map_get_notin (k : Key) (m : list (Key * V)) :
  ~ In k (map fst m) -> Map_get key_eqb k m = None.
Proof.
  induction m as [|[k' v'] r IH]; simpl; [reflexivity|].
  intros H. destruct (key_eqb k k') eqn:E.
  - apply key_eqb_eq in E. subst. tauto.
  - apply IH. tauto.
Qed.

Lemma Map_get_map_snd {V' : Type} (f : V -> V') (k : Key)
    (m : list (Key * V)) :
  Map_get key_eqb k (map (fun e => (fst e, f (snd e))) m)
  = option_map f (Map_get key_eqb k m).
Proof.
  induction m as [|[k' v'] r IH]; simpl; [reflexivity|].
  now destruct (key_eqb k k').
Qed.

Lemma ToPropertyKey_NoDup (m : list (Key * V)) :
  Forall (fun e => int_key (fst e)) m -> NoDup (map fst m) ->
  NoDup (map (fun e : Key * V => ToPropertyKey (fst e)) m).
Proof.
  induction m as [|[k v] r IH]; simpl; intros Hint Hok; [constructor|].
  inversion Hint as [|? ? [z [Hz _]] Hint']; subst.
  inversion Hok as [|? ? Hnotin Hok']; subst. simpl in *. subst k.
  constructor; [|now apply IH].
  intros Hin. apply in_map_iff in Hin. destruct Hin as [[k' v'] [Hk Hin]].
  simpl in Hk. rewrite Forall_forall in Hint'.
  destruct (Hint' _ Hin) as [z' [Hz' _]]. simpl in Hz'. subst k'.
  apply Number_toString_inj in Hk. subst z'.
  apply Hnotin. change (KNum (Num z)) with (fst (KNum (Num z), v')).
  now apply in_map.
Qed.

End MapGeneric.

Lemma load_entry_loaded (acc : Store) (s : string) (x : FileEntry) :
  load_entry acc (s, x)
  = match loaded_value x with
    | Some v => Map_set key_eqb (KNum (parseInt s)) v acc
    | None => acc
    end.
Proof. now destruct x. Qed.

Lemma NoDup_app_snoc (l1 l2 : list Key) (x : Key) :
  NoDup (l1 ++ x :: l2) -> NoDup ((l1 ++ [x]) ++ l2).
Proof. now rewrite <- app_assoc. Qed.

Lemma fold_load_entries (es : list (Key * FileEntry)) (acc : Store) :
  Forall (fun e => int_key (fst e)) es ->
  NoDup (Map_keys acc ++ map fst es) ->
  fold_left load_entry (map (fun e => (ToPropertyKey (fst e), snd e)) es) acc
  = (acc ++ loaded es)%list.
Proof.
  unfold Map_keys. revert acc.
  induction es as [|[k x] r IH]; intros acc Hint Hnd.
  - simpl. now rewrite app_nil_r.
  - inversion Hint as [|? ? [z [Hz _]] Hint']; subst. simpl in Hz. subst k.
    cbn [map fold_left fst snd]. rewrite load_entry_loaded.
    cbn [ToPropertyKey].
    rewrite parseInt_Number_toString.
    unfold loaded. cbn [flat_map fst snd]. fold (loaded r).
    cbn [map fst] in Hnd.
    destruct (loaded_value x) as [v|].
    + rewrite (Map_set_fresh key_eqb key_eqb_eq).
      * rewrite IH; [now rewrite <- app_assoc|assumption|].
        rewrite map_app. now apply NoDup_app_snoc.
      * intros Hin. apply (NoDup_remove_2 _ _ _ Hnd).
        apply in_or_app. now left.
    + rewrite IH; [reflexivity|assumption|].
      now apply NoDup_remove_1 in Hnd.
Qed.

Lemma loaded_keys (es : list (Key * FileEntry)) (k : Key) :
  In k (Map_keys (loaded es)) -> In k (map fst es).
Proof.
  unfold Map_keys, loaded. induction es as [|[k' x] r IH]; simpl; [tauto|].
  rewrite map_app, in_app_iff. intros [H|H]; [|right; now apply IH].
  destruct (loaded_value x); simpl in H; tauto.
Qed.

Lemma Map_ok_loaded (es : list (Key * FileEntry)) :
  NoDup (map fst es) -> Map_ok (loaded es).
Proof.
  unfold Map_ok. induction es as [|[k x] r IH]; simpl; intros H.
  - constructor.
  - inversion H as [|? ? Hnotin Hnd]; subst.
    unfold loaded. cbn [flat_map fst snd]. fold (loaded r).
    destruct (loaded_value x); simpl; [|now apply IH].
    constructor; [|now apply IH].
    intros Hin. apply Hnotin. now apply loaded_keys.
Qed.

Lemma Map_get_loaded (es : list (Key * FileEntry)) (k : Key) :
  NoDup (map fst es) ->
  Map_get key_eqb k (loaded es)
  = match Map_get key_eqb k es with
    | Some x => loaded_value x
    | None => None
    end.
Proof.
  induction es as [|[k' x] r IH]; simpl; intros H; [reflexivity|].
  inversion H as [|? ? Hnotin Hnd]; subst.
  unfold loaded. cbn [flat_map fst snd]. fold (loaded r).
  destruct (key_eqb k k') eqn:E.
  - apply key_eqb_eq in E. subst k'.
    destruct (loaded_value x); simpl.
    + now rewrite key_eqb_refl.
    + apply Map_get_notin. intros Hin. apply Hnotin.
      now apply loaded_keys.
  - destruct (loaded_value x); simpl; [rewrite E|]; now apply IH.
Qed.

(** The world [initialize] leaves when it reads an object file whose keys
    are the texts of pairwise different integer ids. *)
Lemma initialize_object (nowMigrate now : Z) (es : list (Key * FileEntry)) :
  Forall (fun e => int_key (fst e)) es ->
  NoDup (map fst es) ->
  let parsed := map (fun e => (ToPropertyKey (fst e), snd e)) es in
  let r := initialize nowMigrate now (fresh (Some (FileObject parsed))) in
  fst r = Ok tt
  /\ seenOffers (snd r) = cleaned now (loaded es)
  /\ (existsb is_number_entry parsed = true ->
      dataFile (snd r) = Some (file_of (seenOffers (snd r)))).
Proof.
  intros Hint Hnd parsed r. subst r. unfold initialize.
  cbn [dataFile fresh seenOffers fst snd].
  assert (EL : fold_left load_entry parsed [] = loaded es)
    by (unfold parsed; now rewrite (fold_load_entries es [])).
  rewrite EL.
  pose proof (Map_ok_loaded es Hnd) as Hok.
  split; [reflexivity|].
  destruct (existsb is_number_entry parsed).
  - rewrite cleanupExpiredOffers_world by exact Hok.
    cbn [seenOffers dataFile save emit with_dataFile with_seenOffers].
    split; [reflexivity|]. intros _.
    unfold cleanup_file.
    destruct (0 <? List.length (filter (expired now) (loaded es)))%nat eqn:E;
      [reflexivity|].
    apply Nat.ltb_ge in E.
    rewrite cleaned_id; [reflexivity|].
    destruct (filter (expired now) (loaded es)); [reflexivity|].
    simpl in E. lia.
  - rewrite cleanupExpiredOffers_world by exact Hok.
    cbn [seenOffers]. split; [reflexivity|discriminate].
Qed.

Lemma Map_get_fold_set (v : SeenValue) (ids : list Key) (acc : Store)
    (k : Key) :
  Map_get key_eqb k
    (fold_left (fun m offerId => Map_set key_eqb offerId v m) ids acc)
  = if existsb (key_eqb k) ids then Some v else Map_get key_eqb k acc.
Proof.
  revert acc. induction ids as [|a r IH]; intros acc; simpl; [reflexivity|].
  rewrite IH, Map_get_set.
  destruct (key_eqb k a), (existsb (key_eqb k) r); reflexivity.
Qed.

Lemma Map_ok_fold_set (v : SeenValue) (ids : list Key) (acc : Store) :
  Map_ok acc ->
  Map_ok (fold_left (fun m offerId => Map_set key_eqb offerId v m) ids acc).
Proof.
  revert acc. induction ids as [|a r IH]; intros acc H; simpl; [assumption|].
  apply IH. now apply Map_ok_set.
Qed.

Lemma In_fold_set (v : SeenValue) (ids : list Key) (acc : Store)
    (e : Key * SeenValue) :
  In e (fold_left (fun m offerId => Map_set key_eqb offerId v m) ids acc) ->
  In e acc \/ snd e = v.
Proof.
  revert acc. induction ids as [|a r IH]; intros acc; simpl; [tauto|].
  intros H. apply IH in H. destruct H as [H|H]; [|tauto].
  clear IH. induction acc as [|[k0 v0] acc IHa]; simpl in H.
  - destruct H as [<-|[]]. now right.
  - destruct (key_eqb a k0).
    + destruct H as [<-|H]; [now right|left; now right].
    + destruct H as [<-|H]; [left; now left|].
      apply IHa in H. destruct H; [left; now right|now right].
Qed.

(** X6: a data file in the oldest format, an array of offer ids, is
    migrated: when the clock has not advanced by 24 hours between the
    migration and the cleanup that ends [initialize], exactly the ids of
    the array are tracked, under the keys the array holds, each with the
    expiry [nowMigrate + 24 h] and no message id; and the file is rewritten
    once, in the object format, also for an empty array. *)
Theorem array_file_is_migrated (nowMigrate now : Z) (ids : list Key) :
  now < nowMigrate + defaultMaxAge ->
  let r := initialize nowMigrate now (fresh (Some (FileArray ids))) in
  fst r = Ok tt
  /\ (forall k, In k ids ->
        Map_get key_eqb k (seenOffers (snd r))
        = Some (mkSeen (TNum (nowMigrate + defaultMaxAge)) None None))
  /\ (forall k, ~ In k ids -> isNew k (snd r) = true)
  /\ dataFile (snd r) = Some (file_of (seenOffers (snd r)))
  /\ writes (trace (snd r)) = [file_of (seenOffers (snd r))].
Proof.
  intros Hnow r. subst r. unfold initialize.
  cbn [dataFile fresh seenOffers emit fst snd].
  set (v := mkSeen (TNum (nowMigrate + defaultMaxAge)) None None).
  set (m := fold_left (fun m offerId => Map_set key_eqb offerId v m) ids []).
  assert (Hok : Map_ok m) by (apply Map_ok_fold_set; constructor).
  assert (Hexp : filter (expired now) m = []).
  { apply filter_none. intros e Hin. apply In_fold_set in Hin.
    destruct Hin as [[]|Hv]. unfold expired. rewrite Hv. simpl.
    apply Z.leb_gt. lia. }
  rewrite cleanupExpiredOffers_world by exact Hok.
  cbn [seenOffers dataFile trace save emit with_dataFile with_seenOffers].
  unfold cleanup_file, cleanup_events. rewrite Hexp. cbn [List.length Nat.ltb Nat.leb].
  rewrite (cleaned_id now m Hexp).
  split; [reflexivity|split; [|split; [|split]]].
  - intros k Hin. unfold m. rewrite Map_get_fold_set.
    replace (existsb (key_eqb k) ids) with true; [reflexivity|].
    symmetry. apply existsb_exists. exists k. split; [assumption|].
    apply key_eqb_refl.
  - intros k Hin. unfold isNew, Map_has. cbn [seenOffers].
    unfold m. rewrite Map_get_fold_set.
    replace (existsb (key_eqb k) ids) with false; [reflexivity|].
    symmetry. apply not_true_is_false. intros H.
    apply existsb_exists in H. destruct H as [k' [Hin' E]].
    apply key_eqb_eq in E. now subst k'.
  - reflexivity.
  - reflexivity.
Qed.

Lemma array_file_is_migrated_witness :
  100 < 0 + defaultMaxAge
  /\ fst (initialize 0 100 (fresh (Some (FileArray [KNum (Num 7); KStr "a"]))))
     = Ok tt.
Proof.
  assert (H : 100 < 0 + defaultMaxAge) by (unfold defaultMaxAge; lia).
  split; [exact H|].
  apply (array_file_is_migrated 0 100 [KNum (Num 7); KStr "a"] H).
Defined.

Lemma save_v1_int_keys (m1 : list (Key * JsNum)) :
  Forall (fun e => int_key (fst e)) m1 -> NoDup (map fst m1) ->
  save_v1 m1
  = FileObject
      (map (fun e => (ToPropertyKey (fst e), snd e))
         (map (fun e => (fst e, JSON_of_expiry (snd e))) m1)).
Proof.
  intros Hint Hnd. unfold save_v1.
  rewrite (fold_set_fresh String.eqb String.eqb_eq
             (fun e : Key * JsNum => ToPropertyKey (fst e))
             (fun e => snd e)).
  - simpl. now rewrite !map_map.
  - simpl. now apply ToPropertyKey_NoDup.
Qed.

(** X7: the data file the earlier tracker wrote (offer id to expiry) is
    read by this version: each offer whose expiry is a number later than
    [now] is tracked with that expiry and no message id, every other id is
    untracked, and when the old file held a numeric expiry the file is
    rewritten so that it holds the store in the new format. *)
Theorem expiry_map_file_is_upgraded (nowMigrate now : Z)
    (m1 : list (Key * JsNum)) :
  Forall (fun e => int_key (fst e)) m1 ->
  NoDup (map fst m1) ->
  let r := initialize nowMigrate now (fresh (Some (save_v1 m1))) in
  fst r = Ok tt
  /\ (forall k,
        Map_get key_eqb k (seenOffers (snd r))
        = match Map_get key_eqb k m1 with
          | Some (Num t) =>
              if t <=? now then None else Some (mkSeen (TNum t) None None)
          | _ => None
          end)
  /\ ((exists k t, In (k, Num t) m1) ->
      dataFile (snd r) = Some (file_of (seenOffers (snd r)))).
Proof.
  intros Hint Hnd r. subst r. rewrite (save_v1_int_keys m1 Hint Hnd).
  set (es := map (fun e : Key * JsNum => (fst e, JSON_of_expiry (snd e))) m1).
  assert (Hint' : Forall (fun e => int_key (fst e)) es).
  { unfold es. apply Forall_forall. intros e Hin. apply in_map_iff in Hin.
    destruct Hin as [e' [<- Hin]]. rewrite Forall_forall in Hint.
    now apply Hint. }
  assert (Hnd' : NoDup (map fst es)).
  { unfold es. rewrite map_map. exact Hnd. }
  destruct (initialize_object nowMigrate now es Hint' Hnd')
    as (Hr & Hs & Hd).
  split; [exact Hr|split].
  - intros k. rewrite Hs.
    rewrite (Map_get_cleaned now _ k (Map_ok_loaded es Hnd')).
    rewrite (Map_get_loaded es k Hnd'). unfold es.
    rewrite Map_get_map_snd.
    destruct (Map_get key_eqb k m1) as [[t|]|]; reflexivity.
  - intros (k & t & Hin). apply Hd. apply existsb_exists.
    exists (ToPropertyKey k, EntryNumber t). split; [|reflexivity].
    apply in_map_iff. exists (k, EntryNumber t). split; [reflexivity|].
    unfold es. apply in_map_iff. exists (k, Num t). now split.
Qed.

Lemma expiry_map_file_is_upgraded_witness :
  Forall (fun e => int_key (fst e)) store_v1
  /\ NoDup (map fst store_v1)
  /\ fst (initialize 0 100 (fresh (Some (save_v1 store_v1)))) = Ok tt.
Proof.
  assert (H1 : Forall (fun e => int_key (fst e)) store_v1).
  { repeat constructor; eexists; (split; [reflexivity|discriminate]). }
  assert (H2 : NoDup (map fst store_v1)).
  { repeat constructor; simpl; intuition discriminate. }
  split; [exact H1|split; [exact H2|]].
  apply (expiry_map_file_is_upgraded 0 100 store_v1 H1 H2).
Defined.

Lemma loaded_value_JSON_of_value (v : SeenValue) :
  loaded_value (JSON_of_value v) = Some (read_back v).
Proof. reflexivity. Qed.

(** What a fresh [initialize] at [now] finds under each key after a
    [save], for a store of integer ids. *)
Lemma reload_Map_get (nowMigrate now : Z) (m : Store) (k : Key) :
  Map_ok m ->
  Forall (fun e => int_key (fst e)) m ->
  Map_get key_eqb k (seenOffers (snd (reload nowMigrate now m)))
  = match Map_get key_eqb k m with
    | Some v =>
        if le_now (expiresAt (read_back v)) now then None
        else Some (read_back v)
    | None => None
    end.
Proof.
  intros Hok Hint. unfold reload. rewrite save_dataFile.
  change (seenOffers (world_of m)) with m.
  unfold file_of, JSON_stringify.
  rewrite (object_of_int_keys m Hint Hok), map_map. cbn [fst snd].
  set (es := map (fun e : Key * SeenValue => (fst e, JSON_of_value (snd e))) m).
  replace (map (fun x : Key * SeenValue =>
                  (ToPropertyKey (fst x), JSON_of_value (snd x))) m)
    with (map (fun e : Key * FileEntry => (ToPropertyKey (fst e), snd e)) es)
    by (unfold es; now rewrite map_map).
  assert (Hint' : Forall (fun e => int_key (fst e)) es).
  { unfold es. apply Forall_forall. intros e Hin. apply in_map_iff in Hin.
    destruct Hin as [e' [<- Hin]]. rewrite Forall_forall in Hint.
    now apply Hint. }
  assert (Hnd' : NoDup (map fst es)).
  { unfold es. rewrite map_map. exact Hok. }
  destruct (initialize_object nowMigrate now es Hint' Hnd')
    as (_ & Hs & _).
  rewrite Hs.
  rewrite (Map_get_cleaned now _ k (Map_ok_loaded es Hnd')).
  rewrite (Map_get_loaded es k Hnd'). unfold es.
  rewrite Map_get_map_snd.
  destruct (Map_get key_eqb k m) as [v|]; [|reflexivity].
  cbn [option_map]. now rewrite loaded_value_JSON_of_value.
Qed.

(** X8: [save] followed by a fresh [initialize] at [now], for any store of
    integer ids: each record comes back as JSON and [initialize] read it
    ([NaN] as [null], an empty message id and a zero [sentAt] as [null],
    every other field unchanged), unless the expiry read back is at or
    before [now], in which case the id is no longer tracked. *)
Theorem save_initialize_reads_back (nowMigrate now : Z) (m : Store) :
  Map_ok m ->
  Forall (fun e => int_key (fst e)) m ->
  (forall k,
     Map_get key_eqb k (seenOffers (snd (reload nowMigrate now m)))
     = match Map_get key_eqb k m with
       | Some v =>
           if le_now (expiresAt (read_back v)) now then None
           else Some (read_back v)
       | None => None
       end)
  /\ (forall v,
        expiresAt (read_back v)
        = match expiresAt v with TNaN => TNull | t => t end
        /\ messageId (read_back v)
           = match messageId v with
             | Some s => if String.eqb s "" then None else Some s
             | None => None
             end
        /\ sentAt (read_back v)
           = match sentAt v with
             | Some z => if z =? 0 then None else Some z
             | None => None
             end).
Proof.
  intros Hok Hint. split.
  - intros k. now apply reload_Map_get.
  - intros [e mid s]. unfold read_back. cbn.
    split; [|split].
    + now destruct e.
    + now destruct mid.
    + now destruct s.
Qed.

Lemma save_initialize_reads_back_witness :
  Map_ok store_nan9
  /\ Forall (fun e => int_key (fst e)) store_nan9
  /\ forall k,
       Map_get key_eqb k (seenOffers (snd (reload 0 100 store_nan9)))
       = match Map_get key_eqb k store_nan9 with
         | Some v =>
             if le_now (expiresAt (read_back v)) 100 then None
             else Some (read_back v)
         | None => None
         end.
Proof.
  assert (H1 : Map_ok store_nan9) by (repeat constructor; simpl; tauto).
  assert (H2 : Forall (fun e => int_key (fst e)) store_nan9)
    by (repeat constructor; exists 9; split; [reflexivity|discriminate]).
  split; [exact H1|split; [exact H2|]].
  apply (save_initialize_reads_back 0 100 store_nan9 H1 H2).
Defined.

(** X9: a record whose expiry is [NaN] is kept by every
    [cleanupExpiredOffers] of the running process, whatever the clock
    reads, but does not survive a restart: [save] writes the expiry as
    [null], and the cleanup that ends [initialize] removes the record at
    any clock reading from 0 on. *)
Theorem NaN_expiry_kept_until_restart (nowMigrate now : Z) (w : World)
    (k : Key) (v : SeenValue) :
  Map_ok (seenOffers w) ->
  Forall (fun e => int_key (fst e)) (seenOffers w) ->
  Map_get key_eqb k (seenOffers w) = Some v ->
  expiresAt v = TNaN ->
  (forall t,
     Map_get key_eqb k (seenOffers (snd (cleanupExpiredOffers t w)))
     = Some v)
  /\ (0 <= now ->
      Map_get key_eqb k (seenOffers (snd (reload nowMigrate now (seenOffers w))))
      = None).
Proof.
  intros Hok Hint Hget Hnan. split.
  - intros t. rewrite (cleanupExpiredOffers_world t w Hok). cbn [seenOffers].
    rewrite (Map_get_cleaned t _ k Hok), Hget, Hnan. reflexivity.
  - intros Hnow. rewrite (reload_Map_get nowMigrate now _ k Hok Hint), Hget.
    destruct v as [e mid s]. simpl in Hnan. subst e.
    unfold read_back. cbn.
    now apply Z.leb_le in Hnow as ->.
Qed.

Lemma NaN_expiry_kept_until_restart_witness :
  Map_get key_eqb (KNum (Num 9))
    (seenOffers (snd (cleanupExpiredOffers 100 (world_of store_nan9))))
  = Some (mkSeen TNaN None (Some 10))
  /\ Map_get key_eqb (KNum (Num 9))
       (seenOffers (snd (reload 0 100 (seenOffers (world_of store_nan9)))))
     = None.
Proof.
  assert (H1 : Map_ok (seenOffers (world_of store_nan9)))
    by (repeat constructor; simpl; tauto).
  assert (H2 : Forall (fun e => int_key (fst e))
                 (seenOffers (world_of store_nan9)))
    by (repeat constructor; exists 9; split; [reflexivity|discriminate]).
  destruct (NaN_expiry_kept_until_restart 0 100 (world_of store_nan9)
              (KNum (Num 9)) (mkSeen TNaN None (Some 10)) H1 H2
              eq_refl eq_refl) as [Ha Hb].
  split; [apply Ha|apply Hb; lia].
Defined.

(** ** The order book *)

Lemma collect_offers (net : Network) (cs : list string) (acc : OrderBook) :
  offers (fold_left collect (map (fetch_task net) cs) acc)
  = (offers acc
     ++ flat_map
          (fun c => map (tag c) (getOrderBookFromCoordinator_legacy net c))
          cs)%list.
Proof.
  revert acc. induction cs as [|c r IH]; intros acc; simpl.
  - now rewrite app_nil_r.
  - rewrite IH. unfold collect, fetch_task, getOrderBookFromCoordinator,
      getOrderBookFromCoordinator_legacy.
    destruct (net c) as [|[data|]]; simpl; try reflexivity.
    now rewrite <- app_assoc.
Qed.

Lemma getOrderBook_legacy_flat (net : Network) (cs : list string)
    (acc : list Offer) :
  fold_left
    (fun (allOffers : list Offer) coordinator =>
       (allOffers
        ++ map (tag coordinator)
             (getOrderBookFromCoordinator_legacy net coordinator))%list)
    cs acc
  = (acc
     ++ flat_map
          (fun c => map (tag c) (getOrderBookFromCoordinator_legacy net c))
          cs)%list.
Proof.
  revert acc. induction cs as [|c r IH]; intros acc; simpl.
  - now rewrite app_nil_r.
  - rewrite IH. now rewrite <- app_assoc.
Qed.

(** X10: the client that reports the reachable coordinators returns the
    offers the earlier client returned, in the same order, for every
    behaviour of the coordinators: turning a bad answer into an exception
    instead of an empty array did not change the listing. *)
Theorem offers_as_the_earlier_client (targets : Targets) (net : Network)
    (cs : list string) :
  offers (getOrderBook net cs) = getOrderBook_legacy net cs
  /\ offers (getOffers targets net cs) = getOffers_legacy targets net cs.
Proof.
  assert (H : offers (getOrderBook net cs) = getOrderBook_legacy net cs).
  { unfold getOrderBook, getOrderBook_legacy.
    now rewrite collect_offers, getOrderBook_legacy_flat. }
  split; [exact H|].
  unfold getOffers, getOffers_legacy. cbn [offers]. now rewrite H.
Qed.

Lemma Set_add_NoDup (x : string) (s : list string) :
  NoDup s -> NoDup (Set_add x s).
Proof.
  intros H. unfold Set_add. destruct (existsb (String.eqb x) s) eqn:E.
  - assumption.
  - apply NoDup_rev in H. rewrite <- (rev_involutive (_ ++ _)).
    apply NoDup_rev. rewrite rev_app_distr. simpl.
    constructor; [|assumption].
    rewrite <- in_rev. intros Hin.
    assert (existsb (String.eqb x) s = true); [|congruence].
    apply existsb_exists. exists x. split; [assumption|].
    apply String.eqb_refl.
Qed.

Lemma collect_NoDup (net : Network) (cs : list string) (acc : OrderBook) :
  NoDup (reachableCoordinators acc) ->
  NoDup (reachableCoordinators
           (fold_left collect (map (fetch_task net) cs) acc)).
Proof.
  revert acc. induction cs as [|c r IH]; intros acc H; simpl; [assumption|].
  apply IH. unfold collect, fetch_task, getOrderBookFromCoordinator.
  destruct (net c) as [|[data|]]; simpl; try assumption.
  now apply Set_add_NoDup.
Qed.

Lemma set_currencyCode_coordinator (targets : Targets) (o : Offer) :
  coordinator (set_currencyCode targets o) = coordinator o.
Proof.
  unfold set_currencyCode. now destruct (find _ targets).
Qed.

(** X11: every offer [getOffers] returns carries the name of a configured
    coordinator that is in the reachable set returned with it; the
    reachable set holds each coordinator once, also when it is configured
    twice, so its size never exceeds the number of configured
    coordinators. *)
Theorem offers_come_from_reachable_coordinators (targets : Targets)
    (net : Network) (cs : list string) :
  let book := getOffers targets net cs in
  (forall o, In o (offers book) ->
     exists c, coordinator o = Some c /\ In c cs
               /\ In c (reachableCoordinators book))
  /\ NoDup (reachableCoordinators book)
  /\ (List.length (reachableCoordinators book) <= List.length cs)%nat.
Proof.
  intros book. subst book. rewrite getOffers_reachable.
  assert (Hnd : NoDup (reachableCoordinators (getOrderBook net cs))).
  { unfold getOrderBook. apply collect_NoDup. constructor. }
  assert (Hin : forall c, In c (reachableCoordinators (getOrderBook net cs))
                          <-> In c cs /\ answers_with_listing net c).
  { intros c. unfold getOrderBook. rewrite collect_reachable. simpl. tauto. }
  split; [|split; [exact Hnd|]].
  - intros o Ho. unfold getOffers, filter_targets in Ho. cbn [offers] in Ho.
    apply in_map_iff in Ho. destruct Ho as [o' [<- Ho']].
    apply filter_In in Ho'. destruct Ho' as [Ho' _].
    unfold getOrderBook in Ho'. rewrite collect_offers in Ho'.
    simpl in Ho'. apply in_flat_map in Ho'. destruct Ho' as [c [Hc Ho']].
    apply in_map_iff in Ho'. destruct Ho' as [o'' [<- Ho'']].
    exists c. rewrite set_currencyCode_coordinator.
    split; [reflexivity|split; [assumption|]].
    apply Hin. split; [assumption|].
    unfold getOrderBookFromCoordinator_legacy in Ho''.
    unfold answers_with_listing.
    destruct (net c) as [|[data|]]; try destruct Ho''. now exists data.
  - apply NoDup_incl_length; [exact Hnd|].
    intros c Hc. now apply Hin in Hc.
Qed.

Lemma find_target (targets : Targets) (z : Z) :
  existsb (Z.eqb z) (map snd targets) = true ->
  exists c, find (fun c => snd c =? z) targets = Some c
            /\ snd c = z /\ In c targets.
Proof.
  induction targets as [|[code i] r IH]; simpl; [discriminate|].
  destruct (i =? z) eqn:E.
  - intros _. exists (code, i). apply Z.eqb_eq in E. simpl. tauto.
  - rewrite Z.eqb_sym, E. simpl. intros H. destruct (IH H) as [c Hc].
    exists c. tauto.
Qed.

Lemma set_currencyCode_currency (targets : Targets) (o : Offer) :
  currency (set_currencyCode targets o) = currency o.
Proof.
  unfold set_currencyCode. now destruct (find _ targets).
Qed.

Lemma set_currencyCode_kept (targets : Targets) (l : list Offer) :
  Forall
    (fun o => existsb (Z.eqb (currency o)) (map snd targets) = true) l ->
  Forall2
    (fun kept o =>
       exists code,
         find (fun c => snd c =? currency o) targets
         = Some (code, currency o)
         /\ kept
            = mkOffer (id o) (expires_at o) (currency o) (Some code)
                (coordinator o))
    (map (set_currencyCode targets) l) l.
Proof.
  induction 1 as [|o r Ho _ IH]; simpl; constructor; [|exact IH].
  destruct (find_target _ _ Ho) as [[code i] (Hf & Hi & _)].
  simpl in Hi. subst i. exists code. split; [exact Hf|].
  unfold set_currencyCode. now rewrite Hf.
Qed.

(** X12: [getOffers] keeps exactly the offers whose currency id is the id
    of a target currency, in their order, each unchanged (id, expiry,
    currency and coordinator) but for its currency code, which becomes the
    code of the first target with that id; offers already filtered pass
    unchanged, and with no target currency nothing is returned. *)
Theorem filter_targets_keeps_target_currencies (targets : Targets)
    (orderBook : list Offer) :
  (forall o, In o (filter_targets targets orderBook) ->
     exists code, currencyCode o = Some code
                  /\ In (code, currency o) targets)
  /\ map id (filter_targets targets orderBook)
     = map id
         (filter (fun o => existsb (Z.eqb (currency o)) (map snd targets))
            orderBook)
  /\ Forall2
       (fun kept o =>
          exists code,
            find (fun c => snd c =? currency o) targets
            = Some (code, currency o)
            /\ kept
               = mkOffer (id o) (expires_at o) (currency o) (Some code)
                   (coordinator o))
       (filter_targets targets orderBook)
       (filter (fun o => existsb (Z.eqb (currency o)) (map snd targets))
          orderBook)
  /\ filter_targets targets (filter_targets targets orderBook)
     = filter_targets targets orderBook
  /\ filter_targets [] orderBook = [].
Proof.
  split; [|split; [|split; [|split]]].
  - intros o Ho. unfold filter_targets in Ho. apply in_map_iff in Ho.
    destruct Ho as [o' [<- Ho']]. apply filter_In in Ho'.
    destruct Ho' as [_ Hc]. destruct (find_target _ _ Hc) as [[code i] (Hf & Hi & Hin)].
    simpl in Hi. subst i. unfold set_currencyCode. rewrite Hf.
    exists code. simpl. tauto.
  - unfold filter_targets. rewrite map_map. apply map_ext.
    intros o. unfold set_currencyCode. now destruct (find _ targets).
  - unfold filter_targets. apply set_currencyCode_kept.
    apply Forall_forall. intros o Ho. now apply filter_In in Ho.
  - unfold filter_targets at 1.
    rewrite filter_all.
    + rewrite <- (map_id (filter_targets targets orderBook)) at 2.
      apply map_ext_in. intros o Ho. unfold filter_targets in Ho.
      apply in_map_iff in Ho. destruct Ho as [o' [<- Ho']].
      apply filter_In in Ho'. destruct Ho' as [_ Hc].
      destruct (find_target _ _ Hc) as [[code i] (Hf & Hi & Hin)].
      unfold set_currencyCode at 2. rewrite Hf. cbn [fst].
      unfold set_currencyCode. cbn [currency]. rewrite Hf. reflexivity.
    + apply Forall_forall. intros o Ho. unfold filter_targets in Ho.
      apply in_map_iff in Ho. destruct Ho as [o' [<- Ho']].
      apply filter_In in Ho'. rewrite set_currencyCode_currency. tauto.
  - unfold filter_targets. simpl.
    induction orderBook; simpl; auto.
Qed.

(** X13: [getInfo] returns the answer of the first configured coordinator
    that answers, skipping those before it, and throws exactly when no
    configured coordinator answers, in particular when none is
    configured. *)
Theorem getInfo_first_answer {Info : Type} (info : string -> option Info)
    (cs : list string) :
  (forall data,
     getInfo info cs = Ok data
     <-> exists before c after,
           cs = (before ++ c :: after)%list
           /\ Forall (fun c' => info c' = None) before
           /\ info c = Some data)
  /\ ((exists e, getInfo info cs = Throw e)
      <-> Forall (fun c => info c = None) cs).
Proof.
  induction cs as [|c r [IH1 IH2]]; simpl.
  - split.
    + intros data. split; [discriminate|].
      intros (before & c & after & E & _). now destruct before.
    + split; [constructor|]. intros _. now exists OtherError.
  - destruct (info c) as [d|] eqn:E.
    + split.
      * intros data. split.
        -- intros [= ->]. exists [], c, r. repeat split; auto.
        -- intros (before & c' & after & Hcs & Hb & Hc).
           destruct before as [|b before]; simpl in Hcs.
           ++ injection Hcs as -> _. congruence.
           ++ injection Hcs as -> _. inversion Hb; congruence.
      * split.
        -- intros [e He]. discriminate.
        -- intros H. inversion H; congruence.
    + split.
      * intros data. rewrite IH1. split.
        -- intros (before & c' & after & Hcs & Hb & Hc).
           exists (c :: before), c', after. subst r.
           repeat split; auto.
        -- intros (before & c' & after & Hcs & Hb & Hc).
           destruct before as [|b before]; simpl in Hcs.
           ++ injection Hcs as -> _. congruence.
           ++ injection Hcs as -> ->. inversion Hb; subst.
              exists before, c', after. repeat split; auto.
      * rewrite IH2. split.
        -- intros H. now constructor.
        -- intros H. now inversion H.
Qed.

(** ** The check interval setting *)

(** X14: [parseCheckInterval] never yields an interval below one minute:
    an unset variable, a text that does not start with a number and a
    number below 1 are rejected, and the text of an integer number of
    minutes from 1 on gives that many times 60000 milliseconds (within the
    range where the product is an exact JavaScript number). *)
Theorem parseCheckInterval_at_least_a_minute :
  parseCheckInterval None = Throw OtherError
  /\ (forall s ms, parseCheckInterval (Some s) = Ok ms -> 60000 <= ms)
  /\ (forall s, parseInt s = NaN ->
        parseCheckInterval (Some s) = Throw OtherError)
  /\ (forall n,
        - MAX_SAFE_INTEGER <= n -> n * 60 * 1000 <= MAX_SAFE_INTEGER ->
        parseCheckInterval (Some (Number_toString (Num n)))
        = if n <? 1 then Throw OtherError else Ok (n * 60 * 1000)).
Proof.
  split; [reflexivity|split; [|split]].
  - intros s ms. unfold parseCheckInterval, parseInt_env.
    destruct (parseInt s) as [z|]; [|discriminate].
    destruct (z <? 1) eqn:E; [discriminate|].
    apply Z.ltb_ge in E. intros [= <-]. lia.
  - intros s H. unfold parseCheckInterval, parseInt_env. now rewrite H.
  - intros n _ _. unfold parseCheckInterval, parseInt_env.
    now rewrite parseInt_Number_toString.
Qed.

(** ** Cycles that are disturbed *)

Section DisturbedCycles.

Variable Date_parse : string -> option Z.

Lemma sends_emit (e : Event) (w : World) :
  sends (trace (emit e w)) = (sends (trace w) ++ sends [e])%list.
Proof. unfold emit. cbn [trace]. apply sends_app. Qed.

Lemma sends_emit_other (e : Event) (w : World) :
  sends [e] = [] -> sends (trace (emit e w)) = sends (trace w).
Proof. intros H. rewrite sends_emit, H. apply app_nil_r. Qed.

Lemma sends_stop_during (b : bool) (w : World) :
  sends (trace (stop_during b w)) = sends (trace w).
Proof.
  unfold stop_during, stopCheckInterval. destruct b; [|reflexivity].
  destruct (isCheckInProgress w); cbn [trace with_shouldAbortCheck];
    now rewrite sends_emit_other.
Qed.

Lemma sends_addOffers (now : Z) (os : list Offer) (w : World) :
  sends (trace (addOffers Date_parse now os w)) = sends (trace w).
Proof.
  unfold addOffers. rewrite fold_markAsSeen. unfold save.
  rewrite sends_emit_other by reflexivity. reflexivity.
Qed.

Lemma sends_cleanup (now : Z) (w : World) :
  sends (trace (snd (cleanupExpiredOffers now w))) = sends (trace w).
Proof.
  unfold cleanupExpiredOffers.
  destruct (cleanup_loop now (seenOffers w) (seenOffers w, 0%nat)) as [m c].
  destruct (0 <? c)%nat; cbn [snd]; [|reflexivity].
  unfold save. rewrite sends_emit_other by reflexivity.
  cbn [trace with_dataFile]. now rewrite sends_emit_other.
Qed.

(** The send loop notifies a prefix of its list, whatever happens. *)
Lemma send_loop_sends_prefix (env : CycleEnv) (os : list Offer) (i : nat)
    (w : World) :
  exists n,
    sends (trace (snd (send_loop env i os w)))
    = (sends (trace w) ++ firstn n os)%list.
Proof.
  revert i w. induction os as [|o r IH]; intros i w; cbn [send_loop].
  - exists 0%nat. simpl. now rewrite app_nil_r.
  - destruct (shouldAbortCheck w); cbn [snd].
    + exists 0%nat. rewrite sends_emit_other by reflexivity.
      simpl. now rewrite app_nil_r.
    + destruct (sendResolves env i); cbn [snd].
      * destruct (IH (S i)
                    (stop_during (stopDuringSend env i)
                       (emit (Invoke (SendNotification o)) w))) as [n Hn].
        exists (S n). rewrite Hn, sends_stop_during, sends_emit.
        cbn [firstn]. rewrite <- app_assoc. reflexivity.
      * exists 1%nat. rewrite sends_stop_during, sends_emit. reflexivity.
Qed.

Lemma after_sends_sends (env : CycleEnv) (os : list Offer)
    (r : LoopExit * World) :
  sends (trace (after_sends Date_parse env os r)) = sends (trace (snd r)).
Proof.
  destruct r as [[| |] w7]; cbn [after_sends snd].
  - rewrite sends_emit_other by reflexivity.
    rewrite sends_addOffers. now rewrite sends_emit_other.
  - reflexivity.
  - now rewrite sends_emit_other.
Qed.

Lemma checkForNewOffersInternal_after_sends (env : CycleEnv) (w : World) :
  checkForNewOffersInternal Date_parse env w
  = if shouldAbortCheck w then emit (Log LAborted) w
    else if negb (configValid env) then emit (Log LConfigError) w
    else
      let w1 :=
        snd (cleanupExpiredOffers (nowCleanup env)
               (emit (Invoke CleanupExpiredOffers) w)) in
      let w2 := stop_during (stopDuringCleanup env) w1 in
      if shouldAbortCheck w2 then emit (Log LAborted) w2
      else
        let w3 := emit (Invoke GetOffers) (emit (Log LChecking) w2) in
        let w4 := stop_during (stopDuringFetch env) w3 in
        match fetched env with
        | FetchRejected => emit (Log LCycleError) w4
        | FetchedObject _ =>
            if shouldAbortCheck w4 then emit (Log LAborted) w4
            else emit (Log LCycleError) (emit (Invoke GetNewOffers) w4)
        | FetchedArray allOffers =>
            if shouldAbortCheck w4 then emit (Log LAborted) w4
            else
              let newOffers := getNewOffers allOffers w4 in
              let w5 := emit (Invoke GetNewOffers) w4 in
              if (0 <? List.length newOffers)%nat
              then
                after_sends Date_parse env newOffers
                  (send_loop env 0 newOffers
                     (emit (Log (LFound (List.length newOffers))) w5))
              else emit (Log LNoNewOffers) w5
        end.
Proof.
  reflexivity.
Qed.

Lemma internal_sends_only_new (env : CycleEnv) (w : World) :
  Map_ok (seenOffers w) ->
  match fetched env with
  | FetchedArray allOffers =>
      exists n,
        sends (trace (checkForNewOffersInternal Date_parse env w))
        = (sends (trace w)
           ++ firstn n
                (new_offers allOffers
                   (cleaned (nowCleanup env) (seenOffers w))))%list
  | _ =>
      sends (trace (checkForNewOffersInternal Date_parse env w))
      = sends (trace w)
  end.
Proof.
  intros Hok.
  assert (Hnone : forall w',
             sends (trace w') = sends (trace w) ->
             match fetched env with
             | FetchedArray allOffers =>
                 exists n,
                   sends (trace w')
                   = (sends (trace w)
                      ++ firstn n
                           (new_offers allOffers
                              (cleaned (nowCleanup env) (seenOffers w))))%list
             | _ => sends (trace w') = sends (trace w)
             end).
  { intros w' H. destruct (fetched env); try assumption.
    exists 0%nat. simpl. now rewrite app_nil_r. }
  rewrite checkForNewOffersInternal_after_sends.
  destruct (shouldAbortCheck w);
    [apply Hnone; now rewrite sends_emit_other|].
  destruct (negb (configValid env));
    [apply Hnone; now rewrite sends_emit_other|].
  cbv zeta.
  set (w1 := snd (cleanupExpiredOffers _ _)).
  assert (H1 : sends (trace w1) = sends (trace w)).
  { subst w1. rewrite sends_cleanup. now rewrite sends_emit_other. }
  assert (S1 : seenOffers w1 = cleaned (nowCleanup env) (seenOffers w)).
  { subst w1. rewrite cleanupExpiredOffers_world by exact Hok. reflexivity. }
  set (w2 := stop_during _ w1).
  assert (H2 : sends (trace w2) = sends (trace w)).
  { subst w2. rewrite sends_stop_during. exact H1. }
  assert (S2 : seenOffers w2 = cleaned (nowCleanup env) (seenOffers w)).
  { subst w2. rewrite stop_during_seenOffers. exact S1. }
  destruct (shouldAbortCheck w2);
    [apply Hnone; rewrite sends_emit_other by reflexivity; exact H2|].
  set (w4 := stop_during _ _).
  assert (H4 : sends (trace w4) = sends (trace w)).
  { subst w4. rewrite sends_stop_during.
    rewrite !sends_emit_other by reflexivity. exact H2. }
  assert (S4 : seenOffers w4 = cleaned (nowCleanup env) (seenOffers w)).
  { subst w4. rewrite stop_during_seenOffers. exact S2. }
  clearbody w4. clear Hnone.
  destruct (fetched env) as [|allOffers|book].
  - rewrite sends_emit_other by reflexivity. exact H4.
  - destruct (shouldAbortCheck w4).
    { exists 0%nat. rewrite sends_emit_other by reflexivity.
      simpl. now rewrite app_nil_r. }
    assert (Enew : getNewOffers allOffers w4
                   = new_offers allOffers
                       (cleaned (nowCleanup env) (seenOffers w))).
    { unfold getNewOffers, isNew, new_offers. now rewrite S4. }
    rewrite Enew.
    destruct (0 <? _)%nat.
    + rewrite after_sends_sends.
      destruct (send_loop_sends_prefix env
                  (new_offers allOffers
                     (cleaned (nowCleanup env) (seenOffers w))) 0
                  (emit (Log (LFound
                     (List.length
                        (new_offers allOffers
                           (cleaned (nowCleanup env) (seenOffers w))))))
                     (emit (Invoke GetNewOffers) w4))) as [n Hn].
      exists n. rewrite Hn. rewrite !sends_emit_other by reflexivity.
      now rewrite H4.
    + exists 0%nat. rewrite !sends_emit_other by reflexivity.
      simpl. now rewrite app_nil_r.
  - destruct (shouldAbortCheck w4); rewrite !sends_emit_other by reflexivity;
      exact H4.
Qed.

End DisturbedCycles.

(** X15: whatever disturbs it (a stop at any await, a failing send, invalid
    settings, a cycle already running), [checkForNewOffers] notifies only
    offers of the fetched listing that are untracked once the expired
    records are gone, in listing order and without skipping one: the
    notifications it adds are a prefix of the new offers, and there is none
    when the client gives no array. *)
Theorem cycle_notifies_only_new_offers (Date_parse : string -> option Z)
    (env : CycleEnv) (w : World) :
  Map_ok (seenOffers w) ->
  match fetched env with
  | FetchedArray allOffers =>
      exists n,
        sends (trace (checkForNewOffers Date_parse env w))
        = (sends (trace w)
           ++ firstn n
                (new_offers allOffers
                   (cleaned (nowCleanup env) (seenOffers w))))%list
  | _ =>
      sends (trace (checkForNewOffers Date_parse env w)) = sends (trace w)
  end.
Proof.
  intros Hok. unfold checkForNewOffers.
  destruct (isCheckInProgress w).
  - rewrite sends_emit_other by reflexivity.
    destruct (fetched env); try reflexivity.
    exists 0%nat. simpl. now rewrite app_nil_r.
  - exact (internal_sends_only_new Date_parse env
             (checkForNewOffers_enter w) Hok).
Qed.

Lemma cycle_notifies_only_new_offers_witness :
  exists n,
    sends (trace (checkForNewOffers demo_Date_parse second_send_fails
                    (world_of store_live7)))
    = (sends (trace (world_of store_live7))
       ++ firstn n
            (new_offers [offer7; offer8]
               (cleaned 100 (seenOffers (world_of store_live7)))))%list.
Proof.
  apply (cycle_notifies_only_new_offers demo_Date_parse second_send_fails
           (world_of store_live7)).
  repeat constructor. simpl. tauto.
Defined.

Section BrokenOffCycles.

Variable Date_parse : string -> option Z.

Lemma internal_reaches_sends (env : CycleEnv) (allOffers : list Offer)
    (w : World) :
  shouldAbortCheck w = false ->
  Map_ok (seenOffers w) ->
  reaches_sends env allOffers ->
  let new :=
    new_offers allOffers (cleaned (nowCleanup env) (seenOffers w)) in
  new <> [] ->
  checkForNewOffersInternal Date_parse env w
  = after_sends Date_parse env new
      (send_loop env 0 new (before_sends env allOffers w)).
Proof.
  intros Hab Hok (Hcfg & Hs1 & Hs2 & Hfetch) new Hnew.
  rewrite checkForNewOffersInternal_after_sends.
  rewrite Hab, Hcfg, Hs1, Hs2, Hfetch. cbn [negb stop_during].
  cbv zeta.
  rewrite cleanupExpiredOffers_world by exact Hok.
  unfold getNewOffers, isNew.
  cbn [shouldAbortCheck emit seenOffers dataFile isCheckInProgress trace].
  rewrite Hab.
  fold (new_offers allOffers (cleaned (nowCleanup env) (seenOffers w))).
  fold new.
  assert (Hpos : (0 <? List.length new)%nat = true)
    by (destruct new; [congruence|reflexivity]).
  rewrite Hpos. f_equal. f_equal.
  apply world_ext; unfold before_sends;
    cbn [emit shouldAbortCheck seenOffers dataFile isCheckInProgress trace];
    try reflexivity; try (symmetry; exact Hab).
  fold new. repeat rewrite <- app_assoc. reflexivity.
Qed.

Lemma send_loop_throws (env : CycleEnv) (os : list Offer) (k i : nat)
    (w : World) :
  shouldAbortCheck w = false ->
  (forall j, stopDuringSend env j = false) ->
  (i < List.length os)%nat ->
  (forall j, (j < i)%nat -> sendResolves env (k + j) <> None) ->
  sendResolves env (k + i) = None ->
  send_loop env k os w
  = (LoopThrew, emits (send_events (firstn (S i) os)) w).
Proof.
  intros Hab Hstop. revert k i w Hab.
  induction os as [|o r IH]; intros k i w Hab Hi Hres Hrej;
    [simpl in Hi; lia|].
  cbn [send_loop]. rewrite Hab, Hstop. cbn [stop_during].
  destruct i as [|i].
  - rewrite Nat.add_0_r in Hrej. rewrite Hrej. reflexivity.
  - destruct (sendResolves env k) eqn:E.
    2:{ exfalso. apply (Hres 0%nat); [lia|]. now rewrite Nat.add_0_r. }
    rewrite (IH (S k) i).
    + rewrite emits_emit. reflexivity.
    + exact Hab.
    + simpl in Hi. lia.
    + intros j Hj. replace (S k + j)%nat with (k + S j)%nat by lia.
      apply Hres. lia.
    + now replace (S k + i)%nat with (k + S i)%nat by lia.
Qed.

Lemma send_loop_stopped (env : CycleEnv) (os : list Offer) (k i : nat)
    (w : World) :
  shouldAbortCheck w = false ->
  isCheckInProgress w = true ->
  (forall j, sendResolves env j <> None) ->
  (S i < List.length os)%nat ->
  (forall j, (j < i)%nat -> stopDuringSend env (k + j) = false) ->
  stopDuringSend env (k + i) = true ->
  send_loop env k os w
  = (LoopReturned,
     emit (Log LAbortedNotifications)
       (with_shouldAbortCheck true
          (emit (Log LIntervalStoppedAborting)
             (emits (send_events (firstn (S i) os)) w)))).
Proof.
  intros Hab Hip Hres. revert k i w Hab Hip.
  induction os as [|o r IH]; intros k i w Hab Hip Hi Hquiet Hstop;
    [simpl in Hi; lia|].
  cbn [send_loop]. rewrite Hab.
  destruct (sendResolves env k) eqn:E; [|now apply Hres in E].
  destruct i as [|i].
  - rewrite Nat.add_0_r in Hstop. rewrite Hstop.
    unfold stop_during, stopCheckInterval.
    cbn [emit isCheckInProgress]. rewrite Hip.
    destruct r as [|o2 r]; [simpl in Hi; lia|].
    cbn [send_loop with_shouldAbortCheck shouldAbortCheck].
    reflexivity.
  - pose proof (Hquiet 0%nat ltac:(lia)) as Hq0.
    rewrite Nat.add_0_r in Hq0. rewrite Hq0. cbn [stop_during].
    rewrite (IH (S k) i).
    + rewrite emits_emit. reflexivity.
    + exact Hab.
    + exact Hip.
    + simpl in Hi. lia.
    + intros j Hj. replace (S k + j)%nat with (k + S j)%nat by lia.
      apply Hquiet. lia.
    + now replace (S k + i)%nat with (k + S i)%nat by lia.
Qed.

Lemma sends_emits (evs : list Event) (w : World) :
  sends (trace (emits evs w)) = (sends (trace w) ++ sends evs)%list.
Proof. unfold emits. cbn [trace]. apply sends_app. Qed.

Lemma writes_emits (evs : list Event) (w : World) :
  writes (trace (emits evs w)) = (writes (trace w) ++ writes evs)%list.
Proof. unfold emits. cbn [trace]. apply writes_app. Qed.

Lemma getNewOffers_store (allOffers : list Offer) (w : World) (m : Store) :
  seenOffers w = m -> getNewOffers allOffers w = new_offers allOffers m.
Proof. intros <-. reflexivity. Qed.

(** X16: when the cycle's [i]-th send (counted from 0) rejects, the cycle
    ends with the error log and without [addOffers]: the offers up to and
    including that one were handed to the notifier, no record is created
    and nothing but the cleanup is written, so every new offer, also the
    ones already delivered, is still new for the next cycle. *)
Theorem failed_send_records_nothing (env : CycleEnv)
    (allOffers : list Offer) (w : World) (i : nat) :
  isCheckInProgress w = false ->
  Map_ok (seenOffers w) ->
  reaches_sends env allOffers ->
  (forall j, stopDuringSend env j = false) ->
  let c := cleaned (nowCleanup env) (seenOffers w) in
  let new := new_offers allOffers c in
  (i < List.length new)%nat ->
  (forall j, (j < i)%nat -> sendResolves env j <> None) ->
  sendResolves env i = None ->
  let w' := checkForNewOffers Date_parse env w in
  sends (trace w') = (sends (trace w) ++ firstn (S i) new)%list
  /\ seenOffers w' = c
  /\ getNewOffers allOffers w' = new
  /\ writes (trace w')
     = (writes (trace w)
        ++ writes (cleanup_events (nowCleanup env) (seenOffers w)))%list
  /\ isCheckInProgress w' = false
  /\ exists tr, trace w' = (tr ++ [Log LCycleError])%list.
Proof.
  intros Hip Hok Hreach Hstop c new Hi Hres Hrej w'. subst w'.
  unfold checkForNewOffers. rewrite Hip.
  assert (Hnew : new <> []) by (destruct new; [simpl in Hi; lia|discriminate]).
  rewrite (internal_reaches_sends env allOffers (checkForNewOffers_enter w)
             eq_refl Hok Hreach Hnew).
  cbn [checkForNewOffers_enter with_shouldAbortCheck with_isCheckInProgress
       seenOffers].
  fold c. fold new.
  rewrite (send_loop_throws env new 0 i) by (assumption || reflexivity).
  cbn [after_sends].
  assert (Hs : seenOffers
                 (checkForNewOffers_finally
                    (emit (Log LCycleError)
                       (emits (send_events (firstn (S i) new))
                          (before_sends env allOffers
                             (checkForNewOffers_enter w))))) = c)
    by reflexivity.
  split; [|split; [|split; [|split; [|split]]]].
  - cbn [checkForNewOffers_finally with_isCheckInProgress trace].
    rewrite sends_emit_other by reflexivity.
    rewrite sends_emits, sends_send_events.
    unfold before_sends. cbn [trace]. rewrite !sends_app.
    rewrite sends_cleanup_events. simpl. now rewrite app_nil_r.
  - exact Hs.
  - now apply getNewOffers_store.
  - cbn [checkForNewOffers_finally with_isCheckInProgress trace emit].
    rewrite writes_app, writes_emits, writes_send_events.
    unfold before_sends. cbn [trace]. rewrite !writes_app.
    simpl. now rewrite !app_nil_r.
  - reflexivity.
  - eexists. cbn [checkForNewOffers_finally with_isCheckInProgress trace emit].
    reflexivity.
Qed.

(** X17: when the interval is stopped during the cycle's [i]-th send and
    more new offers are left, the loop returns before the next send and
    the cycle never reaches [addOffers]: the offers up to that one were
    handed to the notifier, none of them is recorded, and all of them are
    still new for the next cycle. *)
Theorem stop_during_send_records_nothing (env : CycleEnv)
    (allOffers : list Offer) (w : World) (i : nat) :
  isCheckInProgress w = false ->
  Map_ok (seenOffers w) ->
  reaches_sends env allOffers ->
  (forall j, sendResolves env j <> None) ->
  let c := cleaned (nowCleanup env) (seenOffers w) in
  let new := new_offers allOffers c in
  (S i < List.length new)%nat ->
  (forall j, (j < i)%nat -> stopDuringSend env j = false) ->
  stopDuringSend env i = true ->
  let w' := checkForNewOffers Date_parse env w in
  sends (trace w') = (sends (trace w) ++ firstn (S i) new)%list
  /\ seenOffers w' = c
  /\ getNewOffers allOffers w' = new
  /\ writes (trace w')
     = (writes (trace w)
        ++ writes (cleanup_events (nowCleanup env) (seenOffers w)))%list
  /\ shouldAbortCheck w' = true
  /\ isCheckInProgress w' = false.
Proof.
  intros Hip Hok Hreach Hres c new Hi Hquiet Hstop w'. subst w'.
  unfold checkForNewOffers. rewrite Hip.
  assert (Hnew : new <> []) by (destruct new; [simpl in Hi; lia|discriminate]).
  rewrite (internal_reaches_sends env allOffers (checkForNewOffers_enter w)
             eq_refl Hok Hreach Hnew).
  cbn [checkForNewOffers_enter with_shouldAbortCheck with_isCheckInProgress
       seenOffers].
  fold c. fold new.
  rewrite (send_loop_stopped env new 0 i)
    by (assumption || reflexivity).
  cbn [after_sends].
  split; [|split; [|split; [|split; [|split]]]].
  - cbn [checkForNewOffers_finally with_isCheckInProgress trace].
    rewrite sends_emit_other by reflexivity.
    cbn [with_shouldAbortCheck trace].
    rewrite sends_emit_other by reflexivity.
    rewrite sends_emits, sends_send_events.
    unfold before_sends. cbn [trace]. rewrite !sends_app.
    rewrite sends_cleanup_events. simpl. now rewrite app_nil_r.
  - reflexivity.
  - now apply getNewOffers_store.
  - cbn [checkForNewOffers_finally with_isCheckInProgress
         with_shouldAbortCheck trace emit].
    rewrite !writes_app, writes_emits, writes_send_events.
    unfold before_sends. cbn [trace]. rewrite !writes_app.
    simpl. now rewrite !app_nil_r.
  - reflexivity.
  - reflexivity.
Qed.

End BrokenOffCycles.

Lemma failed_send_records_nothing_witness :
  sends (trace (checkForNewOffers demo_Date_parse second_send_fails
                  (world_of [])))
  = [offer7; offer8]
  /\ seenOffers (checkForNewOffers demo_Date_parse second_send_fails
                   (world_of []))
     = [].
Proof.
  assert (H : Map_ok (seenOffers (world_of []))) by constructor.
  assert (Hr : reaches_sends second_send_fails [offer7; offer8])
    by (repeat split).
  destruct (failed_send_records_nothing demo_Date_parse second_send_fails
              [offer7; offer8] (world_of []) 1 eq_refl H Hr
              (fun _ => eq_refl)) as (H1 & H2 & _).
  - simpl. lia.
  - intros j Hj. assert (j = 0)%nat by lia. subst j. discriminate.
  - reflexivity.
  - split; [exact H1|exact H2].
Defined.

Lemma stop_during_send_records_nothing_witness :
  sends (trace (checkForNewOffers demo_Date_parse stopped_in_first_send
                  (world_of [])))
  = [offer7]
  /\ seenOffers (checkForNewOffers demo_Date_parse stopped_in_first_send
                   (world_of []))
     = [].
Proof.
  assert (H : Map_ok (seenOffers (world_of []))) by constructor.
  assert (Hr : reaches_sends stopped_in_first_send [offer7; offer8])
    by (repeat split).
  destruct (stop_during_send_records_nothing demo_Date_parse
              stopped_in_first_send [offer7; offer8] (world_of []) 0
              eq_refl H Hr) as (H1 & H2 & _).
  - intros j. discriminate.
  - simpl. lia.
  - intros j Hj. lia.
  - reflexivity.
  - split; [exact H1|exact H2].
Defined.

(** X18: when the client gives the cycle no array, because the fetch
    rejects or because it resolves with the object of the client that
    reports reachable coordinators, a cycle with valid settings that is not
    stopped notifies nothing, records nothing beyond its cleanup and ends
    with the error log. *)
Theorem cycle_without_array_records_nothing
    (Date_parse : string -> option Z) (env : CycleEnv) (w : World) :
  isCheckInProgress w = false ->
  Map_ok (seenOffers w) ->
  configValid env = true ->
  stopDuringCleanup env = false ->
  stopDuringFetch env = false ->
  (forall allOffers, fetched env <> FetchedArray allOffers) ->
  let w' := checkForNewOffers Date_parse env w in
  sends (trace w') = sends (trace w)
  /\ seenOffers w' = cleaned (nowCleanup env) (seenOffers w)
  /\ writes (trace w')
     = (writes (trace w)
        ++ writes (cleanup_events (nowCleanup env) (seenOffers w)))%list
  /\ exists tr, trace w' = (tr ++ [Log LCycleError])%list.
Proof.
  intros Hip Hok Hcfg Hs1 Hs2 Hf w'. subst w'.
  unfold checkForNewOffers. rewrite Hip.
  set (W := checkForNewOffers_enter w).
  assert (HW1 : shouldAbortCheck W = false) by reflexivity.
  assert (HW2 : seenOffers W = seenOffers w) by reflexivity.
  assert (HW3 : trace W = trace w) by reflexivity.
  clearbody W.
  unfold checkForNewOffersInternal.
  rewrite HW1, Hcfg, Hs1, Hs2. cbn [negb stop_during].
  rewrite cleanupExpiredOffers_world
    by (cbn [emit seenOffers]; rewrite HW2; exact Hok).
  cbn [shouldAbortCheck emit seenOffers dataFile isCheckInProgress trace].
  rewrite HW1, HW2, HW3.
  destruct (fetched env) as [|allOffers|book];
    [|now destruct (Hf allOffers)|];
    cbn [checkForNewOffers_finally with_isCheckInProgress emit
         shouldAbortCheck seenOffers dataFile isCheckInProgress trace];
    (split; [|split; [reflexivity|split]]);
    try (eexists; reflexivity);
    rewrite ?sends_app, ?writes_app, ?sends_cleanup_events; simpl;
    now rewrite ?app_nil_r.
Qed.

Lemma cycle_without_array_records_nothing_witness :
  sends (trace (checkForNewOffers demo_Date_parse
                  (calm 100 (FetchedObject (mkOrderBook [offer7] ["alice"])))
                  (world_of store_live5)))
  = [].
Proof.
  apply (cycle_without_array_records_nothing demo_Date_parse
           (calm 100 (FetchedObject (mkOrderBook [offer7] ["alice"])))
           (world_of store_live5)); try reflexivity.
  - repeat constructor. simpl. tauto.
  - intros allOffers. discriminate.
Defined.

Lemma new_offers_nil (allOffers : list Offer) : new_offers allOffers [] = allOffers.
Proof.
  unfold new_offers. apply filter_all. apply Forall_forall. now intros.
Qed.

(** X19: [clearAll] empties the tracker and the data file, and the next
    undisturbed cycle then notifies every offer of the fetched listing
    again, whatever had been tracked before. *)
Theorem clearAll_renotifies_every_listing (Date_parse : string -> option Z)
    (env : CycleEnv) (allOffers : list Offer) (w : World) :
  isCheckInProgress w = false ->
  undisturbed env ->
  fetched env = FetchedArray allOffers ->
  getTrackedOfferIds (clearAll w) = []
  /\ dataFile (clearAll w) = Some (FileObject [])
  /\ sends (trace (checkForNewOffers Date_parse env (clearAll w)))
     = (sends (trace w) ++ allOffers)%list.
Proof.
  intros Hip Hund Hfetch. split; [reflexivity|split; [reflexivity|]].
  unfold checkForNewOffers.
  change (isCheckInProgress (clearAll w)) with (isCheckInProgress w).
  rewrite Hip.
  rewrite (cycle_complete Date_parse env allOffers
             (checkForNewOffers_enter (clearAll w)) eq_refl)
    by (assumption || constructor).
  unfold cycle_result.
  change (seenOffers (checkForNewOffers_enter (clearAll w))) with (@nil (Key * SeenValue)).
  change (cleaned (nowCleanup env) []) with (@nil (Key * SeenValue)).
  rewrite new_offers_nil.
  assert (Ht : sends (trace (checkForNewOffers_enter (clearAll w)))
               = sends (trace w)).
  { unfold clearAll, save.
    cbn [checkForNewOffers_enter with_shouldAbortCheck
         with_isCheckInProgress trace].
    rewrite !sends_emit_other by reflexivity.
    cbn [with_dataFile with_seenOffers trace].
    now rewrite sends_emit_other. }
  destruct allOffers as [|o r];
    cbn [checkForNewOffers_finally with_isCheckInProgress trace];
    rewrite !sends_app, Ht, ?sends_send_events, ?sends_cleanup_events;
    simpl; now rewrite ?app_nil_r.
Qed.

Lemma clearAll_renotifies_every_listing_witness :
  sends (trace (checkForNewOffers demo_Date_parse
                  (calm 100 (FetchedArray [offer7]))
                  (clearAll (world_of store_live7))))
  = [offer7].
Proof.
  apply (clearAll_renotifies_every_listing demo_Date_parse
           (calm 100 (FetchedArray [offer7])) [offer7]
           (world_of store_live7) eq_refl
           (calm_undisturbed 100 (FetchedArray [offer7])) eq_refl).
Defined.

(** ** The interval timer *)

(** X20: however [startCheckInterval] and [stopCheckInterval] are called
    and interleaved with the interval's callback, the runtime never holds
    more than one armed interval: the armed interval is the one whose
    handle [checkInterval] holds, no interval is armed when it is [null],
    and [nextCheckTime] is [null] exactly when [checkInterval] is. *)
Theorem at_most_one_interval_armed (t : Timers) :
  timers_reachable t ->
  armed t = match checkInterval t with Some h => [h] | None => [] end
  /\ (nextCheckTime t = None <-> checkInterval t = None).
Proof.
  induction 1 as [|now ms t Ht [IHa IHn]|t Ht [IHa IHn]
                  |now ms h t Ht [IHa IHn] Hin].
  - simpl. tauto.
  - unfold startCheckInterval, setInterval, clearInterval.
    destruct (checkInterval t) as [h|]; cbn; rewrite IHa; cbn.
    + destruct (Nat.eq_dec h h); [|congruence].
      split; [reflexivity|split; discriminate].
    + split; [reflexivity|split; discriminate].
  - unfold stopCheckInterval_timers, clearInterval.
    destruct (checkInterval t) as [h|] eqn:E; cbn.
    + rewrite IHa. cbn. destruct (Nat.eq_dec h h); [|congruence].
      split; [reflexivity|tauto].
    + rewrite E. tauto.
  - unfold interval_callback. cbn. split; [exact IHa|].
    split; [discriminate|].
    intros E. rewrite E in IHa. rewrite IHa in Hin. destruct Hin.
Qed.

Lemma at_most_one_interval_armed_witness :
  armed (startCheckInterval 5 60000
           (startCheckInterval 0 60000 (mkTimers None None [] 0)))
  = [1%nat].
Proof.
  apply (at_most_one_interval_armed
           (startCheckInterval 5 60000
              (startCheckInterval 0 60000 (mkTimers None None [] 0)))).
  apply timers_started. apply timers_started. apply timers_initial.
Defined.

(** ** Start-up *)




(** ** The mock client *)

Lemma mock_book_currency (expiration : nat -> string) (idx : nat)
    (ts : Targets) (so : Z * Offer) :
  In so (mock_getOrderBook_from expiration idx ts) ->
  fst so = 1 /\ In (currency (snd so)) (map snd ts).
Proof.
  revert idx. induction ts as [|c r IH]; intros idx; simpl; [tauto|].
  intros [<-|[<-|[<-|H]]]; simpl; try tauto.
  destruct (IH _ H). tauto.
Qed.

Lemma mock_book_ids (expiration : nat -> string) (idx : nat) (ts : Targets) :
  map (fun so => id (snd so)) (mock_getOrderBook_from expiration idx ts)
  = map (fun n => KNum (Num (1001 + Z.of_nat n)))
      (seq (3 * idx) (3 * List.length ts)).
Proof.
  revert idx. induction ts as [|c r IH]; intros idx; [reflexivity|].
  cbn [mock_getOrderBook_from List.length].
  replace (3 * S (List.length r))%nat
    with (S (S (S (3 * List.length r))))%nat by lia.
  rewrite map_app, IH. unfold mock_offers.
  replace (3 * S idx)%nat with (S (S (S (3 * idx))))%nat by lia.
  cbn [seq map snd id].
  replace (1001 + Z.of_nat (3 * idx)) with (1001 + Z.of_nat idx * 3) by lia.
  replace (1001 + Z.of_nat (S (3 * idx)))
    with (1002 + Z.of_nat idx * 3) by lia.
  replace (1001 + Z.of_nat (S (S (3 * idx))))
    with (1003 + Z.of_nat idx * 3) by lia.
  reflexivity.
Qed.

Lemma NoDup_map_injective {A B : Type} (f : A -> B) (l : list A) :
  (forall a b, f a = f b -> a = b) -> NoDup l -> NoDup (map f l).
Proof.
  intros Hinj. induction 1 as [|a r Hnotin Hnd IH]; simpl; constructor.
  - intros Hin. apply in_map_iff in Hin. destruct Hin as [b [Hb Hin]].
    apply Hinj in Hb. now subst b.
  - exact IH.
Qed.

(** X22: the mock client lists three offers for each target currency, all
    of which pass its own filter; their ids are 1001, 1002, ... in order,
    pairwise different and the same at every call (only the expiry texts
    vary), and each offer carries the coordinator [mock] and the code of a
    target with its currency id. *)
Theorem mock_getOffers_three_per_currency (expiration : nat -> string)
    (targets : Targets) :
  List.length (mock_getOffers expiration targets)
  = (3 * List.length targets)%nat
  /\ map id (mock_getOffers expiration targets)
     = map (fun n => KNum (Num (1001 + Z.of_nat n)))
         (seq 0 (3 * List.length targets))
  /\ NoDup (map id (mock_getOffers expiration targets))
  /\ (forall o, In o (mock_getOffers expiration targets) ->
        coordinator o = Some "mock"
        /\ exists code, currencyCode o = Some code
                        /\ In (code, currency o) targets).
Proof.
  assert (Hfilter :
            filter
              (fun so : Z * Offer =>
                 (fst so =? 1)
                 && existsb (Z.eqb (currency (snd so))) (map snd targets))
              (mock_getOrderBook expiration targets)
            = mock_getOrderBook expiration targets).
  { apply filter_all. apply Forall_forall. intros so Hin.
    apply mock_book_currency in Hin. destruct Hin as [-> Hin].
    simpl. apply existsb_exists. exists (currency (snd so)).
    split; [assumption|apply Z.eqb_refl]. }
  assert (Hids : map id (mock_getOffers expiration targets)
                 = map (fun n => KNum (Num (1001 + Z.of_nat n)))
                     (seq 0 (3 * List.length targets))).
  { unfold mock_getOffers. rewrite Hfilter, map_map. cbn [id].
    unfold mock_getOrderBook.
    transitivity
      (map (fun so : Z * Offer => id (snd so))
         (mock_getOrderBook_from expiration 0 targets)).
    - apply map_ext. intros so. unfold set_currencyCode.
      now destruct (find _ targets).
    - exact (mock_book_ids expiration 0 targets). }
  split; [|split; [exact Hids|split]].
  - rewrite <- (length_map id), Hids, length_map. apply length_seq.
  - rewrite Hids. apply NoDup_map_injective; [|apply seq_NoDup].
    intros a b H.
    assert (H' : 1001 + Z.of_nat a = 1001 + Z.of_nat b) by congruence.
    lia.
  - intros o Hin. unfold mock_getOffers in Hin. rewrite Hfilter in Hin.
    apply in_map_iff in Hin. destruct Hin as [so [<- Hin]].
    cbn [coordinator currencyCode currency]. split; [reflexivity|].
    apply mock_book_currency in Hin. destruct Hin as [_ Hin].
    assert (Hex : existsb (Z.eqb (currency (snd so))) (map snd targets)
                  = true).
    { apply existsb_exists. exists (currency (snd so)).
      split; [assumption|apply Z.eqb_refl]. }
    destruct (find_target _ _ Hex) as [[code i] (Hf & Hi & Hin')].
    simpl in Hi. subst i. unfold set_currencyCode. rewrite Hf.
    exists code. simpl. tauto.
Qed.

(** ** Where a notification goes *)

(** X23: once [validateNotificationConfig] has accepted the settings, as
    it must at the start of every cycle, [sendNotification] does not fail
    for a missing setting: it goes to the contact, with a country code and
    a phone number that are both set, or to the group, whose name is set;
    and settings the validation rejects for the contact route are the ones
    on which [sendNotification] throws. *)
Theorem validated_settings_have_a_route (env : NotificationEnv) :
  (validateNotificationConfig env = Ok tt ->
   (sendNotification_route env
    = Ok (ToContact (CONTACT_COUNTRY_CODE env) (CONTACT_PHONE_NUMBER env))
    /\ is_set (CONTACT_COUNTRY_CODE env) = true
    /\ is_set (CONTACT_PHONE_NUMBER env) = true)
   \/ (sendNotification_route env = Ok (ToGroup (WHATSAPP_GROUP_NAME env))
       /\ is_set (WHATSAPP_GROUP_NAME env) = true))
  /\ (forall e, sendNotification_route env = Throw e ->
        exists e', validateNotificationConfig env = Throw e').
Proof.
  unfold validateNotificationConfig, sendNotification_route.
  destruct (String.eqb (or_default (NOTIFICATION_TYPE env) "group") "contact").
  - destruct (is_set (CONTACT_COUNTRY_CODE env)),
      (is_set (CONTACT_PHONE_NUMBER env)); simpl; split;
      try discriminate; try (intros _; left; tauto);
      intros e _; now exists OtherError.
  - destruct (is_set (WHATSAPP_GROUP_NAME env)); simpl; split;
      try discriminate; intros _; right; tauto.
Qed.

Lemma remove_non_digits_all_digits (s : string) :
  all_digits (remove_non_digits s) = true.
Proof.
  induction s as [|a r IH]; simpl; [reflexivity|].
  destruct (is_digit a) eqn:E; simpl; [now rewrite E|assumption].
Qed.

Lemma remove_non_digits_fixed (s : string) :
  all_digits s = true -> remove_non_digits s = s.
Proof.
  induction s as [|a r IH]; simpl; [reflexivity|].
  destruct (is_digit a); simpl; [|discriminate].
  intros H. now rewrite IH.
Qed.

Lemma all_digits_app (a b : string) :
  all_digits (a ++ b) = (all_digits a && all_digits b)%bool.
Proof.
  induction a as [|c r IH]; simpl; [reflexivity|].
  rewrite IH. now rewrite andb_assoc.
Qed.

Lemma string_append_assoc (a b c : string) :
  ((a ++ b) ++ c)%string = (a ++ (b ++ c))%string.
Proof. induction a as [|x r IH]; simpl; [reflexivity|]. now rewrite IH. Qed.

(** X24: the chat id of a contact is the country code without its first
    [+], then the digits of the phone number, then [@c.us]: spaces, dashes
    and other marks in the phone number do not change it; for a country
    code that is [+] followed by digits everything before [@c.us] is a
    digit; and a phone number the test-message route accepts contributes
    6 to 15 digits. *)
Theorem chatId_is_digits (countryCode phoneNumber : string) :
  chatId countryCode phoneNumber
  = chatId countryCode (remove_non_digits phoneNumber)
  /\ (forall ds,
        countryCode = String "+" ds -> all_digits ds = true ->
        exists local,
          chatId countryCode phoneNumber = (local ++ "@c.us")%string
          /\ all_digits local = true
          /\ local = (ds ++ remove_non_digits phoneNumber)%string)
  /\ (test_message_phone_ok phoneNumber = true ->
      (6 <= String.length (remove_non_digits phoneNumber) <= 15)%nat).
Proof.
  split; [|split].
  - unfold chatId. f_equal. f_equal. symmetry.
    apply remove_non_digits_fixed, remove_non_digits_all_digits.
  - intros ds -> Hds.
    exists (ds ++ remove_non_digits phoneNumber)%string.
    split; [|split; [|reflexivity]].
    + unfold chatId. cbn [replace_first Ascii.eqb Bool.eqb].
      now rewrite string_append_assoc.
    + now rewrite all_digits_app, Hds, remove_non_digits_all_digits.
  - unfold test_message_phone_ok. intros H.
    apply negb_true_iff in H. apply orb_false_iff in H.
    destruct H as [H1 H2]. apply Nat.ltb_ge in H1, H2. lia.
Qed.

(** ** The time left, as the message shows it *)




(** ** The target currencies setting *)

Lemma split_on_not_nil (sep : ascii) (s : string) : split_on sep s <> [].
Proof.
  destruct s as [|c r]; simpl; [discriminate|].
  destruct (Ascii.eqb c sep); [discriminate|].
  destruct (split_on sep r); discriminate.
Qed.

Section TargetCurrenciesFacts.

Variables trim toUpperCase : string -> string.
Variable CURRENCY_MAP : string -> option Z.

Lemma map_targets_ok (pieces : list string) (ts : Targets) :
  map_targets trim toUpperCase CURRENCY_MAP pieces = inr ts ->
  map fst ts = map (fun piece => toUpperCase (trim piece)) pieces
  /\ Forall (fun c => CURRENCY_MAP (fst c) = Some (snd c) /\ snd c <> 0) ts.
Proof.
  revert ts. induction pieces as [|p r IH]; intros ts; simpl.
  - intros [= <-]. split; [reflexivity|constructor].
  - unfold target_of.
    destruct (CURRENCY_MAP (toUpperCase (trim p))) as [i|] eqn:E;
      [|discriminate].
    destruct (i =? 0) eqn:E0; [discriminate|].
    destruct (map_targets trim toUpperCase CURRENCY_MAP r) as [e|cs];
      [discriminate|].
    intros [= <-]. destruct (IH cs eq_refl) as [H1 H2]. split.
    + simpl. now rewrite H1.
    + constructor; [|assumption]. simpl. split; [assumption|].
      now apply Z.eqb_neq.
Qed.

Lemma map_targets_error (pieces : list string) (e : CurrencyError) :
  map_targets trim toUpperCase CURRENCY_MAP pieces = inl e ->
  exists piece,
    In piece pieces
    /\ e = Unknown_currency_code (toUpperCase (trim piece))
    /\ (CURRENCY_MAP (toUpperCase (trim piece)) = None
        \/ CURRENCY_MAP (toUpperCase (trim piece)) = Some 0).
Proof.
  induction pieces as [|p r IH]; simpl; [discriminate|].
  unfold target_of.
  destruct (CURRENCY_MAP (toUpperCase (trim p))) as [i|] eqn:E.
  - destruct (i =? 0) eqn:E0.
    + intros [= <-]. exists p. apply Z.eqb_eq in E0. subst i. tauto.
    + destruct (map_targets trim toUpperCase CURRENCY_MAP r) as [e'|cs];
        [|discriminate].
      intros [= <-]. destruct (IH eq_refl) as [q Hq]. exists q. tauto.
  - intros [= <-]. exists p. tauto.
Qed.

(** X26: [parseTargetCurrencies] never throws its "at least one target
    currency" error: that check cannot fail, since splitting a text gives
    at least one piece.  When it returns for a setting that is set, it
    returns one target for each comma-separated piece, in order and with
    repetitions, each the trimmed upper-case piece with the non-zero id
    the table holds for it; the unknown-code error names a piece that the
    table does not hold, or holds with the id 0; and an unset or empty
    setting is an error except in mock mode, where the target is USD. *)
Theorem parseTargetCurrencies_outcome (TARGET_CURRENCIES ROBOSATS_USE_MOCK
                                         : option string) :
  let r :=
    parseTargetCurrencies trim toUpperCase CURRENCY_MAP TARGET_CURRENCIES
      ROBOSATS_USE_MOCK in
  r <> inl At_least_one_currency
  /\ (forall ts, r = inr ts -> ts <> [])
  /\ (forall s ts,
        TARGET_CURRENCIES = Some s -> s <> ""%string -> r = inr ts ->
        map fst ts
        = map (fun piece => toUpperCase (trim piece)) (split_on "," s)
        /\ Forall
             (fun c => CURRENCY_MAP (fst c) = Some (snd c) /\ snd c <> 0) ts)
  /\ (forall s code,
        TARGET_CURRENCIES = Some s -> r = inl (Unknown_currency_code code) ->
        exists piece,
          In piece (split_on "," s) /\ code = toUpperCase (trim piece)
          /\ (CURRENCY_MAP code = None \/ CURRENCY_MAP code = Some 0))
  /\ (is_set TARGET_CURRENCIES = false ->
      (ROBOSATS_USE_MOCK = Some "true"%string ->
       r = inr [("USD"%string, 1)])
      /\ (ROBOSATS_USE_MOCK <> Some "true"%string ->
          r = inl TARGET_CURRENCIES_required)).
Proof.
  intros r. subst r. unfold parseTargetCurrencies.
  set (X := match ROBOSATS_USE_MOCK with
            | Some m =>
                if String.eqb m "true" then inr [("USD"%string, 1)]
                else inl TARGET_CURRENCIES_required
            | None => @inl CurrencyError Targets TARGET_CURRENCIES_required
            end).
  assert (Hm : X <> inl At_least_one_currency
               /\ (forall ts, X = inr ts -> ts <> [])
               /\ (forall code, X <> inl (Unknown_currency_code code))
               /\ (ROBOSATS_USE_MOCK = Some "true"%string ->
                   X = inr [("USD"%string, 1)])
               /\ (ROBOSATS_USE_MOCK <> Some "true"%string ->
                   X = inl TARGET_CURRENCIES_required)).
  { subst X. destruct ROBOSATS_USE_MOCK as [m|].
    - destruct (String.eqb m "true") eqn:E.
      + apply String.eqb_eq in E. subst m.
        split; [discriminate|split; [|split; [discriminate|split]]].
        * intros ts [= <-]. discriminate.
        * reflexivity.
        * congruence.
      + apply String.eqb_neq in E.
        split; [discriminate|split; [discriminate|split; [discriminate|]]].
        split; [congruence|reflexivity].
    - split; [discriminate|split; [discriminate|split; [discriminate|]]].
      split; [discriminate|reflexivity]. }
  destruct Hm as (H1 & H2 & H3 & H4 & H5).
  destruct TARGET_CURRENCIES as [s|].
  - destruct (String.eqb s "") eqn:Es.
    + apply String.eqb_eq in Es. subst s.
      split; [exact H1|split; [exact H2|split; [|split]]].
      * intros s ts [= <-] Hne. congruence.
      * intros s code _ H. now apply H3 in H.
      * intros _. split; assumption.
    + apply String.eqb_neq in Es.
      destruct (map_targets trim toUpperCase CURRENCY_MAP (split_on "," s))
        as [e|cs] eqn:E.
      * destruct (map_targets_error _ _ E) as (piece & Hin & -> & Hc).
        split; [discriminate|split; [discriminate|split; [|split]]].
        -- discriminate.
        -- intros s' code [= <-] [= <-]. exists piece. tauto.
        -- unfold is_set. apply String.eqb_neq in Es. rewrite Es.
           discriminate.
      * destruct (map_targets_ok _ _ E) as [E1 E2].
        assert (Hcs : cs <> []).
        { intros ->. simpl in E1. symmetry in E1.
          apply map_eq_nil in E1. now apply split_on_not_nil in E1. }
        destruct cs as [|c cs']; [congruence|]. cbn [List.length Nat.eqb].
        split; [discriminate|split; [|split; [|split]]].
        -- intros ts [= <-]. discriminate.
        -- intros s' ts [= <-] _ [= <-]. split; assumption.
        -- discriminate.
        -- unfold is_set. apply String.eqb_neq in Es. rewrite Es.
           discriminate.
  - split; [exact H1|split; [exact H2|split; [|split]]].
    + discriminate.
    + discriminate.
    + intros _. split; assumption.
Qed.

End TargetCurrenciesFacts.
